(** * acfunlivedb: the polling loop, its retry wrapper and its fetchers

    A shallow embedding of the main file of the program: [runThrice],
    [fetchLiveList], [fetchLiveCut], [getPlayback], the body of the [for]
    loop of [main] and the two goroutines it starts; and the console:
    [handleInput] in its two versions, [handleQuery], [prepare_table],
    [duration] and [saveLiveId].

    - Go's [int] and [int64] are 64-bit; they are integers of [Z], and the
      one multiplication of the program ([count *= 10]) is wrapped.
    - A pointer to a [live] is a location of a heap; a map from string to
      such pointers is a [gmap string loc]; [livePool] is a list of
      locations.
    - [panic] and [recover] are an outcome type; the log, the sleeps, the
      requests, the calls of the persistence layer and the [go] statements
      are events of one trace, in program order.
    - The platform, the acfundanmu library and the store are not part of
      the program: the first two are an oracle, the third a parameter.
    - What the console prints and calls is a trace of its own; the store as
      the console reads it and the file system are oracles. *)

From Stdlib Require Import ZArith List String Ascii Lia DecimalString.
From stdpp Require Import gmap strings list fin_maps relations.

Local Open Scope Z_scope.

(** ** Data *)

Definition loc := nat.

(** [type live struct]. *)
Record live := mkLive {
  liveID : string;
  uid : Z;
  name : string;
  streamName : string;
  startTime : Z;
  title : string;
  duration : Z;
  playbackURL : string;
  backupURL : string;
  liveCutNum : Z
}.

(** [new(live)]: every field at its zero value. *)
Definition zeroLive : live := mkLive "" 0 "" "" 0 "" 0 "" "" 0.

#[global] Instance live_inhabited : Inhabited live := populate zeroLive.

(** The owner the loop of [main] watches. *)
Definition watchedUID : Z := 646973.

(** [acfundanmu.Summary] and [acfundanmu.Playback], the fields the program reads. *)
Record summary := mkSummary { Duration : Z }.
Record playback := mkPlayback { URL : string; BackupURL : string }.

(** Error values. Every [fmt.Errorf] of the program is a constructor that
    keeps its arguments; errors returned by a library keep their text and
    the call they come from. *)
#[warnings="-register-all"]
Inductive error :=
| ErrTransport (msg : string)              (* client.Do *)
| ErrGunzip (msg : string)                 (* resp.BodyGunzip *)
| ErrParse (msg : string)                  (* p.ParseBytes *)
| ErrAtoi (digits : string)                (* strconv.Atoi: value out of range *)
| ErrCollaborator (msg : string)           (* ac.GetSummary, ac.GetPlayback *)
| ErrListFailed (body : string)            (* list response without result = 0 *)
| ErrListCeiling                           (* count reached 1e8 without "no_more" *)
| ErrCutInfoFailed (u : Z) (id body : string)
| ErrCutNumFailed (u : Z) (id body : string)
| ErrFetchLiveList (cause : error)         (* "fetchLiveList() error: %v" *)
| ErrFetchLiveCut (cause : error)          (* "fetchLiveCut() error: %v" *)
| ErrThrice (last : option error)          (* runThrice: "...: %v", err *)
| ErrPlayback (id : string) (cause : error).

Inductive logmsg :=
| LogError (e : error)                     (* runThrice: log.Printf("%v", err) *)
| LogListGivenUp
| LogLive (v : live)
| LogCutGivenUp (u : Z) (id : string)
| LogSummaryGivenUp (n : string) (u : Z) (id : string)
| LogZeroDuration (n : string) (u : Z) (id : string)
| LogNoProviderURL (id : string).

(** ** The retry executor *)

(** What [runThrice] needs of the state it runs in: the logger and the clock. *)
Class Runtime (S : Type) := {
  logPrintf : logmsg -> S -> S;
  timeSleep : Z -> S -> S
}.

Section RunThrice.
Context {S : Type} `{Runtime S}.

(** The [for retry := 0; retry < 3; retry++] loop with [left = 3 - retry]
    rounds to go; [err] is the variable [err] of [runThrice]. *)
Fixpoint runThrice_loop (left : nat) (f : S -> option error * S)
    (err : option error) (s : S) : option error * S :=
  match left with
  | O => (Some (ErrThrice err), s)
  | Datatypes.S left' =>
      let '(err', s1) := f s in
      match err' with
      | Some e =>
          let s2 := logPrintf (LogError e) s1 in
          let s3 := timeSleep 10 s2 in
          runThrice_loop left' f err' s3
      | None => (None, s1)
      end
  end.

Definition runThrice (f : S -> option error * S) (s : S) : option error * S :=
  runThrice_loop 3 f None s.
End RunThrice.

(** A probe around a state: it counts the invocations of the operation and
    adds up what [runThrice] sleeps, and leaves the state alone. *)
Record probe (S : Type) := mkProbe {
  inner : S;
  invocations : nat;
  slept : Z
}.
Arguments mkProbe {S} _ _ _.
Arguments inner {S} _.
Arguments invocations {S} _.
Arguments slept {S} _.

#[global] Instance probe_runtime {S : Type} `{Runtime S} : Runtime (probe S) := {
  logPrintf m p := mkProbe (logPrintf m (inner p)) (invocations p) (slept p);
  timeSleep d p := mkProbe (timeSleep d (inner p)) (invocations p) (slept p + d)
}.

Definition probed {S : Type} (f : S -> option error * S)
    (p : probe S) : option error * probe S :=
  let '(r, s') := f (inner p) in
  (r, mkProbe s' (Datatypes.S (invocations p)) (slept p)).

Definition probe0 {S : Type} (s : S) : probe S := mkProbe s 0%nat 0.

(** ** [panic] and [recover] *)

Inductive exec (A : Type) :=
| Ret (a : A)
| Panic (v : error).
Arguments Ret {A} _.
Arguments Panic {A} _.

#[global] Instance exec_ret : MRet exec := fun A a => Ret a.

#[global] Instance exec_bind : MBind exec := fun A B k c =>
  match c with
  | Ret a => k a
  | Panic v => Panic v
  end.

(** [func checkErr(err error)]. *)
Definition checkErr (err : option error) : exec unit :=
  match err with
  | Some e => Panic e
  | None => Ret tt
  end.

(** ** Strings: [strconv.Atoi] and the pattern of [fetchLiveCut] *)

Definition isDigit (c : ascii) : bool :=
  ((48 <=? nat_of_ascii c) && (nat_of_ascii c <=? 57))%nat.

Definition isSlash (c : ascii) : bool := (nat_of_ascii c =? 47)%nat.

Definition digitVal (c : ascii) : Z := Z.of_nat (nat_of_ascii c) - 48.

Definition maxInt : Z := 2 ^ 63 - 1.
Definition minInt : Z := - 2 ^ 63.

(** Two's complement wrap-around of a 64-bit [int]. *)
Definition wrap64 (z : Z) : Z := (z + 2 ^ 63) mod 2 ^ 64 - 2 ^ 63.

(** The digits of [s] read in base ten, [None] at the first byte that is
    not a digit. *)
Fixpoint readDigits (acc : Z) (s : string) : option Z :=
  match s with
  | EmptyString => Some acc
  | String c rest =>
      if isDigit c then readDigits (acc * 10 + digitVal c) rest else None
  end.

(** [strconv.Atoi]: an optional sign and at least one digit; on a value
    that does not fit an [int] it returns the nearest bound together with
    the error, on a syntax error 0 together with the error. *)
Definition Atoi (s : string) : Z * option error :=
  let '(neg, body) :=
    match s with
    | String "-" rest => (true, rest)
    | String "+" rest => (false, rest)
    | _ => (false, s)
    end in
  match body with
  | EmptyString => (0, Some (ErrAtoi s))
  | _ =>
      match readDigits 0 body with
      | None => (0, Some (ErrAtoi s))
      | Some n =>
          let z := if neg then - n else n in
          if z <? minInt then (minInt, Some (ErrAtoi s))
          else if maxInt <? z then (maxInt, Some (ErrAtoi s))
          else (z, None)
      end
  end.

(** [regexp.MustCompile(`/[0-9]+`).FindAllString(url, -1)]: the leftmost,
    longest, non-overlapping matches, found by one pass over the bytes.
    [Slash]: the previous byte is a slash that starts no match yet;
    [Run ds]: a match is open and has the digits [ds]. *)
Inductive scan :=
| Idle
| Slash
| Run (ds : string).

Definition afterOther (c : ascii) : scan := if isSlash c then Slash else Idle.

Fixpoint findAll (st : scan) (s : string) : list string :=
  match s with
  | EmptyString =>
      match st with
      | Run ds => [String "/" ds]
      | _ => []
      end
  | String c rest =>
      match st with
      | Run ds =>
          if isDigit c then findAll (Run (ds +:+ String c EmptyString)) rest
          else String "/" ds :: findAll (afterOther c) rest
      | Slash =>
          if isDigit c then findAll (Run (String c EmptyString)) rest
          else findAll (afterOther c) rest
      | Idle => findAll (afterOther c) rest
      end
  end.

Definition FindAllString (s : string) : list string := findAll Idle s.

(** [s[1:]] of a string that is not empty. *)
Definition tail1 (s : string) : string :=
  match s with
  | EmptyString => EmptyString
  | String _ rest => rest
  end.

(** ** JSON values and the getters of fastjson

    A number carries the integer fastjson reads from it ([GetInt] and
    [GetInt64] give 0 for a number that is not an integer in range). A
    pointer to a [fastjson.Value] may be nil: [option json]. *)
#[warnings="-register-all"]
Inductive json :=
| JNull
| JBool (b : bool)
| JNum (n : Z)
| JStr (s : string)
| JArr (items : list json)
| JObj (kvs : list (string * json)).

(** [Object.Get]: the first pair with that key. *)
Definition objGet (kvs : list (string * json)) (key : string) : option json :=
  snd <$> List.find (fun kv => String.eqb (fst kv) key) kvs.

Definition getKey (v : json) (key : string) : option json :=
  match v with
  | JObj kvs => objGet kvs key
  | JArr items =>
      match Atoi key with
      | (n, None) => if n <? 0 then None else items !! Z.to_nat n
      | (_, Some _) => None
      end
  | _ => None
  end.

(** [v.Get(keys...)]. *)
Fixpoint Get (v : option json) (keys : list string) : option json :=
  match v with
  | None => None
  | Some j =>
      match keys with
      | [] => Some j
      | key :: keys' => Get (getKey j key) keys'
      end
  end.

Definition Exists (v : option json) (keys : list string) : bool :=
  match Get v keys with
  | Some _ => true
  | None => false
  end.

Definition GetInt (v : option json) (keys : list string) : Z :=
  match Get v keys with
  | Some (JNum n) => n
  | _ => 0
  end.

Definition GetInt64 := GetInt.

(** [string(v.GetStringBytes(keys...))]. *)
Definition GetStringBytes (v : option json) (keys : list string) : string :=
  match Get v keys with
  | Some (JStr s) => s
  | _ => EmptyString
  end.

Definition GetArray (v : option json) (keys : list string) : list json :=
  match Get v keys with
  | Some (JArr items) => items
  | _ => []
  end.

(** ** The world: heap, pool and trace *)

Inductive task :=
| CutTask (u : Z) (id : string)            (* go func(uid int, liveID string) *)
| SummaryTask (l : loc).                   (* go func(l), l a pointer to a live *)

Inductive event :=
| EvLog (m : logmsg)
| EvSleep (seconds : Z)
| EvListRequest (count : Z)                (* GET .../channel/list?count=%d&pcursor=0 *)
| EvCutRequest (u : Z) (id : string)       (* GET .../getLiveCutInfo?authorId=%d&liveId=%s *)
| EvGetSummary (id : string)               (* ac.GetSummary *)
| EvGetPlayback (id : string)              (* ac.GetPlayback *)
| EvInsert (v : live)                      (* insert(ctx, l), with what l points to *)
| EvUpdateLiveCutNum (id : string) (num : Z)
| EvUpdateLiveDuration (id : string) (d : Z)
| EvGo (t : task)
| EvCrash.                                 (* a panic nobody recovers *)

Record world := mkWorld {
  heap : gmap loc live;
  pool : list loc;                         (* livePool *)
  next : loc;                              (* the next location new(live) gives *)
  trace : list event
}.

Definition emit (e : event) (w : world) : world :=
  mkWorld (heap w) (pool w) (next w) (trace w ++ [e]).

#[global] Instance world_runtime : Runtime world := {
  logPrintf m w := emit (EvLog m) w;
  timeSleep d w := emit (EvSleep d) w
}.

(** A closure of the program assigns to variables of the function around
    it; the state [runThrice] runs it in is those variables and the world. *)
#[global] Instance captured_runtime {A : Type} : Runtime (A * world) := {
  logPrintf m s := (s.1, logPrintf m s.2);
  timeSleep d s := (s.1, timeSleep d s.2)
}.

(** [livePool.Get()]: an object of the pool, as it was put there, or
    [new(live)] when the pool has none. Which object of the pool it is, is
    left open by [sync.Pool]; here it is the last one put. *)
Definition poolGet (w : world) : loc * world :=
  match pool w with
  | l :: rest => (l, mkWorld (heap w) rest (next w) (trace w))
  | [] => (next w,
           mkWorld (<[next w := zeroLive]> (heap w)) [] (Datatypes.S (next w)) (trace w))
  end.

(** [livePool.Put(l)]. *)
Definition poolPut (l : loc) (w : world) : world :=
  mkWorld (heap w) (l :: pool w) (next w) (trace w).

(** [l.field = x]: one field of the object at [l] changes. *)
Definition store (l : loc) (f : live -> live) (w : world) : world :=
  mkWorld (<[l := f (heap w !!! l)]> (heap w)) (pool w) (next w) (trace w).

Definition set_liveID (x : string) (v : live) : live :=
  mkLive x (uid v) (name v) (streamName v) (startTime v) (title v)
         (duration v) (playbackURL v) (backupURL v) (liveCutNum v).
Definition set_uid (x : Z) (v : live) : live :=
  mkLive (liveID v) x (name v) (streamName v) (startTime v) (title v)
         (duration v) (playbackURL v) (backupURL v) (liveCutNum v).
Definition set_name (x : string) (v : live) : live :=
  mkLive (liveID v) (uid v) x (streamName v) (startTime v) (title v)
         (duration v) (playbackURL v) (backupURL v) (liveCutNum v).
Definition set_streamName (x : string) (v : live) : live :=
  mkLive (liveID v) (uid v) (name v) x (startTime v) (title v)
         (duration v) (playbackURL v) (backupURL v) (liveCutNum v).
Definition set_startTime (x : Z) (v : live) : live :=
  mkLive (liveID v) (uid v) (name v) (streamName v) x (title v)
         (duration v) (playbackURL v) (backupURL v) (liveCutNum v).
Definition set_title (x : string) (v : live) : live :=
  mkLive (liveID v) (uid v) (name v) (streamName v) (startTime v) x
         (duration v) (playbackURL v) (backupURL v) (liveCutNum v).
Definition set_duration (x : Z) (v : live) : live :=
  mkLive (liveID v) (uid v) (name v) (streamName v) (startTime v) (title v)
         x (playbackURL v) (backupURL v) (liveCutNum v).
Definition set_playbackURL (x : string) (v : live) : live :=
  mkLive (liveID v) (uid v) (name v) (streamName v) (startTime v) (title v)
         (duration v) x (backupURL v) (liveCutNum v).
Definition set_backupURL (x : string) (v : live) : live :=
  mkLive (liveID v) (uid v) (name v) (streamName v) (startTime v) (title v)
         (duration v) (playbackURL v) x (liveCutNum v).
Definition set_liveCutNum (x : Z) (v : live) : live :=
  mkLive (liveID v) (uid v) (name v) (streamName v) (startTime v) (title v)
         (duration v) (playbackURL v) (backupURL v) x.

(** ** The upstream

    What one exchange with the platform gives, as the three library calls
    of the fetchers see it: [client.Do], [resp.BodyGunzip] and
    [p.ParseBytes]. *)
Inductive response :=
| DoFailed (msg : string)
| GunzipFailed (msg : string)
| ParseFailed (body msg : string)
| Parsed (body : string) (v : json).

Definition isRequest (e : event) : bool :=
  match e with
  | EvListRequest _ | EvCutRequest _ _ | EvGetSummary _ | EvGetPlayback _ => true
  | _ => false
  end.

(** How many requests the trace has: the moment a request is made at. *)
Definition tick (w : world) : nat := length (List.filter isRequest (trace w)).

(** The platform and the acfundanmu library. An answer may depend on the
    moment of the request and on its arguments. [Distinguish] is
    [Playback.Distinguish]: the pair (aliURL, txURL). *)
Record upstream := mkUpstream {
  listEndpoint : nat -> Z -> response;
  cutEndpoint : nat -> Z -> string -> response;
  GetSummary : nat -> string -> summary + error;
  GetPlayback : nat -> string -> playback + error;
  Distinguish : playback -> string * string
}.

(** ** [fetchLiveList] *)

(** The check both fetchers make of a parsed answer:
    [!v.Exists("result") || v.GetInt("result") != 0]. *)
Definition resultNotZero (v : option json) : bool :=
  negb (Exists v ["result"]) || negb (GetInt v ["result"] =? 0).

(** How one round of the loop of [fetchLiveList] ends. *)
Inductive step :=
| Break (v : option json)                  (* pcursor is "no_more" *)
| Next (v : option json)                   (* on to the next count *)
| Raise (e : error).                       (* panic *)

(** The body of the loop after the request: [r] is the answer to the
    request for [count] sessions. *)
Definition listRound (count : Z) (r : response) : step :=
  match r with
  | DoFailed msg => Raise (ErrTransport msg)
  | GunzipFailed msg => Raise (ErrGunzip msg)
  | ParseFailed _ msg => Raise (ErrParse msg)
  | Parsed body v0 =>
      let v := Get (Some v0) ["channelListData"] in
      if resultNotZero v then Raise (ErrListFailed body)
      else if String.eqb (GetStringBytes v ["pcursor"]) "no_more" then Break v
      else if count =? 10 ^ 8 then Raise ErrListCeiling
      else Next v
  end.

(** The loop [for count := 10000; count < 1e9; count *= 10]. [v] is the
    variable [v] of [fetchLiveList]. A round costs one unit of [fuel];
    [None] is a loop that has not ended when the fuel is spent. *)
Fixpoint escalate (fuel : nat) (up : upstream) (count : Z) (v : option json)
    (w : world) : option (exec (option json) * world) :=
  if count <? 10 ^ 9 then
    match fuel with
    | O => None
    | Datatypes.S fuel' =>
        let r := listEndpoint up (tick w) count in
        let w1 := emit (EvListRequest count) w in
        match listRound count r with
        | Raise e => Some (Panic e, w1)
        | Break v => Some (Ret v, w1)
        | Next v => escalate fuel' up (wrap64 (count * 10)) v w1
        end
    end
  else Some (Ret v, w).

(** One round of [for _, liveRoom := range liveList]. *)
Definition addRoom (acc : gmap string loc * world) (liveRoom : json)
    : gmap string loc * world :=
  let '(list, w) := acc in
  let room := Some liveRoom in
  let '(l, w) := poolGet w in
  let w := store l (set_liveID (GetStringBytes room ["liveId"])) w in
  let w := store l (set_uid (GetInt room ["authorId"])) w in
  let w := store l (set_name (GetStringBytes room ["user"; "name"])) w in
  let w := store l (set_streamName (GetStringBytes room ["streamName"])) w in
  let w := store l (set_startTime (GetInt64 room ["createTime"])) w in
  let w := store l (set_title (GetStringBytes room ["title"])) w in
  let w := store l (set_duration 0) w in
  let w := store l (set_playbackURL "") w in
  let w := store l (set_backupURL "") w in
  let w := store l (set_liveCutNum 0) w in
  (<[liveID (heap w !!! l) := l]> list, w).

(** The body of [fetchLiveList], before its deferred [recover]. *)
Definition fetchLiveList_body (fuel : nat) (up : upstream) (w : world)
    : option (exec (gmap string loc) * world) :=
  match escalate fuel up 10000 None w with
  | None => None
  | Some (Panic e, w1) => Some (Panic e, w1)
  | Some (Ret v, w1) =>
      let liveList := GetArray v ["liveList"] in
      let '(list, w2) := fold_left addRoom liveList (∅, w1) in
      Some (Ret list, w2)
  end.

(** [fetchLiveList] with its deferred function: a panic becomes the result
    [e], and [list] stays nil (the empty map here: a nil map reads as an
    empty one). *)
Definition fetchLiveList_fuel (fuel : nat) (up : upstream) (w : world)
    : option ((gmap string loc * option error) * world) :=
  match fetchLiveList_body fuel up w with
  | None => None
  | Some (Ret list, w1) => Some ((list, None), w1)
  | Some (Panic v, w1) => Some ((∅, Some (ErrFetchLiveList v)), w1)
  end.

(** Five rounds are all the loop has ([fetchLiveList_fuel_enough] below);
    the last branch is never taken. *)
Definition fetchLiveList (up : upstream) (w : world)
    : (gmap string loc * option error) * world :=
  match fetchLiveList_fuel 5 up w with
  | Some r => r
  | None => ((∅, None), w)
  end.

(** ** [fetchLiveCut] *)

(** The frame of [fetchLiveCut] when its body ends: the named result [num]
    and how the body ended. *)
Record cutFrame := mkCutFrame {
  num : Z;
  outcome : exec (option error)
}.

(** The body after the request: [r] is the answer. *)
Definition fetchLiveCut_body (u : Z) (id : string) (r : response) : cutFrame :=
  match r with
  | DoFailed msg => mkCutFrame 0 (Panic (ErrTransport msg))
  | GunzipFailed msg => mkCutFrame 0 (Panic (ErrGunzip msg))
  | ParseFailed _ msg => mkCutFrame 0 (Panic (ErrParse msg))
  | Parsed body v0 =>
      let v := Some v0 in
      if resultNotZero v then mkCutFrame 0 (Panic (ErrCutInfoFailed u id body))
      else
        let status := GetInt v ["liveCutStatus"] in
        if negb (status =? 1) then mkCutFrame 0 (Ret None)
        else
          let url := GetStringBytes v ["liveCutUrl"] in
          let nums := FindAllString url in
          if negb (length nums =? 1)%nat
          then mkCutFrame 0 (Panic (ErrCutNumFailed u id body))
          else
            let '(n, err) := Atoi (tail1 (nth 0 nums EmptyString)) in
            mkCutFrame n (checkErr err ;; Ret None)
  end.

(** [fetchLiveCut] with its deferred function, which on a panic sets
    [num = 0] and the error. *)
Definition fetchLiveCut (up : upstream) (u : Z) (id : string) (w : world)
    : (Z * option error) * world :=
  let r := cutEndpoint up (tick w) u id in
  let w1 := emit (EvCutRequest u id) w in
  let fr := fetchLiveCut_body u id r in
  match outcome fr with
  | Ret e => ((num fr, e), w1)
  | Panic v => ((0, Some (ErrFetchLiveCut v)), w1)
  end.

(** ** [getPlayback] *)

Definition nonEmpty (s : string) : bool := negb (String.eqb s "").

(** The closure [getPlayback] hands to [runThrice]; it assigns to the
    variable [playback]. *)
Definition getPlaybackOp (up : upstream) (id : string)
    (s : option playback * world) : option error * (option playback * world) :=
  let w := s.2 in
  let w1 := emit (EvGetPlayback id) w in
  match GetPlayback up (tick w) id with
  | inl pb => (None, (Some pb, w1))
  | inr e => (Some e, (None, w1))
  end.

(** [func getPlayback]. The object the lookup returns is changed in place
    and returned; nothing else points to it. *)
Definition getPlayback (up : upstream) (id : string) (w : world)
    : (option playback * option error) * world :=
  let '(err, (pb, w1)) := runThrice (getPlaybackOp up id) (None, w) in
  match err with
  | Some e => ((None, Some (ErrPlayback id e)), w1)
  | None =>
      match pb with
      | None => ((None, None), emit EvCrash w1)
      | Some pb =>
          if nonEmpty (URL pb) then
            let '(aliURL, txURL) := Distinguish up pb in
            if nonEmpty aliURL && nonEmpty txURL
            then ((Some (mkPlayback aliURL txURL), None), w1)
            else ((Some pb, None), logPrintf (LogNoProviderURL id) w1)
          else ((Some pb, None), w1)
      end
  end.

(** ** The goroutines of the loop *)

(** The closure the first goroutine hands to [runThrice]; it assigns to
    [num]. *)
Definition fetchCutOp (up : upstream) (u : Z) (id : string)
    (s : Z * world) : option error * (Z * world) :=
  let '((n, e), w1) := fetchLiveCut up u id s.2 in (e, (n, w1)).

(** [go func(uid int, liveID string)], started for a new session. *)
Definition cutTask (up : upstream) (u : Z) (id : string) (w : world) : world :=
  let '(err, (n, w1)) := runThrice (fetchCutOp up u id) (0, w) in
  match err with
  | Some _ => logPrintf (LogCutGivenUp u id) w1
  | None => emit (EvUpdateLiveCutNum id n) w1
  end.

(** The closure the second goroutine hands to [runThrice]; it assigns to
    [summary]. *)
Definition getSummaryOp (up : upstream) (l : loc)
    (s : option summary * world) : option error * (option summary * world) :=
  let w := s.2 in
  let id := liveID (heap w !!! l) in
  let w1 := emit (EvGetSummary id) w in
  match GetSummary up (tick w) id with
  | inl sm => (None, (Some sm, w1))
  | inr e => (Some e, (None, w1))
  end.

(** [go func(l)], started for a session that ended. The deferred
    [livePool.Put(l)] runs on every way out. A nil [summary] without an
    error would be a nil dereference: [EvCrash]. *)
Definition summaryTask (up : upstream) (l : loc) (w : world) : world :=
  let w0 := timeSleep 10 w in
  let '(err, (sm, w1)) := runThrice (getSummaryOp up l) (None, w0) in
  let v := heap w1 !!! l in
  let w2 :=
    match err with
    | Some _ => logPrintf (LogSummaryGivenUp (name v) (uid v) (liveID v)) w1
    | None =>
        match sm with
        | None => emit EvCrash w1
        | Some sm =>
            if Duration sm =? 0
            then logPrintf (LogZeroDuration (name v) (uid v) (liveID v)) w1
            else emit (EvUpdateLiveDuration (liveID v) (Duration sm))
                   (emit (EvInsert v) w1)
        end
    end in
  poolPut l w2.

(** ** The loop of [main] *)

(** [for _, l := range m]: the values of the map, in an order the
    language leaves open (here the order of [map_to_list]). *)
Definition range (m : gmap string loc) : list loc := (map_to_list m).*2.

(** The test of the first loop, [_, ok := oldList[l.liveID]; !ok], and of
    the second, [_, ok := newList[l.liveID]; !ok]. *)
Definition absent (h : gmap loc live) (m : gmap string loc) (l : loc) : bool :=
  match m !! liveID (h !!! l) with
  | Some _ => false
  | None => true
  end.

(** One round of [for _, l := range newList]. *)
Definition startStep (oldList : gmap string loc) (w : world) (l : loc) : world :=
  let v := heap w !!! l in
  if absent (heap w) oldList l then
    if negb (uid v =? watchedUID) then w
    else
      let w := logPrintf (LogLive v) w in
      let w := emit (EvInsert v) w in
      emit (EvGo (CutTask (uid v) (liveID v))) w
  else w.

(** One round of [for _, l := range oldList]. *)
Definition endStep (newList : gmap string loc) (w : world) (l : loc) : world :=
  let v := heap w !!! l in
  if absent (heap w) newList l then
    if negb (uid v =? watchedUID) then w
    else emit (EvGo (SummaryTask l)) w
  else poolPut l w.

(** The two loops over the snapshots. *)
Definition diffLoops (oldList newList : gmap string loc) (w : world) : world :=
  let w := fold_left (startStep oldList) (range newList) w in
  fold_left (endStep newList) (range oldList) w.

(** The closure [main] hands to [runThrice]; it assigns to [newList]. *)
Definition fetchListOp (up : upstream)
    (s : gmap string loc * world) : option error * (gmap string loc * world) :=
  let '((list, e), w1) := fetchLiveList up s.2 in (e, (list, w1)).

(** The [default] case of the [select]: one round of the polling loop.
    [None] is the [return] of [main]; otherwise the map is the next
    [oldList]. *)
Definition pollOnce (up : upstream) (oldList : gmap string loc) (w : world)
    : option (gmap string loc) * world :=
  let '(err, (newList, w1)) := runThrice (fetchListOp up) (∅, w) in
  match err with
  | Some _ => (None, logPrintf LogListGivenUp w1)
  | None =>
      let w2 := diffLoops oldList newList w1 in
      (Some newList, timeSleep 20 w2)
  end.

Inductive loopState :=
| Cancelled                                (* break Loop *)
| Returned                                 (* return: the process ends *)
| Polling (oldList : gmap string loc).     (* the loop goes on *)

(** [rounds] rounds of the [for] loop. [done i] tells whether
    [childCtx.Done()] is ready when round [i] starts. *)
Fixpoint mainLoop (rounds : nat) (done : nat -> bool) (i : nat) (up : upstream)
    (oldList : gmap string loc) (w : world) : loopState * world :=
  match rounds with
  | O => (Polling oldList, w)
  | Datatypes.S rounds' =>
      if done i then (Cancelled, w)
      else
        match pollOnce up oldList w with
        | (None, w1) => (Returned, w1)
        | (Some newList, w1) => mainLoop rounds' done (Datatypes.S i) up newList w1
        end
  end.

(** ** What the loop does with a pair of snapshots *)

(** The sessions the first loop takes as new, the ones the second loop
    takes as ended, and the ones it finds in both maps. *)
Definition started (h : gmap loc live) (oldList newList : gmap string loc)
    : list loc :=
  List.filter (absent h oldList) (range newList).

Definition ended (h : gmap loc live) (oldList newList : gmap string loc)
    : list loc :=
  List.filter (absent h newList) (range oldList).

Definition kept (h : gmap loc live) (oldList newList : gmap string loc)
    : list loc :=
  List.filter (fun l => negb (absent h newList l)) (range oldList).

(** The session ids of a list of sessions. *)
Definition ids (h : gmap loc live) (ls : list loc) : gset string :=
  list_to_set ((fun l => liveID (h !!! l)) <$> ls).

(** Every key of a snapshot is the [liveID] of the session it maps to, as
    [list[l.liveID] = l] leaves it. *)
Definition keyed (h : gmap loc live) (m : gmap string loc) : Prop :=
  map_Forall (fun k l => liveID (h !!! l) = k) m.

(** ** The persistence layer, as far as the loop and its goroutines go

    [insert], [updateLiveCutNum] and [updateLiveDuration] are calls into
    the store; what they do to it is left open. *)
Section Persistence.
Variable DB : Type.
Variable insert : live -> DB -> DB.
Variable updateLiveCutNum : string -> Z -> DB -> DB.
Variable updateLiveDuration : string -> Z -> DB -> DB.

Definition persist (db : DB) (e : event) : DB :=
  match e with
  | EvInsert v => insert v db
  | EvUpdateLiveCutNum id n => updateLiveCutNum id n db
  | EvUpdateLiveDuration id d => updateLiveDuration id d db
  | _ => db
  end.

(** The store after the events [tr]. *)
Definition replay (tr : list event) (db : DB) : DB := fold_left persist tr db.
End Persistence.

(** The owner an event of the loop is about. *)
Definition eventOwner (h : gmap loc live) (e : event) : option Z :=
  match e with
  | EvInsert v => Some (uid v)
  | EvGo (CutTask u _) => Some u
  | EvGo (SummaryTask l) => Some (uid (h !!! l))
  | _ => None
  end.

Definition elapsed (tr : list event) : Z :=
  fold_right (fun e acc => match e with EvSleep d => d + acc | _ => acc end) 0 tr.

(** * The console

    [handleQuery], [prepare_table], [duration], [saveLiveId] and the two
    versions of [handleInput]: the one of the program that polls (acmon)
    and the one of the program that only reads commands (acfunlivedb). *)

(** ** [duration]: a length in milliseconds as a time of day *)

Module Format.

(** [fmt.Sprintf("%d", n)]. *)
Definition showInt (n : Z) : string := NilZero.string_of_int (Z.to_int n).

(** [fmt.Sprintf("%02d", n)]: two bytes at least, zeros on the left. *)
Definition pad2 (n : Z) : string :=
  if (0 <=? n) && (n <? 10) then String "0" (showInt n) else showInt n.

(** [t.Hour()], [t.Minute()] and [t.Second()] of
    [t := time.Unix(sec, 0).UTC()]. *)
Definition Hour (sec : Z) : Z := (sec mod 86400) / 3600.
Definition Minute (sec : Z) : Z := (sec mod 3600) / 60.
Definition Second (sec : Z) : Z := sec mod 60.

(** [func duration(dtime int64) string]; [dtime/1e3] rounds towards zero. *)
Definition duration (dtime : Z) : string :=
  let sec := Z.quot dtime 1000 in
  pad2 (Hour sec) +:+ ":" +:+ pad2 (Minute sec) +:+ ":" +:+ pad2 (Second sec).

End Format.

(** The second of the day that [duration] shows. *)
Definition secondOfDay (dtime : Z) : Z := Z.quot dtime 1000 mod 86400.

(** Two digits, read back. *)
Definition twoDigits (a b : ascii) : option Z :=
  if isDigit a && isDigit b then Some (10 * digitVal a + digitVal b) else None.

(** "HH:MM:SS", read back as a second of the day. *)
Definition readClock (s : string) : option Z :=
  match s with
  | String h1 (String h2 (String c1 (String m1 (String m2
      (String c2 (String s1 (String s2 EmptyString))))))) =>
      if (Ascii.eqb c1 ":" && Ascii.eqb c2 ":")%bool then
        match twoDigits h1 h2, twoDigits m1 m2, twoDigits s1 s2 with
        | Some h, Some m, Some sec =>
            if (h <? 24) && (m <? 60) && (sec <? 60)
            then Some (3600 * h + 60 * m + sec) else None
        | _, _, _ => None
        end
      else None
  | _ => None
  end.

(** [pad2] gives the two digits of [k]. *)
Definition pad2_ok (k : nat) : bool :=
  match Format.pad2 (Z.of_nat k) with
  | String a (String b EmptyString) =>
      isDigit a && isDigit b && (10 * digitVal a + digitVal b =? Z.of_nat k)
  | _ => false
  end.

(** ** What the console prints and does *)

(** The lines of the log and of the standard output that the console
    writes, and its calls, in program order. The events of [getPlayback]
    and of [fetchLiveList] go to the trace of the world. [OutLive] is the
    line of [fmt.Printf("开播时间：%s 主播uid：%d ...")]: it shows eight of
    the ten fields, the start time through [startTime] (kept here as the
    number of milliseconds) and the duration through [duration]. *)
Inductive output :=
| OutHelp                                  (* log.Println(helpMsg) *)
| OutQuit                                  (* quit <- struct{}{} *)
| OutPlaybackWait                          (* "查询录播链接，请等待" *)
| OutError (e : error)                     (* log.Println(err) *)
| OutPlayback (id url backup : string)     (* the result of getplayback *)
| OutFetch                                 (* "查询所有list:" *)
| OutFetchJ                                (* "查询js:" *)
| OutLive (stime u : Z) (n t id sn d : string) (cut : Z)
| OutStruct (v : live)                     (* log.Printf("%+v", *v) *)
| OutNoRecord (u : Z)                      (* "没有uid为 %d 的主播的记录" *)
| OutNotFind (u : Z)                       (* log.Println("Not find", uid) *)
| OutSaveLiveId (n : string)               (* log.Println("saveLiveId:", v.name) *)
| OutWriteFailed (e : error)               (* fmt.Println("写入失败：", err) *)
| OutSaveSuccess                           (* log.Println("save success!") *)
| OutRLock                                 (* dbMutex.RLock() *)
| OutRUnlock                               (* dbMutex.RUnlock() *)
| OutQuery (u count : Z)                   (* selectUIDStmt.QueryContext *)
| OutRowsClose                             (* rows.Close() *)
| OutOpen (file : string)                  (* os.OpenFile(file, O_CREATE|O_WRONLY|O_APPEND) *)
| OutAppend (file : string) (v : live).    (* file.WriteString(fmt.Sprintf("%+v", *v)) *)

Record console := mkConsole {
  cworld : world;
  printed : list output
}.

Definition print (o : output) (c : console) : console :=
  mkConsole (cworld c) (printed c ++ [o]).

Definition inWorld (w : world) (c : console) : console := mkConsole w (printed c).

(** How a function of the console goroutine ends when it does not return:
    nothing recovers there, so the process ends. *)
Inductive stop :=
| StopPanic (v : error)                    (* checkErr: panic(err) *)
| StopIndex (i n : nat).                   (* index out of range [i] with length n *)

(** How one round of the loop of [handleInput] ends. *)
Inductive flow :=
| Continue
| BreakLoop
| Stop (s : stop).

(** The line of a session on the standard output. *)
Definition printLive (v : live) : output :=
  OutLive (startTime v) (uid v) (name v) (title v) (liveID v) (streamName v)
          (Format.duration (duration v)) (liveCutNum v).

(** ** [handleQuery] *)

(** What a query gives: the rows, each with what [rows.Scan] makes of it,
    and [rows.Err()]. *)
Record rows := mkRows {
  scans : list (live + error);
  rowsErr : option error
}.

(** The store as the console reads it; an answer may depend on what the
    console has done so far. *)
Record database := mkDatabase {
  selectUIDStmt : list output -> Z -> Z -> rows + error
}.

(** The loop [for rows.Next()]; [hasUID] is the variable of that name. *)
Fixpoint scanRows (rs : list (live + error)) (hasUID : bool) (c : console)
    : exec bool * console :=
  match rs with
  | [] => (Ret hasUID, c)
  | inl v :: rest => scanRows rest true (print (printLive v) c)
  | inr e :: _ => (Panic e, c)
  end.

(** [func handleQuery]. Its two deferred calls run on every way out, the
    last one deferred first. *)
Definition handleQuery (db : database) (u count : Z) (c : console)
    : exec unit * console :=
  let c := print OutRLock c in
  let q := selectUIDStmt db (printed c) u count in
  let c := print (OutQuery u count) c in
  match q with
  | inr e => (Panic e, print OutRUnlock c)
  | inl rs =>
      let '(r, c) := scanRows (scans rs) false c in
      let '(r, c) :=
        match r with
        | Panic e => (Panic e, c)
        | Ret hasUID =>
            match rowsErr rs with
            | Some e => (Panic e, c)
            | None => (Ret tt, if hasUID then c else print (OutNoRecord u) c)
            end
        end in
      (r, print OutRUnlock (print OutRowsClose c))
  end.

(** ** [prepare_table] *)

(** The statements of [prepare_table], by the names of their constants. *)
Inductive ddl :=
| checkTable
| createTable
| checkLiveCutNum
| insertLiveCutNum
| createLiveIDIndex
| createUIDIndex.

(** The store as [prepare_table] sees it, after the statements [ran]:
    [db.QueryRowContext(ctx, q).Scan(&n)] and [db.ExecContext(ctx, q)]. *)
Record schema := mkSchema {
  QueryRowScan : list ddl -> ddl -> Z + error;
  ExecContext : list ddl -> ddl -> option error
}.

(** One [db.ExecContext] and its [checkErr]. *)
Definition execDDL (db : schema) (q : ddl) (ran : list ddl) : exec unit * list ddl :=
  (checkErr (ExecContext db ran q), ran ++ [q]).

(** One [db.QueryRowContext], its [Scan] and its [checkErr]. *)
Definition queryDDL (db : schema) (q : ddl) (ran : list ddl) : exec Z * list ddl :=
  (match QueryRowScan db ran q with
   | inl n => Ret n
   | inr e => Panic e
   end, ran ++ [q]).

(** The two [CREATE INDEX] at the end of [prepare_table]. *)
Definition createIndexes (db : schema) (ran : list ddl) : exec unit * list ddl :=
  match execDDL db createLiveIDIndex ran with
  | (Panic e, ran) => (Panic e, ran)
  | (Ret _, ran) => execDDL db createUIDIndex ran
  end.

(** [func prepare_table]. *)
Definition prepare_table (db : schema) (ran : list ddl) : exec unit * list ddl :=
  match queryDDL db checkTable ran with
  | (Panic e, ran) => (Panic e, ran)
  | (Ret n, ran) =>
      if n =? 0 then
        match execDDL db createTable ran with
        | (Panic e, ran) => (Panic e, ran)
        | (Ret _, ran) => createIndexes db ran
        end
      else
        match queryDDL db checkLiveCutNum ran with
        | (Panic e, ran) => (Panic e, ran)
        | (Ret n, ran) =>
            if n =? 0 then
              match execDDL db insertLiveCutNum ran with
              | (Panic e, ran) => (Panic e, ran)
              | (Ret _, ran) => createIndexes db ran
              end
            else createIndexes db ran
        end
  end.

(** ** [saveLiveId] *)

(** The file system as [saveLiveId] sees it; an answer may depend on what
    the console has done so far. *)
Record disk := mkDisk {
  OpenFile : list output -> string -> option error;
  WriteString : list output -> string -> live -> option error
}.

(** [os.ErrInvalid], the error of a method of a nil [*os.File]. *)
Definition ErrInvalid : error := ErrCollaborator "invalid argument".

(** [func saveLiveId(v *live)]. When the file cannot be opened the error
    is logged and the function goes on with a nil file. *)
Definition saveLiveId (d : disk) (v : live) (c : console) : console :=
  let c := print (OutSaveLiveId (name v)) c in
  let fileName := name v +:+ ".txt" in
  let opened := OpenFile d (printed c) fileName in
  let c := print (OutOpen fileName) c in
  let c := match opened with
           | Some e => print (OutError e) c
           | None => c
           end in
  let err := match opened with
             | Some _ => Some ErrInvalid
             | None => WriteString d (printed c) fileName v
             end in
  let c := match err with
           | Some e => print (OutWriteFailed e) c
           | None => print (OutAppend fileName v) c
           end in
  print OutSaveSuccess c.

(** ** The commands both programs have *)

(** One round of [for _, liveID := range cmd[1:]]. *)
Definition playbackStep (up : upstream) (c : console) (id : string) : console :=
  let '((pb, err), w1) := getPlayback up id (cworld c) in
  let c := inWorld w1 c in
  match err with
  | Some e => print (OutError e) c
  | None =>
      match pb with
      | Some pb => print (OutPlayback id (URL pb) (BackupURL pb)) c
      | None => c
      end
  end.

(** [case "getplayback"]. *)
Definition getplaybackCmd (up : upstream) (ids : list string) (c : console) : console :=
  fold_left (playbackStep up) ids (print OutPlaybackWait c).

(** The sessions of the owner [u] in a list of sessions. *)
Definition ownedBy (h : gmap loc live) (u : Z) (ls : list loc) : list loc :=
  List.filter (fun l => uid (h !!! l) =? u) ls.

(** ** [handleInput] of the program that polls *)

Module Acmon.

(** [case "fetch"]: every session of the list. *)
Definition fetchCmd (up : upstream) (c : console) : console :=
  let c := print OutFetch c in
  let '((newList, err), w1) := fetchLiveList up (cworld c) in
  let c := inWorld w1 c in
  match err with
  | Some e => print (OutError e) c
  | None => fold_left (fun c l => print (printLive (heap w1 !!! l)) c) (range newList) c
  end.

(** [case "fetch_j"]: the sessions of the owner 646973. *)
Definition fetchJCmd (up : upstream) (c : console) : console :=
  let c := print OutFetchJ c in
  let '((newList, err), w1) := fetchLiveList up (cworld c) in
  let c := inWorld w1 c in
  match err with
  | Some e => print (OutError e) c
  | None =>
      fold_left (fun c l =>
                   if uid (heap w1 !!! l) =? watchedUID
                   then print (printLive (heap w1 !!! l)) c else c)
                (range newList) c
  end.

(** The body of [for scanner.Scan()]; [cmd] is
    [strings.Fields(scanner.Text())]. *)
Definition handleLine (up : upstream) (db : database) (cmd : list string)
    (c : console) : flow * console :=
  match cmd with
  | [] => (Continue, print OutHelp c)
  | c0 :: args =>
      if (length cmd =? 1)%nat && String.eqb c0 "quit" then (BreakLoop, print OutQuit c)
      else if String.eqb c0 "list_j" then
        match handleQuery db watchedUID (-1) c with
        | (Panic e, c) => (Stop (StopPanic e), c)
        | (Ret _, c) => (Continue, c)
        end
      else if String.eqb c0 "getplayback" then (Continue, getplaybackCmd up args c)
      else if String.eqb c0 "fetch" then (Continue, fetchCmd up c)
      else if String.eqb c0 "fetch_j" then (Continue, fetchJCmd up c)
      else (Continue, print OutHelp c)
  end.

(** The loop over the lines the scanner gives. *)
Fixpoint handleLines (up : upstream) (db : database) (lines : list (list string))
    (c : console) : flow * console :=
  match lines with
  | [] => (Continue, c)
  | cmd :: rest =>
      match handleLine up db cmd c with
      | (Continue, c) => handleLines up db rest c
      | r => r
      end
  end.

(** [func handleInput]. [lines] are the lines of the standard input, by
    their fields; [scanErr] is what [scanner.Err()] gives when the scanner
    has come to the end of them. After a [break] the scanner has met no
    error. *)
Definition handleInput (up : upstream) (db : database) (lines : list (list string))
    (scanErr : option error) (c : console) : option stop * console :=
  match handleLines up db lines (print OutHelp c) with
  | (Continue, c) =>
      (match checkErr scanErr with
       | Panic e => Some (StopPanic e)
       | Ret _ => None
       end, c)
  | (BreakLoop, c) => (None, c)
  | (Stop s, c) => (Some s, c)
  end.

End Acmon.

(** ** [handleInput] of the program that only reads commands *)

Module Acfunlivedb.

(** The loop of [case "fetch"] with an argument that is not "all":
    [strconv.Atoi(cmd[1])] is called in every round. *)
Fixpoint saveFirst (d : disk) (h : gmap loc live) (arg : string) (ls : list loc)
    (c : console) : console :=
  match ls with
  | [] => c
  | l :: rest =>
      let '(u, err) := Atoi arg in
      match err with
      | Some e => saveFirst d h arg rest (print (OutError e) c)
      | None =>
          if uid (h !!! l) =? u then saveLiveId d (h !!! l) c
          else saveFirst d h arg rest c
      end
  end.

(** [case "fetch"]. [cmd[1]] is read after a fetch that succeeded, whether
    the list has a session or not. *)
Definition fetchCmd (up : upstream) (d : disk) (args : list string) (c : console)
    : flow * console :=
  let c := print OutFetch c in
  let '((newList, err), w1) := fetchLiveList up (cworld c) in
  let c := inWorld w1 c in
  match err with
  | Some e => (Continue, print (OutError e) c)
  | None =>
      match args with
      | [] => (Stop (StopIndex 1 1), c)
      | arg :: _ =>
          if String.eqb arg "all"
          then (Continue,
                fold_left (fun c l => print (OutStruct (heap w1 !!! l)) c) (range newList) c)
          else (Continue, saveFirst d (heap w1) arg (range newList) c)
      end
  end.

(** The loop of [case "fetch_j"]; the result is the variable [flag]. *)
Fixpoint saveWatched (d : disk) (h : gmap loc live) (ls : list loc) (c : console)
    : bool * console :=
  match ls with
  | [] => (false, c)
  | l :: rest =>
      if uid (h !!! l) =? watchedUID then (true, saveLiveId d (h !!! l) c)
      else saveWatched d h rest c
  end.

(** [case "fetch_j"]. *)
Definition fetchJCmd (up : upstream) (d : disk) (c : console) : console :=
  let c := print OutFetchJ c in
  let '((newList, err), w1) := fetchLiveList up (cworld c) in
  let c := inWorld w1 c in
  match err with
  | Some e => print (OutError e) c
  | None =>
      let '(flag, c) := saveWatched d (heap w1) (range newList) c in
      if flag then c else print (OutNotFind watchedUID) c
  end.

Definition handleLine (up : upstream) (d : disk) (cmd : list string) (c : console)
    : flow * console :=
  match cmd with
  | [] => (Continue, print OutHelp c)
  | c0 :: args =>
      if (length cmd =? 1)%nat && String.eqb c0 "quit" then (BreakLoop, print OutQuit c)
      else if String.eqb c0 "getplayback" then (Continue, getplaybackCmd up args c)
      else if String.eqb c0 "fetch" then fetchCmd up d args c
      else if String.eqb c0 "fetch_j" then (Continue, fetchJCmd up d c)
      else (Continue, print OutHelp c)
  end.

Fixpoint handleLines (up : upstream) (d : disk) (lines : list (list string))
    (c : console) : flow * console :=
  match lines with
  | [] => (Continue, c)
  | cmd :: rest =>
      match handleLine up d cmd c with
      | (Continue, c) => handleLines up d rest c
      | r => r
      end
  end.

Definition handleInput (up : upstream) (d : disk) (lines : list (list string))
    (scanErr : option error) (c : console) : option stop * console :=
  match handleLines up d lines (print OutHelp c) with
  | (Continue, c) =>
      (match checkErr scanErr with
       | Panic e => Some (StopPanic e)
       | Ret _ => None
       end, c)
  | (BreakLoop, c) => (None, c)
  | (Stop s, c) => (Some s, c)
  end.

End Acfunlivedb.

(** * The vocabulary of the properties *)

(** ** Retries and traces *)

(** The state the next attempt of [runThrice] starts in, after a failure
    with [e]: the error is logged and ten seconds pass. *)
Definition backoff {S : Type} `{Runtime S} (e : error) (s : S) : S :=
  timeSleep 10 (logPrintf (LogError e) s).

(** The events that write to the store or start a goroutine. *)
Definition isEffect (e : event) : bool :=
  match e with
  | EvInsert _ | EvUpdateLiveCutNum _ _ | EvUpdateLiveDuration _ _ | EvGo _ => true
  | _ => false
  end.

(** An event that neither writes to the store nor starts a goroutine. *)
Definition quiet (e : event) : Prop := isEffect e = false.

(** From [w] to [w'] the trace grows, by events that satisfy [P]. *)
Definition grows (P : event -> Prop) (w w' : world) : Prop :=
  ∃ evs, trace w' = trace w ++ evs ∧ Forall P evs.

(** The world after the events [evs], in order. *)
Definition emitAll (evs : list event) (w : world) : world :=
  mkWorld (heap w) (pool w) (next w) (trace w ++ evs).

(** From [w] to [w'] only the trace changes. *)
Definition sameObjects (w w' : world) : Prop :=
  heap w' = heap w ∧ pool w' = pool w ∧ next w' = next w.

(** What a goroutine that gives up leaves in the trace: three requests
    [req], each followed by the log line of its error and ten seconds of
    sleep. *)
Definition threeFailures (req : event) (e1 e2 e3 : error) : list event :=
  [req; EvLog (LogError e1); EvSleep 10;
   req; EvLog (LogError e2); EvSleep 10;
   req; EvLog (LogError e3); EvSleep 10].

(** ** The escalation of the page size *)

(** The page sizes [fetchLiveList] can ask for, in order. *)
Definition pageSizes : list Z := [10000; 100000; 1000000; 10000000; 100000000].

(** The answer to the [j]-th request of a run of [fetchLiveList] that
    starts in [w] (the first one is the 0-th). *)
Definition answer (up : upstream) (w : world) (j : nat) : response :=
  listEndpoint up (j + tick w)%nat (nth j pageSizes 0).

(** The answer tells that the list is complete: it parses, its result is
    0 and its cursor is "no_more". *)
Definition signalsEnd (r : response) : bool :=
  match r with
  | Parsed _ v0 =>
      let v := Get (Some v0) ["channelListData"] in
      negb (resultNotZero v) && String.eqb (GetStringBytes v ["pcursor"]) "no_more"
  | _ => false
  end.

(** The answer is a page that is not the last one: it parses, its result
    is 0 and its cursor is not "no_more". *)
Definition signalsMore (r : response) : bool :=
  match r with
  | Parsed _ v0 =>
      let v := Get (Some v0) ["channelListData"] in
      negb (resultNotZero v)
      && negb (String.eqb (GetStringBytes v ["pcursor"]) "no_more")
  | _ => false
  end.

(** The reasons [fetchLiveList] fails for. *)
Inductive listFailure : response -> error -> Prop :=
| FailTransport msg : listFailure (DoFailed msg) (ErrTransport msg)
| FailGunzip msg : listFailure (GunzipFailed msg) (ErrGunzip msg)
| FailParse body msg : listFailure (ParseFailed body msg) (ErrParse msg)
| FailStatus body v0 :
    resultNotZero (Get (Some v0) ["channelListData"]) = true →
    listFailure (Parsed body v0) (ErrListFailed body)
| FailCeiling body v0 :
    signalsMore (Parsed body v0) = true →
    listFailure (Parsed body v0) ErrListCeiling.

(** The world after the requests for the page sizes [cs], in order. *)
Definition requestAll (cs : list Z) (w : world) : world :=
  fold_left (fun w c => emit (EvListRequest c) w) cs w.

(** What a run of the loop of [fetchLiveList] is: [k] requests, for the
    first [k] page sizes; every answer but the last one is a page that is
    not the last one; the last answer ends the loop, by "no_more" or by a
    failure. *)
Definition escalated (up : upstream) (w : world)
    (res : exec (option json) * world) : Prop :=
  ∃ k : nat, (1 ≤ k ≤ 5)%nat
  ∧ res.2 = requestAll (take k pageSizes) w
  ∧ (∀ j, (j < k - 1)%nat → signalsMore (answer up w j) = true)
  ∧ match res.1 with
    | Ret v' =>
        signalsEnd (answer up w (k - 1)) = true
        ∧ ∃ body v0, answer up w (k - 1) = Parsed body v0
                     ∧ v' = Get (Some v0) ["channelListData"]
    | Panic e =>
        listFailure (answer up w (k - 1)) e
        ∧ signalsEnd (answer up w (k - 1)) = false
        ∧ (e = ErrListCeiling → k = 5%nat)
    end.

(** The same for [fetchLiveList]: it makes [k] requests and no other
    event, the first [k - 1] answers are pages that are not the last one,
    and it returns no error when the last answer tells that the list is
    complete, and the error of the last answer otherwise. *)
Definition listRun (up : upstream) (w : world) (k : nat) : Prop :=
  trace (fetchLiveList up w).2 = trace w ++ (EvListRequest <$> take k pageSizes)
  ∧ (∀ j, (j < k - 1)%nat → signalsMore (answer up w j) = true)
  ∧ match (fetchLiveList up w).1.2 with
    | None => signalsEnd (answer up w (k - 1)) = true
    | Some e =>
        ∃ c, e = ErrFetchLiveList c
             ∧ listFailure (answer up w (k - 1)) c
             ∧ signalsEnd (answer up w (k - 1)) = false
             ∧ (c = ErrListCeiling → k = 5%nat)
    end.

(** ** The cut-number pattern *)

(** Every byte of [s] is a decimal digit. *)
Fixpoint allDigits (s : string) : bool :=
  match s with
  | EmptyString => true
  | String c rest => isDigit c && allDigits rest
  end.

(** The number a string of digits stands for, after [acc]. *)
Fixpoint decimal (acc : Z) (s : string) : Z :=
  match s with
  | EmptyString => acc
  | String c rest => decimal (acc * 10 + digitVal c) rest
  end.

(** A match of the pattern: a slash and then one digit or more. *)
Definition isMatch (m : string) : Prop :=
  ∃ ds, m = String "/" ds ∧ ds ≠ EmptyString ∧ allDigits ds = true.

(** An open match has one digit or more, and digits only. *)
Definition scanOk (st : scan) : Prop :=
  match st with
  | Run ds => ds ≠ EmptyString ∧ allDigits ds = true
  | _ => True
  end.

(** A cut-info answer the status check lets through: it parses and its
    result is 0. *)
Definition cutInfo (r : response) (body : string) (v0 : json) : Prop :=
  r = Parsed body v0 ∧ resultNotZero (Some v0) = false.

(** ** Sessions and the pool *)

(** The session [fetchLiveList] writes for the descriptor [liveRoom]. *)
Definition roomLive (liveRoom : json) : live :=
  let room := Some liveRoom in
  mkLive (GetStringBytes room ["liveId"]) (GetInt room ["authorId"])
         (GetStringBytes room ["user"; "name"]) (GetStringBytes room ["streamName"])
         (GetInt64 room ["createTime"]) (GetStringBytes room ["title"])
         0 "" "" 0.

(** The fields the enrichments fill are at their zero values. *)
Definition unenriched (v : live) : Prop :=
  duration v = 0 ∧ liveCutNum v = 0
  ∧ playbackURL v = EmptyString ∧ backupURL v = EmptyString.

(** The ids of the session descriptors of a list answer. *)
Definition roomIds (rooms : list json) : gset string :=
  list_to_set ((fun room => GetStringBytes (Some room) ["liveId"]) <$> rooms).

(** The pool holds every object once, and only objects that exist. *)
Definition poolOk (w : world) : Prop :=
  NoDup (pool w) ∧ Forall (fun l => (l < next w)%nat) (pool w).

(** The sessions of a map are objects that exist and are not in the pool. *)
Definition inUse (w : world) (m : gmap string loc) : Prop :=
  map_Forall (fun _ l => (l ∉ pool w) ∧ (l < next w)%nat) m.

(** From [w] to [w'] objects are only taken from the pool or allocated:
    the objects that were in use are what they were. *)
Definition recycles (w w' : world) : Prop :=
  (next w ≤ next w')%nat
  ∧ (∀ l, l ∈ pool w' → l ∈ pool w)
  ∧ (∀ l, l ∉ pool w → (l < next w)%nat → heap w' !!! l = heap w !!! l).

(** What holds of the world and of [oldList] when a round of the loop
    starts. *)
Definition roundInv (w : world) (m : gmap string loc) : Prop :=
  poolOk w ∧ inUse w m ∧ keyed (heap w) m.

(** ** The events of the two loops *)

(** The test [l.uid != 646973] of both loops, negated. *)
Definition watched (h : gmap loc live) (l : loc) : bool :=
  uid (h !!! l) =? watchedUID.

(** What the first loop does for a new session of the watched owner. *)
Definition startEvents (v : live) : list event :=
  [EvLog (LogLive v); EvInsert v; EvGo (CutTask (uid v) (liveID v))].

(** What the two loops add to the trace: the events of the new sessions of
    the watched owner, then a goroutine for each of its ended sessions. *)
Definition diffEvents (h : gmap loc live) (oldList newList : gmap string loc)
    : list event :=
  flat_map (fun l => startEvents (h !!! l))
    (List.filter (watched h) (started h oldList newList))
  ++ ((fun l => EvGo (SummaryTask l))
        <$> List.filter (watched h) (ended h oldList newList)).

(** ** Snapshots as maps of sessions *)

(** The sessions of a snapshot, read through the heap. *)
Definition sessions (h : gmap loc live) (m : gmap string loc) : gmap string live :=
  (λ l, h !!! l) <$> m.

(** The sessions a list of descriptors stands for, by id: a later
    descriptor replaces an earlier one with the same id. *)
Definition byId (rooms : list json) : gmap string live :=
  fold_left (λ acc room, <[liveID (roomLive room) := roomLive room]> acc) rooms ∅.

(** The descriptors of a parsed list answer. *)
Definition roomsOf (v0 : json) : list json :=
  GetArray (Get (Some v0) ["channelListData"]) ["liveList"].

(** ** The cost of a step *)

(** From [w] to [w'] the trace grows by [n] requests and [z] seconds of
    sleep. *)
Definition costs (n : nat) (z : Z) (w w' : world) : Prop :=
  ∃ evs, trace w' = trace w ++ evs
         ∧ length (List.filter isRequest evs) = n ∧ elapsed evs = z.

(** ** The console *)

(** The console after the outputs [os], in order. *)
Definition printAll (os : list output) (c : console) : console :=
  mkConsole (cworld c) (printed c ++ os).

(** The rows of a query before the first one that cannot be scanned. *)
Fixpoint scanned (rs : list (live + error)) : list live :=
  match rs with
  | inl v :: rest => v :: scanned rest
  | _ => []
  end.

(** The error of the first row that cannot be scanned. *)
Fixpoint scanError (rs : list (live + error)) : option error :=
  match rs with
  | [] => None
  | inl _ :: rest => scanError rest
  | inr e :: _ => Some e
  end.

(** What the console may do to the world: it adds quiet events, and it
    takes objects from a pool that is in order and leaves it in order. *)
Definition harmless (w w' : world) : Prop :=
  grows quiet w w' ∧ (poolOk w → poolOk w' ∧ recycles w w').

(** The line of [getplayback] for the session [id]: the recording, or the
    error of [getPlayback]. *)
Definition playbackLine (id : string) (o : output) : Prop :=
  (∃ url backup, o = OutPlayback id url backup)
  ∨ (∃ e, o = OutError (ErrPlayback id (ErrThrice (Some e)))).

(** What [saveLiveId] prints between the call of [os.OpenFile] and the
    last line, for the session [v] and the file [file]: the record is
    appended, or the write fails, or the file cannot be opened and the
    write fails for that. *)
Definition saveAttempt (file : string) (v : live) (mid : list output) : Prop :=
  mid = [OutAppend file v]
  ∨ (∃ e, mid = [OutWriteFailed e])
  ∨ (∃ e, mid = [OutError e; OutWriteFailed ErrInvalid]).

(** The line of a session that [fetchLiveList] has just built: no
    duration and no cut number yet. *)
Definition freshLine (v : live) : output :=
  OutLive (startTime v) (uid v) (name v) (title v) (liveID v) (streamName v)
          "00:00:00" 0.

#[global] Instance ddl_eq_dec : EqDecision ddl.
Proof. solve_decision. Defined.

(** ** The loop together with its goroutines and the console *)

(** The world, the snapshot the loop holds, and the summary goroutines
    that have started and not ended, each with its object and the session
    the object held when the goroutine started. *)
Record system := mkSystem {
  sworld : world;
  held : gmap string loc;
  pending : list (loc * live)
}.

(** The summary goroutines a round starts. *)
Definition enders (h : gmap loc live) (oldList newList : gmap string loc)
    : list (loc * live) :=
  (λ l, (l, h !!! l)) <$> List.filter (watched h) (ended h oldList newList).

(** What can happen next: a round of the loop that gets its snapshot, the
    run of a summary goroutine that has started, the run of a cut-number
    goroutine, or a command of the console. *)
Inductive sysStep (up : upstream) (db : database) : system → system → Prop :=
| StepRound s newList w' :
    pollOnce up (held s) (sworld s) = (Some newList, w') →
    sysStep up db s
      (mkSystem w' newList (pending s ++ enders (heap w') (held s) newList))
| StepSummary s l v before after :
    pending s = before ++ (l, v) :: after →
    sysStep up db s
      (mkSystem (summaryTask up l (sworld s)) (held s) (before ++ after))
| StepCut s u id :
    sysStep up db s (mkSystem (cutTask up u id (sworld s)) (held s) (pending s))
| StepConsole s cmd os :
    sysStep up db s
      (mkSystem (cworld (Acmon.handleLine up db cmd (mkConsole (sworld s) os)).2)
                (held s) (pending s)).

(** The invariant of the loop, and for every summary goroutine that has
    not ended: its object is of the owner 646973, is not in the pool and
    not in the snapshot, and holds the session it held when the goroutine
    started; no two goroutines have the same object. *)
Definition sysInv (s : system) : Prop :=
  roundInv (sworld s) (held s)
  ∧ NoDup (pending s).*1
  ∧ ∀ l v, (l, v) ∈ pending s →
      (l ∉ pool (sworld s)) ∧ (l < next (sworld s))%nat
      ∧ (∀ k, held s !! k ≠ Some l)
      ∧ heap (sworld s) !!! l = v ∧ uid v = watchedUID.

(** From [w] to [w'] the trace grows, and every session inserted on the
    way is of the owner 646973. *)
Definition insertsWatched (w w' : world) : Prop :=
  ∃ evs, trace w' = trace w ++ evs ∧ ∀ v, EvInsert v ∈ evs → uid v = watchedUID.

(** * Fixtures: concrete states, operations and answers *)

Definition emptyWorld : world := mkWorld ∅ [] 0%nat [].

(** An operation that fails every time. *)
Definition alwaysDown (w : world) : option error * world :=
  (Some (ErrCollaborator "down"), emit (EvGetSummary "s1") w).

(** An operation that fails until two requests have been made. *)
Definition downTwice (w : world) : option error * world :=
  (if (tick w <? 2)%nat then Some (ErrCollaborator "down") else None,
   emit (EvGetSummary "s1") w).

(** A list answer with the sessions [rooms] and the cursor [cursor]. *)
Definition listAnswer (rooms : list json) (cursor : string) : response :=
  Parsed "{...}"
    (JObj [("channelListData",
            JObj [("result", JNum 0); ("pcursor", JStr cursor);
                  ("liveList", JArr rooms)])]).

Definition noSummary (_ : nat) (_ : string) : summary + error :=
  inr (ErrCollaborator "down").
Definition noPlayback (_ : nat) (_ : string) : playback + error :=
  inr (ErrCollaborator "down").
Definition noCut (_ : nat) (_ : Z) (_ : string) : response := DoFailed "down".
Definition noProvider (_ : playback) : string * string := ("", "").

(** A platform whose list never ends. *)
Definition neverEnds : upstream :=
  mkUpstream (fun _ _ => listAnswer [] "1") noCut noSummary noPlayback noProvider.

(** A cut-info answer with result 0, the status [status] and the URL [url]. *)
Definition cutAnswer (status : Z) (url : string) : response :=
  Parsed "{...}"
    (JObj [("result", JNum 0); ("liveCutStatus", JNum status);
           ("liveCutUrl", JStr url)]).

(** A platform that gives that answer to every cut-info request. *)
Definition cutPlatform (status : Z) (url : string) : upstream :=
  mkUpstream (fun _ _ => listAnswer [] "no_more") (fun _ _ _ => cutAnswer status url)
             noSummary noPlayback noProvider.

(** A session descriptor of a list answer. *)
Definition roomOf (id : string) (owner : Z) (nick : string) : json :=
  JObj [("liveId", JStr id); ("authorId", JNum owner);
        ("user", JObj [("name", JStr nick)]); ("streamName", JStr "stream");
        ("createTime", JNum 1700000000000); ("title", JStr "title")].

(** A platform whose list is [rooms], complete at the first request. *)
Definition listPlatform (rooms : list json) : upstream :=
  mkUpstream (fun _ _ => listAnswer rooms "no_more") noCut noSummary noPlayback
             noProvider.

(** A session that ended long ago, back in the pool with its enrichment
    fields set. *)
Definition staleLive : live :=
  mkLive "old" 646973 "nick" "stream" 1600000000000 "title" 600000
         "https://ali/old" "https://tx/old" 77.

Definition staleWorld : world := mkWorld {[0%nat := staleLive]} [0%nat] 1%nat [].

(** Two snapshots: the owner 646973 ends "A" and starts "B" while the
    session "X" of another owner goes on. *)
Definition snapshot1 : list json :=
  [roomOf "A" 646973 "js"; roomOf "X" 7 "other"].
Definition snapshot2 : list json :=
  [roomOf "X" 7 "other"; roomOf "B" 646973 "js"].

(** The world and the map after [fetchLiveList] has read [snapshot1], and
    after it has then read [snapshot2]. *)
Definition fetched1 : (gmap string loc * option error) * world :=
  fetchLiveList (listPlatform snapshot1) emptyWorld.
Definition fetched2 : (gmap string loc * option error) * world :=
  fetchLiveList (listPlatform snapshot2) fetched1.2.

(** A platform whose summaries report the duration [d]. *)
Definition summaryPlatform (d : Z) : upstream :=
  mkUpstream (fun _ _ => listAnswer snapshot2 "no_more") noCut
             (fun _ _ => inl (mkSummary d)) noPlayback noProvider.

(** A platform whose playback lookup gives [pb], with the classifier [d]. *)
Definition playbackPlatform (pb : playback) (d : playback -> string * string)
    : upstream :=
  mkUpstream (fun _ _ => listAnswer [] "no_more") noCut noSummary
             (fun _ _ => inl pb) d.

(** A recording with the URL of one provider only, and a classifier that
    finds that one and no other. *)
Definition oneProvider : playback :=
  mkPlayback "https://alivod.example/rec.m3u8" "".
Definition primaryOnly (pb : playback) : string * string := (URL pb, "").

(** A recording with the URLs of both providers, the secondary one first,
    and a classifier that tells them apart. *)
Definition twoProviders : playback :=
  mkPlayback "https://txvod.example/rec.m3u8" "https://alivod.example/rec.m3u8".
Definition swapped (pb : playback) : string * string := (BackupURL pb, URL pb).

(** A recording that is not there yet: no URL at all. *)
Definition noRecording : playback := mkPlayback "" "".

(** A file system where every file opens and every write succeeds. *)
Definition goodDisk : disk := mkDisk (fun _ _ => None) (fun _ _ _ => None).

(** A store without records. *)
Definition noRecords : database := mkDatabase (fun _ _ _ => inl (mkRows [] None)).

(** A console that has printed nothing, in the empty world. *)
Definition newConsole : console := mkConsole emptyWorld [].

(** A platform whose list is [snapshot1] at the first request and
    [snapshot2] from then on. *)
Definition twoSnapshots : upstream :=
  mkUpstream
    (fun t _ => if (t <? 1)%nat then listAnswer snapshot1 "no_more"
                else listAnswer snapshot2 "no_more")
    noCut noSummary noPlayback noProvider.

(** The system after a round of the loop that gets its snapshot. *)
Definition afterRound (up : upstream) (s : system) : system :=
  let r := pollOnce up (held s) (sworld s) in
  mkSystem r.2 (default ∅ r.1)
    (pending s ++ enders (heap r.2) (held s) (default ∅ r.1)).

(** The system when the program starts, and after one and two rounds on
    the platform [twoSnapshots]. *)
Definition system0 : system := mkSystem emptyWorld ∅ [].
Definition system1 : system := afterRound twoSnapshots system0.
Definition system2 : system := afterRound twoSnapshots system1.

(** * Properties *)

(** ** The retry executor *)

Section RunThriceLoop.
Context {S : Type} `{Runtime S}.
Implicit Types (f : S -> option error * S) (s : S).

Lemma runThrice_loop_fail n f err s e s1 :
  f s = (Some e, s1) →
  runThrice_loop (Datatypes.S n) f err s = runThrice_loop n f (Some e) (backoff e s1).
Proof. intros Hf. simpl. by rewrite Hf. Qed.

Lemma runThrice_loop_ok n f err s s1 :
  f s = (None, s1) → runThrice_loop (Datatypes.S n) f err s = (None, s1).
Proof. intros Hf. simpl. by rewrite Hf. Qed.

End RunThriceLoop.

Section RunThriceProbed.
Context {S : Type} `{Runtime S}.
Implicit Types (f : S -> option error * S) (s : S) (p : probe S).

Lemma probed_eq f p :
  probed f p = ((f (inner p)).1,
                mkProbe (f (inner p)).2 (Datatypes.S (invocations p)) (slept p)).
Proof. unfold probed. by destruct (f (inner p)). Qed.

(** The probe does not change what the loop computes. *)
Lemma runThrice_loop_probed n f err p :
  (runThrice_loop n (probed f) err p).1 = (runThrice_loop n f err (inner p)).1
  ∧ inner (runThrice_loop n (probed f) err p).2 = (runThrice_loop n f err (inner p)).2.
Proof.
  revert err p. induction n as [|n IH]; intros err p; [done|].
  simpl. rewrite probed_eq. destruct (f (inner p)) as [[e|] s1]; [|done].
  apply IH.
Qed.

(** Each round invokes the operation once and sleeps ten seconds after a
    failure: with [n] rounds to go there are at most [n] of each. *)
Lemma runThrice_loop_bounds n f err p :
  let r := runThrice_loop n (probed f) err p in
  (invocations p ≤ invocations r.2 ≤ invocations p + n)%nat
  ∧ slept p ≤ slept r.2 ≤ slept p + 10 * Z.of_nat n.
Proof.
  revert err p. induction n as [|n IH]; intros err p; simpl.
  - split; lia.
  - rewrite probed_eq. destruct (f (inner p)) as [[e|] s1]; simpl.
    + match goal with |- context [runThrice_loop n _ ?e' ?p'] =>
        specialize (IH e' p') end.
      simpl in IH. split; lia.
    + split; lia.
Qed.

(** An operation that fails twice and then succeeds. *)
Lemma runThrice_third_time f s e1 s1 e2 s2 s3 :
  f s = (Some e1, s1) →
  f (backoff e1 s1) = (Some e2, s2) →
  f (backoff e2 s2) = (None, s3) →
  runThrice (probed f) (probe0 s) = (None, mkProbe s3 3%nat 20).
Proof.
  intros H1 H2 H3. unfold runThrice, backoff in *.
  rewrite (runThrice_loop_fail _ _ _ _ e1 (mkProbe s1 1%nat 0))
    by (by rewrite probed_eq; simpl; rewrite H1).
  rewrite (runThrice_loop_fail _ _ _ _ e2 (mkProbe s2 2%nat 10))
    by (by rewrite probed_eq; simpl; rewrite H2).
  rewrite (runThrice_loop_ok _ _ _ _ (mkProbe s3 3%nat 20)); [done|].
  rewrite probed_eq; simpl. by rewrite H3.
Qed.

(** An operation that fails three times. *)
Lemma runThrice_gives_up f s e1 s1 e2 s2 e3 s3 :
  f s = (Some e1, s1) →
  f (backoff e1 s1) = (Some e2, s2) →
  f (backoff e2 s2) = (Some e3, s3) →
  runThrice (probed f) (probe0 s)
  = (Some (ErrThrice (Some e3)), mkProbe (backoff e3 s3) 3%nat 30).
Proof.
  intros H1 H2 H3. unfold runThrice, backoff in *.
  rewrite (runThrice_loop_fail _ _ _ _ e1 (mkProbe s1 1%nat 0))
    by (by rewrite probed_eq; simpl; rewrite H1).
  rewrite (runThrice_loop_fail _ _ _ _ e2 (mkProbe s2 2%nat 10))
    by (by rewrite probed_eq; simpl; rewrite H2).
  rewrite (runThrice_loop_fail _ _ _ _ e3 (mkProbe s3 3%nat 20))
    by (by rewrite probed_eq; simpl; rewrite H3).
  done.
Qed.

End RunThriceProbed.

(** C2, as the spec states it, fails: an operation that fails every time is
    invoked three times, and [runThrice] sleeps ten seconds after each of
    the three failures, the last one too: thirty seconds, not twenty. *)
Lemma runThrice_always_failing_sleeps_30 :
  let r := runThrice (probed alwaysDown) (probe0 emptyWorld) in
  r.1 = Some (ErrThrice (Some (ErrCollaborator "down")))
  ∧ invocations r.2 = 3%nat
  ∧ slept r.2 = 30
  ∧ elapsed (trace (inner r.2)) = 30
  ∧ slept r.2 ≠ 20.
Proof. vm_compute. repeat split; congruence. Qed.

(** C2, amended. [runThrice] invokes the operation at most three times and
    sleeps at most thirty seconds. An operation that fails twice and then
    succeeds gives success after exactly three invocations and twenty
    seconds of sleep. An operation that fails three times gives the
    aggregate error that names the last cause, after exactly three
    invocations and thirty seconds of sleep: ten after every failure. *)
Theorem runThrice_retry_budget {S : Type} `{Runtime S}
    (f : S -> option error * S) (s : S) :
  let r := runThrice (probed f) (probe0 s) in
  ((invocations r.2 ≤ 3)%nat ∧ 0 ≤ slept r.2 ≤ 30)
  ∧ (∀ e1 s1 e2 s2 s3,
       f s = (Some e1, s1) →
       f (backoff e1 s1) = (Some e2, s2) →
       f (backoff e2 s2) = (None, s3) →
       r = (None, mkProbe s3 3%nat 20))
  ∧ (∀ e1 s1 e2 s2 e3 s3,
       f s = (Some e1, s1) →
       f (backoff e1 s1) = (Some e2, s2) →
       f (backoff e2 s2) = (Some e3, s3) →
       r = (Some (ErrThrice (Some e3)), mkProbe (backoff e3 s3) 3%nat 30)).
Proof.
  intros r. split; [|split].
  - pose proof (runThrice_loop_bounds 3 f None (probe0 s)) as Hb.
    simpl in Hb. subst r. unfold runThrice. simpl. lia.
  - intros. subst r. eauto using runThrice_third_time.
  - intros. subst r. eauto using runThrice_gives_up.
Qed.

Lemma runThrice_retry_budget_witness :
  runThrice (probed downTwice) (probe0 emptyWorld)
  = (None,
     mkProbe (emit (EvGetSummary "s1")
                (backoff (ErrCollaborator "down")
                   (emit (EvGetSummary "s1")
                      (backoff (ErrCollaborator "down")
                         (emit (EvGetSummary "s1") emptyWorld)))))
             3%nat 20)
  ∧ runThrice (probed alwaysDown) (probe0 emptyWorld)
    = (Some (ErrThrice (Some (ErrCollaborator "down"))),
       mkProbe (backoff (ErrCollaborator "down")
                  (emit (EvGetSummary "s1")
                     (backoff (ErrCollaborator "down")
                        (emit (EvGetSummary "s1")
                           (backoff (ErrCollaborator "down")
                              (emit (EvGetSummary "s1") emptyWorld))))))
               3%nat 30).
Proof.
  split.
  - eapply (proj1 (proj2 (runThrice_retry_budget downTwice emptyWorld)));
      reflexivity.
  - eapply (proj2 (proj2 (runThrice_retry_budget alwaysDown emptyWorld)));
      reflexivity.
Defined.

(** ** The snapshot fetcher: the escalation of the page size *)

Lemma tick_emit_list c w : tick (emit (EvListRequest c) w) = Datatypes.S (tick w).
Proof.
  unfold tick, emit. simpl. rewrite List.filter_app, length_app. simpl. lia.
Qed.

Lemma trace_poolGet w : trace (poolGet w).2 = trace w.
Proof. unfold poolGet. by destruct (pool w). Qed.

Lemma trace_addRoom acc room : trace (addRoom acc room).2 = trace acc.2.
Proof.
  destruct acc as [m w]. unfold addRoom.
  pose proof (trace_poolGet w) as Hp. destruct (poolGet w) as [l w']. simpl in *.
  done.
Qed.

Lemma trace_fold_addRoom rooms acc :
  trace (fold_left addRoom rooms acc).2 = trace acc.2.
Proof.
  revert acc. induction rooms as [|r rooms IH]; intros acc; [done|].
  simpl. by rewrite IH, trace_addRoom.
Qed.

Section Escalation.
Variable up : upstream.

Lemma escalate_unfold fuel count v w :
  count < 10 ^ 9 →
  escalate (Datatypes.S fuel) up count v w
  = match listRound count (listEndpoint up (tick w) count) with
    | Raise e => Some (Panic e, emit (EvListRequest count) w)
    | Break v' => Some (Ret v', emit (EvListRequest count) w)
    | Next v' => escalate fuel up (wrap64 (count * 10)) v' (emit (EvListRequest count) w)
    end.
Proof.
  intros Hc. apply Z.ltb_lt in Hc. cbn [escalate]. by rewrite Hc.
Qed.

Lemma listRound_Break count r v :
  listRound count r = Break v →
  signalsEnd r = true
  ∧ ∃ body v0, r = Parsed body v0 ∧ v = Get (Some v0) ["channelListData"].
Proof.
  destruct r as [msg|msg|body msg|body v0]; simpl; try discriminate.
  destruct (resultNotZero _); [discriminate|].
  destruct (String.eqb _ _); [|by destruct (count =? 10 ^ 8)].
  intros [= <-]. eauto.
Qed.

Lemma listRound_Next count r v :
  listRound count r = Next v → signalsMore r = true ∧ count ≠ 10 ^ 8.
Proof.
  destruct r as [msg|msg|body msg|body v0]; simpl; try discriminate.
  destruct (resultNotZero _); [discriminate|].
  destruct (String.eqb _ _); [discriminate|].
  destruct (count =? 10 ^ 8) eqn:Hc; [discriminate|].
  apply Z.eqb_neq in Hc. done.
Qed.

Lemma listRound_Raise count r e :
  listRound count r = Raise e →
  listFailure r e ∧ signalsEnd r = false ∧ (e = ErrListCeiling → count = 10 ^ 8).
Proof.
  destruct r as [msg|msg|body msg|body v0]; simpl;
    try (intros [= <-]; repeat split; [constructor|discriminate]).
  destruct (resultNotZero _) eqn:Hr.
  { intros [= <-]. repeat split; [by constructor|discriminate]. }
  destruct (String.eqb _ _) eqn:Hp; [discriminate|].
  destruct (count =? 10 ^ 8) eqn:Hc; [|discriminate].
  apply Z.eqb_eq in Hc. intros [= <-]. repeat split; [|done].
  constructor. simpl. by rewrite Hr, Hp.
Qed.

(** The loop stops in round [k] with the step [H]. *)
Ltac escalate_stops k H :=
  eexists; split; [reflexivity|]; exists k;
  cbn [fst snd nth pageSizes requestAll take fold_left Nat.sub Nat.add];
  first [ apply listRound_Break in H as [? ?]
        | apply listRound_Raise in H as (? & ? & ?) ];
  repeat split; try lia; try assumption;
  try (intros j Hj; do 4 (try (destruct j as [|j]; [assumption|])); lia);
  try (intros ->; match goal with Hc : _ = _ → _ = _ |- _ =>
                    by specialize (Hc eq_refl) end).

Lemma escalate_run fuel v w :
  (5 ≤ fuel)%nat →
  ∃ res, escalate fuel up 10000 v w = Some res ∧ escalated up w res.
Proof.
  intros Hf. do 5 (destruct fuel as [|fuel]; [lia|]). clear Hf.
  unfold escalated, answer.
  rewrite escalate_unfold by done.
  destruct (listRound _ _) as [v1|v1|e1] eqn:H1;
    [escalate_stops 1%nat H1| |escalate_stops 1%nat H1].
  apply listRound_Next in H1 as [H1 _].
  change (wrap64 (10000 * 10)) with 100000.
  rewrite escalate_unfold by done. rewrite !tick_emit_list.
  destruct (listRound _ _) as [v2|v2|e2] eqn:H2;
    [escalate_stops 2%nat H2| |escalate_stops 2%nat H2].
  apply listRound_Next in H2 as [H2 _].
  change (wrap64 (100000 * 10)) with 1000000.
  rewrite escalate_unfold by done. rewrite !tick_emit_list.
  destruct (listRound _ _) as [v3|v3|e3] eqn:H3;
    [escalate_stops 3%nat H3| |escalate_stops 3%nat H3].
  apply listRound_Next in H3 as [H3 _].
  change (wrap64 (1000000 * 10)) with 10000000.
  rewrite escalate_unfold by done. rewrite !tick_emit_list.
  destruct (listRound _ _) as [v4|v4|e4] eqn:H4;
    [escalate_stops 4%nat H4| |escalate_stops 4%nat H4].
  apply listRound_Next in H4 as [H4 _].
  change (wrap64 (10000000 * 10)) with 100000000.
  rewrite escalate_unfold by done. rewrite !tick_emit_list.
  destruct (listRound _ _) as [v5|v5|e5] eqn:H5;
    [escalate_stops 5%nat H5| |escalate_stops 5%nat H5].
  apply listRound_Next in H5 as [_ H5]. done.
Qed.

End Escalation.

Lemma escalate_mono up fuel fuel' count v w res :
  (fuel ≤ fuel')%nat →
  escalate fuel up count v w = Some res →
  escalate fuel' up count v w = Some res.
Proof.
  revert fuel' count v w. induction fuel as [|fuel IH]; intros fuel' count v w Hle.
  - destruct fuel'; simpl; destruct (count <? 10 ^ 9); done.
  - destruct fuel' as [|fuel']; [lia|]. simpl.
    destruct (count <? 10 ^ 9); [|done].
    destruct (listRound _ _); try done. apply IH. lia.
Qed.

Lemma trace_requestAll cs w :
  trace (requestAll cs w) = trace w ++ (EvListRequest <$> cs).
Proof.
  revert w. induction cs as [|c cs IH]; intros w; simpl.
  - by rewrite app_nil_r.
  - unfold requestAll in *. simpl. rewrite IH. simpl. by rewrite <- app_assoc.
Qed.

Lemma signalsEnd_not_more r : signalsEnd r = true → signalsMore r = false.
Proof.
  destruct r; unfold signalsEnd, signalsMore; try done.
  destruct (resultNotZero _); simpl; [done|]. by intros ->.
Qed.

Lemma listFailure_more r e :
  listFailure r e → signalsMore r = true → e = ErrListCeiling.
Proof.
  intros [] Hm; unfold signalsMore in Hm; try done.
  rewrite H in Hm. done.
Qed.

Lemma fetchLiveList_fuel_enough up w fuel :
  (5 ≤ fuel)%nat → fetchLiveList_fuel fuel up w = Some (fetchLiveList up w).
Proof.
  intros Hf.
  destruct (escalate_run up 5 None w) as (res & H5 & _); [done|].
  pose proof (escalate_mono up 5 fuel _ _ _ _ Hf H5) as Hn.
  unfold fetchLiveList, fetchLiveList_fuel, fetchLiveList_body.
  rewrite H5, Hn. destruct res as [[v|e] w1]; [|done].
  by destruct (fold_left addRoom _ _).
Qed.

Lemma fetchLiveList_run up w : ∃ k, (1 ≤ k ≤ 5)%nat ∧ listRun up w k.
Proof.
  destruct (escalate_run up 5 None w) as (res & H5 & k & Hk & Hw & Hm & Hres); [done|].
  exists k. split; [done|]. unfold listRun, fetchLiveList, fetchLiveList_fuel, fetchLiveList_body.
  rewrite H5. destruct res as [[v|e] w1]; simpl in *.
  - destruct (fold_left addRoom _ _) as [lst w2] eqn:Hfold. simpl.
    pose proof (trace_fold_addRoom (GetArray v ["liveList"]) (∅, w1)) as Ht.
    rewrite Hfold in Ht. simpl in Ht. rewrite Ht, Hw, trace_requestAll.
    repeat split; [done|tauto].
  - rewrite Hw, trace_requestAll. repeat split; [done|]. exists e. tauto.
Qed.

(** C3. The page sizes [fetchLiveList] asks for are 10000 times a power of
    ten. Five rounds of fuel are enough for any upstream: the loop always
    ends. It makes between one and five requests, for the first page sizes
    in order, and stops at the first answer that is not a page with more
    to come: with no error when that answer says "no_more", and otherwise
    with the error of that answer (transport, gzip, parse, result not 0,
    or the ceiling, which only the fifth request gives). When no answer
    ever says "no_more", the result is the ceiling error after the five
    requests. *)
Theorem fetchLiveList_escalation up w :
  (∀ j, (j < 5)%nat → nth j pageSizes 0 = 10000 * 10 ^ Z.of_nat j)
  ∧ (∀ fuel, (5 ≤ fuel)%nat → fetchLiveList_fuel fuel up w = Some (fetchLiveList up w))
  ∧ (∃ k, (1 ≤ k ≤ 5)%nat ∧ listRun up w k)
  ∧ ((∀ j, (j < 5)%nat → signalsMore (answer up w j) = true) →
     (fetchLiveList up w).1 = (∅, Some (ErrFetchLiveList ErrListCeiling))
     ∧ trace (fetchLiveList up w).2 = trace w ++ (EvListRequest <$> pageSizes)).
Proof.
  split; [|split; [|split]].
  - intros j Hj. do 5 (destruct j as [|j]; [done|]). lia.
  - apply fetchLiveList_fuel_enough.
  - apply fetchLiveList_run.
  - intros Hmore. destruct (fetchLiveList_run up w) as (k & Hk & Ht & _ & Hres).
    assert (signalsMore (answer up w (k - 1)) = true) as Hlast by (apply Hmore; lia).
    destruct (fetchLiveList up w) as [[lst [e|]] w1] eqn:Hfl; simpl in *.
    + destruct Hres as (c & -> & Hc & _ & Hk5).
      pose proof (listFailure_more _ _ Hc Hlast) as ->.
      rewrite (Hk5 eq_refl) in Ht. split; [|done].
      f_equal.
      unfold fetchLiveList, fetchLiveList_fuel in Hfl.
      destruct (fetchLiveList_body 5 up w) as [[[?|?] ?]|]; by inversion Hfl.
    + apply signalsEnd_not_more in Hres. congruence.
Qed.

Lemma fetchLiveList_escalation_witness :
  (fetchLiveList neverEnds emptyWorld).1 = (∅, Some (ErrFetchLiveList ErrListCeiling))
  ∧ trace (fetchLiveList neverEnds emptyWorld).2
    = trace emptyWorld ++ (EvListRequest <$> pageSizes).
Proof.
  apply (proj2 (proj2 (proj2 (fetchLiveList_escalation neverEnds emptyWorld)))).
  intros j Hj. do 5 (destruct j as [|j]; [reflexivity|]). lia.
Defined.

(** ** The cut-number lookup *)

Lemma readDigits_decimal acc s :
  allDigits s = true → readDigits acc s = Some (decimal acc s).
Proof.
  revert acc. induction s as [|c s IH]; intros acc; simpl; [done|].
  destruct (isDigit c); [|done]. simpl. apply IH.
Qed.

Lemma digitVal_range c : isDigit c = true → 0 ≤ digitVal c ≤ 9.
Proof.
  unfold isDigit, digitVal. intros H%andb_prop. destruct H as [H1%Nat.leb_le H2%Nat.leb_le]. lia.
Qed.

Lemma decimal_nonneg acc s : 0 ≤ acc → allDigits s = true → 0 ≤ decimal acc s.
Proof.
  revert acc. induction s as [|c s IH]; intros acc Hacc; simpl; [done|].
  intros [Hc Hs]%andb_prop. apply IH; [|done].
  pose proof (digitVal_range c Hc). lia.
Qed.

(** [strconv.Atoi] on digits: the number they stand for, or the range
    error together with the largest [int]. *)
Lemma Atoi_digits ds :
  ds ≠ EmptyString → allDigits ds = true →
  Atoi ds = if maxInt <? decimal 0 ds
            then (maxInt, Some (ErrAtoi ds)) else (decimal 0 ds, None).
Proof.
  intros Hne Hd. unfold Atoi.
  destruct ds as [|c ds]; [done|].
  assert (c ≠ "-"%char ∧ c ≠ "+"%char) as [Hm Hp].
  { simpl in Hd. apply andb_prop in Hd as [Hc _].
    split; intros ->; done. }
  assert ((let '(neg, body) :=
            match String c ds with
            | String "-" rest => (true, rest)
            | String "+" rest => (false, rest)
            | _ => (false, String c ds)
            end in (neg, body)) = (false, String c ds)) as Hsign.
  { destruct c as [[] [] [] [] [] [] [] []]; try done. }
  destruct (match String c ds with
            | String "-" rest => (true, rest)
            | String "+" rest => (false, rest)
            | _ => (false, String c ds)
            end) as [neg body].
  injection Hsign as -> ->.
  rewrite readDigits_decimal by done.
  pose proof (decimal_nonneg 0 (String c ds) ltac:(lia) Hd) as Hnn.
  destruct (decimal 0 (String c ds) <? minInt) eqn:Hlt; [|done].
  apply Z.ltb_lt in Hlt. unfold minInt in Hlt. lia.
Qed.

Lemma allDigits_snoc ds c :
  allDigits (ds +:+ String c EmptyString) = allDigits ds && isDigit c.
Proof.
  induction ds as [|d ds IH]; simpl.
  - by rewrite andb_true_r.
  - rewrite IH. by rewrite andb_assoc.
Qed.

Lemma snoc_not_empty ds c : ds +:+ String c EmptyString ≠ EmptyString.
Proof. by destruct ds. Qed.

Lemma findAll_matches st s : scanOk st → Forall isMatch (findAll st s).
Proof.
  revert st. induction s as [|c s IH]; intros st Hst; simpl.
  - destruct st as [| |ds]; constructor; [|constructor].
    destruct Hst. by exists ds.
  - destruct st as [| |ds].
    + apply IH. unfold afterOther. by destruct (isSlash c).
    + destruct (isDigit c) eqn:Hc.
      * apply IH. simpl. split; [done|]. by rewrite Hc.
      * apply IH. unfold afterOther. by destruct (isSlash c).
    + destruct Hst as [Hne Hd]. destruct (isDigit c) eqn:Hc.
      * apply IH. simpl. split; [apply snoc_not_empty|].
        by rewrite allDigits_snoc, Hd, Hc.
      * constructor; [by exists ds|].
        apply IH. unfold afterOther. by destruct (isSlash c).
Qed.

Lemma FindAllString_matches url : Forall isMatch (FindAllString url).
Proof. by apply findAll_matches. Qed.

Section FetchLiveCut.
Variables (up : upstream) (u : Z) (id : string) (w : world).

Lemma fetchLiveCut_trace :
  (fetchLiveCut up u id w).2 = emit (EvCutRequest u id) w.
Proof. unfold fetchLiveCut. by destruct (outcome _). Qed.

(** Status 1 and not exactly one match. *)
Lemma fetchLiveCut_no_single_match body v0 :
  cutInfo (cutEndpoint up (tick w) u id) body v0 →
  GetInt (Some v0) ["liveCutStatus"] = 1 →
  length (FindAllString (GetStringBytes (Some v0) ["liveCutUrl"])) ≠ 1%nat →
  (fetchLiveCut up u id w).1
  = (0, Some (ErrFetchLiveCut (ErrCutNumFailed u id body))).
Proof.
  intros [Hr Hz] Hs Hn. unfold fetchLiveCut, fetchLiveCut_body.
  rewrite Hr, Hz, Hs. simpl negb at 1. cbv iota.
  apply Nat.eqb_neq in Hn. by rewrite Hn.
Qed.

(** Status 1 and exactly one match. *)
Lemma fetchLiveCut_single_match body v0 m :
  cutInfo (cutEndpoint up (tick w) u id) body v0 →
  GetInt (Some v0) ["liveCutStatus"] = 1 →
  FindAllString (GetStringBytes (Some v0) ["liveCutUrl"]) = [m] →
  isMatch m
  ∧ (fetchLiveCut up u id w).1
    = if maxInt <? decimal 0 (tail1 m)
      then (0, Some (ErrFetchLiveCut (ErrAtoi (tail1 m))))
      else (decimal 0 (tail1 m), None).
Proof.
  intros [Hr Hz] Hs Hm.
  pose proof (FindAllString_matches (GetStringBytes (Some v0) ["liveCutUrl"])) as Hall.
  rewrite Hm in Hall. apply Forall_cons in Hall as [Hmatch _].
  split; [done|]. destruct Hmatch as (ds & -> & Hne & Hd).
  unfold fetchLiveCut, fetchLiveCut_body.
  rewrite Hr, Hz, Hs, Hm. simpl negb. cbv iota.
  cbn [nth tail1]. rewrite (Atoi_digits ds Hne Hd).
  by destruct (maxInt <? decimal 0 ds).
Qed.

End FetchLiveCut.

Lemma fetchLiveCut_error_zero up u id w :
  (fetchLiveCut up u id w).1.2 ≠ None → (fetchLiveCut up u id w).1.1 = 0.
Proof.
  unfold fetchLiveCut, fetchLiveCut_body.
  destruct (cutEndpoint up (tick w) u id) as [msg|msg|body msg|body v0]; simpl; try done.
  destruct (resultNotZero _); simpl; [done|].
  destruct (negb _); simpl; [done|].
  destruct (negb _); simpl; [done|].
  destruct (Atoi _) as [n [e|]]; simpl; done.
Qed.

Lemma fetchLiveCut_recovers up u id w :
  match outcome (fetchLiveCut_body u id (cutEndpoint up (tick w) u id)) with
  | Panic v => (fetchLiveCut up u id w).1 = (0, Some (ErrFetchLiveCut v))
  | Ret e =>
      e = None
      ∧ (fetchLiveCut up u id w).1
        = (num (fetchLiveCut_body u id (cutEndpoint up (tick w) u id)), None)
  end.
Proof.
  unfold fetchLiveCut.
  destruct (outcome _) as [e|v] eqn:Ho; [|done].
  assert (e = None) as ->; [|done].
  unfold fetchLiveCut_body in Ho.
  destruct (cutEndpoint up (tick w) u id) as [msg|msg|body msg|body v0]; simpl in Ho; try done.
  destruct (resultNotZero _); simpl in Ho; [done|].
  destruct (negb _); simpl in Ho; [congruence|].
  destruct (negb _); simpl in Ho; [done|].
  destruct (Atoi _) as [n [e'|]]; simpl in Ho; [done|congruence].
Qed.

(** Digits that no slash precedes are no match, and a slash that no digit
    follows is none either. *)
Example FindAllString_examples :
  FindAllString ".../foo/12345/bar" = ["/12345"]
  ∧ FindAllString "h5/foo/bar" = []
  ∧ FindAllString "/foo/12/bar/345" = ["/12"; "/345"]
  ∧ FindAllString "https://h5.example/cut12/678?x=9" = ["/678"].
Proof. vm_compute. done. Qed.

(** C5. A cut-info answer that passes the result check and whose status is
    not 1 gives the number 0 and no error, whatever its URL field holds. *)
Theorem fetchLiveCut_status_not_ready up u id w body v0 :
  cutInfo (cutEndpoint up (tick w) u id) body v0 →
  GetInt (Some v0) ["liveCutStatus"] ≠ 1 →
  (fetchLiveCut up u id w).1 = (0, None).
Proof.
  intros [Hr Hz] Hs. unfold fetchLiveCut, fetchLiveCut_body.
  rewrite Hr, Hz. apply Z.eqb_neq in Hs. by rewrite Hs.
Qed.

Lemma fetchLiveCut_status_not_ready_witness :
  (fetchLiveCut (cutPlatform 0 ".../foo/12345/bar") 646973 "s1" emptyWorld).1
  = (0, None).
Proof.
  apply (fetchLiveCut_status_not_ready (cutPlatform 0 ".../foo/12345/bar")
           646973 "s1" emptyWorld "{...}"
           (JObj [("result", JNum 0); ("liveCutStatus", JNum 0);
                  ("liveCutUrl", JStr ".../foo/12345/bar")])).
  - split; reflexivity.
  - vm_compute. discriminate.
Defined.

(** C4. For a cut-info answer that passes the result check and whose status
    is 1, [fetchLiveCut] looks for the matches of the pattern in the URL
    field: each one is a slash and then one digit or more. With no match,
    or with two or more, it returns the number 0 and the error of the
    lookup; with exactly one it returns the number its digits stand for
    and no error (and an error, with 0, when that number does not fit an
    [int]). It returns in every case: no panic leaves it. *)
Theorem fetchLiveCut_cut_number up u id w body v0 :
  cutInfo (cutEndpoint up (tick w) u id) body v0 →
  GetInt (Some v0) ["liveCutStatus"] = 1 →
  let nums := FindAllString (GetStringBytes (Some v0) ["liveCutUrl"]) in
  let r := (fetchLiveCut up u id w).1 in
  Forall isMatch nums
  ∧ (length nums ≠ 1%nat →
     r = (0, Some (ErrFetchLiveCut (ErrCutNumFailed u id body))))
  ∧ (∀ m, nums = [m] →
     r = if maxInt <? decimal 0 (tail1 m)
         then (0, Some (ErrFetchLiveCut (ErrAtoi (tail1 m))))
         else (decimal 0 (tail1 m), None)).
Proof.
  intros Hr Hs nums r. split; [apply FindAllString_matches|split].
  - by apply fetchLiveCut_no_single_match.
  - intros m Hm. by apply (fetchLiveCut_single_match up u id w body v0 m).
Qed.

Lemma fetchLiveCut_cut_number_witness :
  (fetchLiveCut (cutPlatform 1 ".../foo/12345/bar") 646973 "s1" emptyWorld).1
  = (12345, None)
  ∧ (fetchLiveCut (cutPlatform 1 ".../foo/12345/678") 646973 "s1" emptyWorld).1
    = (0, Some (ErrFetchLiveCut (ErrCutNumFailed 646973 "s1" "{...}"))).
Proof.
  split.
  - apply (proj2 (proj2 (fetchLiveCut_cut_number
             (cutPlatform 1 ".../foo/12345/bar") 646973 "s1" emptyWorld "{...}"
             (JObj [("result", JNum 0); ("liveCutStatus", JNum 1);
                    ("liveCutUrl", JStr ".../foo/12345/bar")])
             ltac:(split; reflexivity) ltac:(reflexivity)))
           "/12345").
    reflexivity.
  - apply (proj1 (proj2 (fetchLiveCut_cut_number
             (cutPlatform 1 ".../foo/12345/678") 646973 "s1" emptyWorld "{...}"
             (JObj [("result", JNum 0); ("liveCutStatus", JNum 1);
                    ("liveCutUrl", JStr ".../foo/12345/678")])
             ltac:(split; reflexivity) ltac:(reflexivity)))).
    vm_compute. discriminate.
Defined.

(** The URLs with no match and with two give the error of the lookup. *)
Example fetchLiveCut_zero_or_two_matches :
  (fetchLiveCut (cutPlatform 1 ".../foo/bar") 646973 "s1" emptyWorld).1
  = (0, Some (ErrFetchLiveCut (ErrCutNumFailed 646973 "s1" "{...}")))
  ∧ (fetchLiveCut (cutPlatform 1 ".../foo/12345/678") 646973 "s1" emptyWorld).1
    = (0, Some (ErrFetchLiveCut (ErrCutNumFailed 646973 "s1" "{...}"))).
Proof. vm_compute. done. Qed.

(** A number too large for an [int]: [strconv.Atoi] leaves the largest
    [int] in [num] and the deferred function sets it back to 0. *)
Example fetchLiveCut_out_of_range :
  num (fetchLiveCut_body 646973 "s1" (cutAnswer 1 "/99999999999999999999")) = maxInt
  ∧ (fetchLiveCut (cutPlatform 1 "/99999999999999999999") 646973 "s1" emptyWorld).1
    = (0, Some (ErrFetchLiveCut (ErrAtoi "99999999999999999999"))).
Proof. vm_compute. done. Qed.

(** ** The sessions of a snapshot *)

Lemma heap_store l f w l' :
  heap (store l f w) !!! l' = if decide (l = l') then f (heap w !!! l) else heap w !!! l'.
Proof.
  unfold store. simpl. case_decide as Hl.
  - subst. by rewrite lookup_total_insert_eq.
  - by rewrite lookup_total_insert_ne.
Qed.

Lemma store_store l f g w : store l g (store l f w) = store l (g ∘ f) w.
Proof.
  unfold store. simpl. by rewrite lookup_total_insert_eq, insert_insert_eq.
Qed.

(** The ten assignments leave nothing of what the object held. *)
Lemma addRoom_eq m w room :
  addRoom (m, w) room
  = (<[liveID (roomLive room) := (poolGet w).1]> m,
     store (poolGet w).1 (λ _, roomLive room) (poolGet w).2).
Proof.
  unfold addRoom. destruct (poolGet w) as [l w']. 
  rewrite !store_store, heap_store, decide_True by done.
  reflexivity.
Qed.

Lemma heap_poolGet w l :
  heap (poolGet w).2 !!! l = heap w !!! l ∨ heap (poolGet w).2 !!! l = zeroLive.
Proof.
  unfold poolGet. destruct (pool w); simpl; [|by left].
  destruct (decide (next w = l)) as [->|Hne].
  - right. by rewrite lookup_total_insert_eq.
  - left. by rewrite lookup_total_insert_ne.
Qed.

Lemma unenriched_roomLive room : unenriched (roomLive room).
Proof. done. Qed.

Lemma unenriched_zeroLive : unenriched zeroLive.
Proof. done. Qed.

(** Whatever the pool holds, a round of the loop leaves every session of
    the map with its enrichment fields at zero. *)
Lemma addRoom_unenriched m w room :
  (∀ k l, m !! k = Some l → unenriched (heap w !!! l)) →
  ∀ k l, (addRoom (m, w) room).1 !! k = Some l →
         unenriched (heap (addRoom (m, w) room).2 !!! l).
Proof.
  intros Hm k l. rewrite addRoom_eq. cbn [fst snd]. rewrite heap_store.
  case_decide as Hl; [intros _; apply unenriched_roomLive|].
  rewrite lookup_insert. case_decide as Hk; [by intros [= Heq]|].
  intros Hkl. destruct (heap_poolGet w l) as [-> | ->];
    [by eapply Hm | apply unenriched_zeroLive].
Qed.

Lemma fold_addRoom_unenriched rooms m w :
  (∀ k l, m !! k = Some l → unenriched (heap w !!! l)) →
  ∀ k l, (fold_left addRoom rooms (m, w)).1 !! k = Some l →
         unenriched (heap (fold_left addRoom rooms (m, w)).2 !!! l).
Proof.
  revert m w. induction rooms as [|room rooms IH]; intros m w Hm; [done|].
  cbn [fold_left]. pose proof (addRoom_unenriched m w room Hm) as Hstep.
  destruct (addRoom (m, w) room) as [m1 w1]. by apply IH.
Qed.

Lemma fetchLiveList_unenriched up w k l :
  (fetchLiveList up w).1.1 !! k = Some l →
  unenriched (heap (fetchLiveList up w).2 !!! l).
Proof.
  unfold fetchLiveList, fetchLiveList_fuel, fetchLiveList_body.
  destruct (escalate 5 up 10000 None w) as [[[v|e] w1]|]; simpl; try done.
  pose proof (fold_addRoom_unenriched (GetArray v ["liveList"]) ∅ w1) as Hf.
  destruct (fold_left addRoom _ _) as [m w2]. simpl in *.
  apply Hf. intros ?? Hl. by rewrite lookup_empty in Hl.
Qed.

Lemma fetchLiveList_recovers up w :
  match fetchLiveList_body 5 up w with
  | Some (Panic v, w1) => fetchLiveList up w = ((∅, Some (ErrFetchLiveList v)), w1)
  | Some (Ret lst, w1) => fetchLiveList up w = ((lst, None), w1)
  | None => False
  end.
Proof.
  pose proof (fetchLiveList_fuel_enough up w 5 ltac:(done)) as H5.
  unfold fetchLiveList, fetchLiveList_fuel in *.
  destruct (fetchLiveList_body 5 up w) as [[[lst|v] w1]|]; done.
Qed.

(** C10. A panic of the body of [fetchLiveCut] or of [fetchLiveList] is the
    error the function returns: the body of [fetchLiveCut] either panics,
    and the result is 0 with the error, or returns no error; an error of
    [fetchLiveCut] always comes with the number 0; the body of
    [fetchLiveList] either panics, and the result is the error with no
    map, or returns its map. Every session of the map [fetchLiveList]
    returns has duration 0, cut number 0 and empty playback and backup
    URLs, whatever the objects of the pool held. *)
Theorem fetchers_recover_and_reset up u id w :
  match outcome (fetchLiveCut_body u id (cutEndpoint up (tick w) u id)) with
  | Panic v => (fetchLiveCut up u id w).1 = (0, Some (ErrFetchLiveCut v))
  | Ret e =>
      e = None
      ∧ (fetchLiveCut up u id w).1
        = (num (fetchLiveCut_body u id (cutEndpoint up (tick w) u id)), None)
  end
  ∧ ((fetchLiveCut up u id w).1.2 ≠ None → (fetchLiveCut up u id w).1.1 = 0)
  ∧ match fetchLiveList_body 5 up w with
    | Some (Panic v, w1) => fetchLiveList up w = ((∅, Some (ErrFetchLiveList v)), w1)
    | Some (Ret lst, w1) => fetchLiveList up w = ((lst, None), w1)
    | None => False
    end
  ∧ (∀ k l, (fetchLiveList up w).1.1 !! k = Some l →
            unenriched (heap (fetchLiveList up w).2 !!! l)).
Proof.
  split; [apply fetchLiveCut_recovers|].
  split; [apply fetchLiveCut_error_zero|].
  split; [apply fetchLiveList_recovers|].
  apply fetchLiveList_unenriched.
Qed.

Lemma fetchers_recover_and_reset_witness :
  (fetchLiveCut (cutPlatform 1 "/99999999999999999999") 646973 "s1" staleWorld).1.1 = 0
  ∧ unenriched
      (heap (fetchLiveList (listPlatform [roomOf "s1" 646973 "nick"]) staleWorld).2
       !!! 0%nat).
Proof.
  split.
  - apply (proj1 (proj2 (fetchers_recover_and_reset
             (cutPlatform 1 "/99999999999999999999") 646973 "s1" staleWorld))).
    vm_compute. discriminate.
  - apply (proj2 (proj2 (proj2 (fetchers_recover_and_reset
             (listPlatform [roomOf "s1" 646973 "nick"]) 646973 "s1" staleWorld)))
           "s1" 0%nat).
    vm_compute. reflexivity.
Defined.

(** ** The two loops over the snapshots *)

Lemma elem_of_range (m : gmap string loc) l :
  l ∈ range m ↔ ∃ k, m !! k = Some l.
Proof.
  unfold range. rewrite list_elem_of_fmap. split.
  - intros ([k l'] & -> & Hin). exists k. by apply elem_of_map_to_list.
  - intros [k Hk]. exists (k, l). split; [done|]. by apply elem_of_map_to_list.
Qed.

Lemma startStep_eq oldList w l :
  startStep oldList w l
  = mkWorld (heap w) (pool w) (next w)
      (trace w ++ if absent (heap w) oldList l && watched (heap w) l
                  then startEvents (heap w !!! l) else []).
Proof.
  unfold startStep, watched. destruct (absent (heap w) oldList l); simpl.
  - destruct (uid _ =? watchedUID); simpl.
    + unfold emit. simpl. by rewrite <- !app_assoc.
    + destruct w. simpl. by rewrite app_nil_r.
  - destruct w. simpl. by rewrite app_nil_r.
Qed.

Lemma endStep_eq newList w l :
  endStep newList w l
  = mkWorld (heap w)
      (if absent (heap w) newList l then pool w else l :: pool w) (next w)
      (trace w ++ if absent (heap w) newList l && watched (heap w) l
                  then [EvGo (SummaryTask l)] else []).
Proof.
  unfold endStep, watched. destruct (absent (heap w) newList l); simpl.
  - destruct (uid _ =? watchedUID); simpl; [done|].
    destruct w. simpl. by rewrite app_nil_r.
  - unfold poolPut. by rewrite app_nil_r.
Qed.

(** The first loop: the heap and the pool stay, and the trace grows by the
    events of the new sessions of the watched owner, in the order of the
    loop. *)
Lemma fold_startStep oldList ls w :
  fold_left (startStep oldList) ls w
  = mkWorld (heap w) (pool w) (next w)
      (trace w ++ flat_map (λ l, startEvents (heap w !!! l))
                    (List.filter (watched (heap w))
                       (List.filter (absent (heap w) oldList) ls))).
Proof.
  revert w. induction ls as [|l ls IH]; intros w.
  - simpl. destruct w; simpl. by rewrite app_nil_r.
  - cbn [fold_left]. rewrite IH, startStep_eq. cbn [heap pool next trace].
    f_equal. rewrite <- app_assoc. f_equal. cbn [List.filter].
    destruct (absent (heap w) oldList l); cbn [andb List.filter]; [|done].
    destruct (watched (heap w) l); done.
Qed.

(** The second loop: the sessions found in both maps go back to the pool,
    and the trace grows by a goroutine for every ended session of the
    watched owner. *)
Lemma fold_endStep newList ls w :
  fold_left (endStep newList) ls w
  = mkWorld (heap w)
      (rev (List.filter (λ l, negb (absent (heap w) newList l)) ls) ++ pool w)
      (next w)
      (trace w ++ ((λ l, EvGo (SummaryTask l))
                   <$> List.filter (watched (heap w))
                         (List.filter (absent (heap w) newList) ls))).
Proof.
  revert w. induction ls as [|l ls IH]; intros w.
  - simpl. destruct w; simpl. by rewrite app_nil_r.
  - cbn [fold_left]. rewrite IH, endStep_eq. cbn [heap pool next trace].
    cbn [List.filter]. destruct (absent (heap w) newList l); cbn [andb negb List.filter].
    + f_equal. rewrite <- app_assoc. f_equal.
      destruct (watched (heap w) l); done.
    + f_equal; [|by rewrite app_nil_r]. cbn [rev]. by rewrite <- app_assoc.
Qed.

(** What the two loops do to the world, in terms of the three lists. *)
Lemma diffLoops_eq oldList newList w :
  diffLoops oldList newList w
  = mkWorld (heap w) (rev (kept (heap w) oldList newList) ++ pool w) (next w)
      (trace w
       ++ flat_map (λ l, startEvents (heap w !!! l))
            (List.filter (watched (heap w)) (started (heap w) oldList newList))
       ++ ((λ l, EvGo (SummaryTask l))
             <$> List.filter (watched (heap w)) (ended (heap w) oldList newList))).
Proof.
  unfold diffLoops. rewrite fold_endStep, fold_startStep. cbn [heap pool next trace].
  by rewrite <- app_assoc.
Qed.

Lemma elem_of_ids h ls x :
  x ∈ ids h ls ↔ ∃ l, l ∈ ls ∧ liveID (h !!! l) = x.
Proof.
  unfold ids. rewrite elem_of_list_to_set, list_elem_of_fmap.
  split; intros (l & H1 & H2); exists l; by split.
Qed.

Lemma elem_of_filter_bool {A} (f : A → bool) (ls : list A) x :
  x ∈ List.filter f ls ↔ x ∈ ls ∧ f x = true.
Proof. rewrite !list_elem_of_In. apply filter_In. Qed.

Lemma absent_keyed h m m' k l :
  keyed h m' → m' !! k = Some l → absent h m l = true ↔ k ∉ dom m.
Proof.
  intros Hk Hl. unfold absent. rewrite (Hk k l Hl), not_elem_of_dom.
  destruct (m !! k); split; intros; congruence.
Qed.

Lemma ids_started h oldList newList :
  keyed h newList →
  ids h (started h oldList newList) = dom newList ∖ dom oldList.
Proof.
  intros Hn. apply set_eq. intros x.
  rewrite elem_of_ids, elem_of_difference. unfold started. split.
  - intros (l & [Hl Ha]%elem_of_filter_bool & <-).
    apply elem_of_range in Hl as [k Hk].
    rewrite (Hn k l Hk). split; [by apply elem_of_dom_2 in Hk|].
    by apply (absent_keyed h oldList newList k l).
  - intros [[l Hl]%elem_of_dom Hx]. exists l. split; [|by apply Hn].
    apply elem_of_filter_bool. split; [apply elem_of_range; eauto|].
    by apply (absent_keyed h oldList newList x l).
Qed.

Lemma ids_ended h oldList newList :
  keyed h oldList →
  ids h (ended h oldList newList) = dom oldList ∖ dom newList.
Proof. apply ids_started. Qed.

Lemma ids_kept h oldList newList :
  keyed h oldList →
  ids h (kept h oldList newList) = dom oldList ∩ dom newList.
Proof.
  intros Ho. apply set_eq. intros x.
  rewrite elem_of_ids, elem_of_intersection. unfold kept. split.
  - intros (l & [Hl Ha]%elem_of_filter_bool & <-).
    apply elem_of_range in Hl as [k Hk].
    rewrite (Ho k l Hk). split; [by apply elem_of_dom_2 in Hk|].
    destruct (decide (k ∈ dom newList)) as [|Hn]; [done|].
    apply (absent_keyed h newList oldList k l Ho Hk) in Hn.
    rewrite Hn in Ha. done.
  - intros [[l Hl]%elem_of_dom Hx]. exists l. split; [|by apply Ho].
    apply elem_of_filter_bool. split; [apply elem_of_range; eauto|].
    destruct (absent h newList l) eqn:Ha; [|done].
    apply (absent_keyed h newList oldList x l Ho Hl) in Ha. done.
Qed.

(** C1. For two snapshots keyed by [liveID], the sessions the first loop
    takes as new are the ones of [newList] whose id [oldList] does not have,
    the sessions the second loop takes as ended are the ones of [oldList]
    whose id [newList] does not have, and the ones it finds in both are the
    common ids. New and ended are disjoint, and the three together are the
    ids of the two snapshots. The loops change no session and allocate
    none; what they add to the trace is the events of the new and of the
    ended sessions of the watched owner. *)
Theorem diff_partitions w oldList newList :
  keyed (heap w) oldList → keyed (heap w) newList →
  let h := heap w in
  let S := ids h (started h oldList newList) in
  let E := ids h (ended h oldList newList) in
  let K := ids h (kept h oldList newList) in
  (S = dom newList ∖ dom oldList ∧ E = dom oldList ∖ dom newList
   ∧ K = dom oldList ∩ dom newList)
  ∧ S ## E
  ∧ S ∪ K ∪ E = dom oldList ∪ dom newList
  ∧ heap (diffLoops oldList newList w) = h
  ∧ next (diffLoops oldList newList w) = next w
  ∧ trace (diffLoops oldList newList w)
    = trace w
      ++ flat_map (λ l, startEvents (h !!! l))
           (List.filter (watched h) (started h oldList newList))
      ++ ((λ l, EvGo (SummaryTask l))
            <$> List.filter (watched h) (ended h oldList newList)).
Proof.
  intros Ho Hn h S E K.
  assert (S = dom newList ∖ dom oldList) as HS by by apply ids_started.
  assert (E = dom oldList ∖ dom newList) as HE by by apply ids_ended.
  assert (K = dom oldList ∩ dom newList) as HK by by apply ids_kept.
  split; [done|]. rewrite HS, HE, HK. split; [|split].
  - intros x [_ Hx]%elem_of_difference [Hx' _]%elem_of_difference. done.
  - apply set_eq. intros x.
    rewrite !elem_of_union, !elem_of_difference, elem_of_intersection.
    destruct (decide (x ∈ dom oldList)); destruct (decide (x ∈ dom newList)); tauto.
  - by rewrite diffLoops_eq.
Qed.

Lemma diff_partitions_witness :
  let h := heap fetched2.2 in
  let S := ids h (started h fetched1.1.1 fetched2.1.1) in
  let E := ids h (ended h fetched1.1.1 fetched2.1.1) in
  let K := ids h (kept h fetched1.1.1 fetched2.1.1) in
  S ## E ∧ S ∪ K ∪ E = dom fetched1.1.1 ∪ dom fetched2.1.1.
Proof.
  assert (keyed (heap fetched2.2) fetched1.1.1) as H1
    by (unfold keyed; apply (bool_decide_unpack _); vm_compute; exact I).
  assert (keyed (heap fetched2.2) fetched2.1.1) as H2
    by (unfold keyed; apply (bool_decide_unpack _); vm_compute; exact I).
  destruct (diff_partitions fetched2.2 fetched1.1.1 fetched2.1.1 H1 H2)
    as (_ & Hd & Hc & _).
  split; assumption.
Defined.

(** What the fixture looks like: "B" started, "A" ended, "X" is in both. *)
Example diff_of_the_snapshots :
  let h := heap fetched2.2 in
  elements (ids h (started h fetched1.1.1 fetched2.1.1)) = ["B"]
  ∧ elements (ids h (ended h fetched1.1.1 fetched2.1.1)) = ["A"]
  ∧ elements (ids h (kept h fetched1.1.1 fetched2.1.1)) = ["X"].
Proof. vm_compute. done. Qed.

(** *** [fetchLiveList] keys its map by [liveID] *)

Lemma poolGet_spec w :
  poolOk w →
  poolOk (poolGet w).2
  ∧ ((poolGet w).1 ∉ pool (poolGet w).2)
  ∧ ((poolGet w).1 < next (poolGet w).2)%nat
  ∧ (next w ≤ next (poolGet w).2)%nat
  ∧ ((poolGet w).1 ∈ pool w ∨ (poolGet w).1 = next w)
  ∧ (∀ l, l ∈ pool (poolGet w).2 → l ∈ pool w)
  ∧ (∀ l, l ≠ (poolGet w).1 → heap (poolGet w).2 !!! l = heap w !!! l).
Proof.
  intros [Hnd Hlt]. unfold poolGet, poolOk.
  destruct (pool w) as [|l rest] eqn:Hp; simpl.
  - split; [split; [apply NoDup_nil_2|apply Forall_nil_2]|].
    split; [apply not_elem_of_nil|]. split; [lia|]. split; [lia|].
    split; [by right|]. split; [done|].
    intros l Hl. by rewrite lookup_total_insert_ne.
  - apply NoDup_cons in Hnd as [Hl Hnd]. apply Forall_cons in Hlt as [Hl' Hlt].
    split; [done|]. split; [done|]. split; [done|]. split; [done|].
    split; [left; apply list_elem_of_here|].
    split; [|done]. intros l' Hl''. by apply list_elem_of_further.
Qed.

Lemma addRoom_keyed m w room :
  poolOk w → inUse w m → keyed (heap w) m →
  poolOk (addRoom (m, w) room).2
  ∧ inUse (addRoom (m, w) room).2 (addRoom (m, w) room).1
  ∧ keyed (heap (addRoom (m, w) room).2) (addRoom (m, w) room).1.
Proof.
  intros Hok Huse Hkey. rewrite addRoom_eq. cbn [fst snd].
  destruct (poolGet_spec w Hok) as (Hok' & Hnin & Hlt & Hnext & Hfrom & Hsub & Hheap).
  set (l := (poolGet w).1) in *. set (w1 := (poolGet w).2) in *.
  assert (∀ k l', m !! k = Some l' → l' ≠ l) as Hfresh.
  { intros k l' Hk ->. destruct (Huse k l Hk) as [Hp Hn].
    destruct Hfrom as [Hin | Heq]; [done|lia]. }
  split; [done|]. split.
  - intros k l'. rewrite lookup_insert. case_decide.
    + intros [= <-]. done.
    + intros Hk. destruct (Huse k l' Hk) as [Hp Hn]. split.
      * intros Hin. apply Hp. by apply Hsub.
      * simpl. lia.
  - intros k l'. rewrite lookup_insert, heap_store. case_decide as Hk.
    + intros [= <-]. by rewrite decide_True.
    + intros Hl'. rewrite decide_False by (intros Heq; by eapply Hfresh).
      rewrite Hheap by (by eapply Hfresh). by apply Hkey.
Qed.

Lemma fold_addRoom_keyed rooms m w :
  poolOk w → inUse w m → keyed (heap w) m →
  poolOk (fold_left addRoom rooms (m, w)).2
  ∧ inUse (fold_left addRoom rooms (m, w)).2 (fold_left addRoom rooms (m, w)).1
  ∧ keyed (heap (fold_left addRoom rooms (m, w)).2) (fold_left addRoom rooms (m, w)).1.
Proof.
  revert m w. induction rooms as [|room rooms IH]; intros m w Hok Huse Hkey; [done|].
  cbn [fold_left]. destruct (addRoom_keyed m w room Hok Huse Hkey) as (H1 & H2 & H3).
  destruct (addRoom (m, w) room) as [m1 w1]. by apply IH.
Qed.

Lemma pool_requestAll cs w :
  pool (requestAll cs w) = pool w ∧ next (requestAll cs w) = next w
  ∧ heap (requestAll cs w) = heap w.
Proof.
  revert w. induction cs as [|c cs IH]; intros w; [done|].
  unfold requestAll in *. cbn [fold_left]. by destruct (IH (emit (EvListRequest c) w)) as (-> & -> & ->).
Qed.

(** The map [fetchLiveList] returns maps every key to a session with that
    [liveID], when the pool holds every object once. *)
Lemma fetchLiveList_keyed up w :
  poolOk w →
  poolOk (fetchLiveList up w).2
  ∧ inUse (fetchLiveList up w).2 (fetchLiveList up w).1.1
  ∧ keyed (heap (fetchLiveList up w).2) (fetchLiveList up w).1.1.
Proof.
  intros Hok. unfold fetchLiveList, fetchLiveList_fuel, fetchLiveList_body.
  destruct (escalate_run up 5 None w) as (res & -> & k & _ & Hw & _); [done|].
  destruct (pool_requestAll (take k pageSizes) w) as (Hp & Hn & Hh).
  assert (poolOk res.2) as Hok1.
  { rewrite Hw. unfold poolOk. by rewrite Hp, Hn. }
  destruct res as [[v|e] w1]; simpl in *.
  - pose proof (fold_addRoom_keyed (GetArray v ["liveList"]) ∅ w1 Hok1) as Hf.
    destruct (fold_left addRoom _ _) as [lst w2]. simpl in *.
    apply Hf; intros ?? Hl; by rewrite lookup_empty in Hl.
  - split; [done|]. split; intros ?? Hl; by rewrite lookup_empty in Hl.
Qed.

(** ** Traces of the retry executor *)

Section RunThriceInversion.
Context {S : Type} `{Runtime S}.
Implicit Types (f : S -> option error * S) (s : S).

(** [runThrice] fails only when the operation failed three times in a row. *)
Lemma runThrice_error f s e s' :
  runThrice f s = (Some e, s') →
  ∃ e1 s1 e2 s2 e3 s3,
    f s = (Some e1, s1)
    ∧ f (backoff e1 s1) = (Some e2, s2)
    ∧ f (backoff e2 s2) = (Some e3, s3)
    ∧ e = ErrThrice (Some e3) ∧ s' = backoff e3 s3.
Proof.
  unfold runThrice, backoff. cbn [runThrice_loop].
  destruct (f s) as [[e1|] s1]; [|done].
  destruct (f (timeSleep 10 (logPrintf (LogError e1) s1))) as [[e2|] s2] eqn:H2; [|done].
  destruct (f (timeSleep 10 (logPrintf (LogError e2) s2))) as [[e3|] s3] eqn:H3; [|done].
  intros [= <- <-]. by exists e1, s1, e2, s2, e3, s3.
Qed.

(** [runThrice] succeeds with the state some invocation left. *)
Lemma runThrice_ok f s s' :
  runThrice f s = (None, s') → ∃ s0, f s0 = (None, s').
Proof.
  unfold runThrice. cbn [runThrice_loop].
  destruct (f s) as [[e1|] s1] eqn:H1; [|intros [= <-]; eauto].
  destruct (f (timeSleep 10 (logPrintf (LogError e1) s1))) as [[e2|] s2] eqn:H2;
    [|intros [= <-]; eauto].
  destruct (f (timeSleep 10 (logPrintf (LogError e2) s2))) as [[e3|] s3] eqn:H3;
    [done|intros [= <-]; eauto].
Qed.

(** A relation between states that the operation, the logger and the clock
    keep is kept by [runThrice]. *)
Lemma runThrice_loop_preserves (R : S → S → Prop) n f err s :
  (∀ s1, R s1 s1) →
  (∀ s1 s2 s3, R s1 s2 → R s2 s3 → R s1 s3) →
  (∀ s1, R s1 (f s1).2) →
  (∀ m s1, R s1 (logPrintf m s1)) →
  (∀ d s1, R s1 (timeSleep d s1)) →
  R s (runThrice_loop n f err s).2.
Proof.
  intros Hrefl Htrans Hf Hlog Hsleep. revert err s.
  induction n as [|n IH]; intros err s; cbn [runThrice_loop]; [apply Hrefl|].
  pose proof (Hf s) as Hs. destruct (f s) as [[e|] s1]; cbn [snd] in *; [|done].
  eapply Htrans; [exact Hs|]. eapply Htrans; [apply Hlog|].
  eapply Htrans; [apply Hsleep|]. apply IH.
Qed.

End RunThriceInversion.

Lemma grows_refl P w : grows P w w.
Proof. exists []. by rewrite app_nil_r. Qed.

Lemma grows_trans P w1 w2 w3 : grows P w1 w2 → grows P w2 w3 → grows P w1 w3.
Proof.
  intros (evs1 & H1 & F1) (evs2 & H2 & F2). exists (evs1 ++ evs2).
  split; [by rewrite H2, H1, app_assoc|]. by apply Forall_app.
Qed.

Lemma grows_emit (P : event → Prop) e w : P e → grows P w (emit e w).
Proof. intros He. exists [e]. split; [done|]. by constructor. Qed.

(** [runThrice] over a closure: the trace grows by what the closure adds,
    by log lines and by sleeps. *)
Lemma runThrice_grows {A} (P : event → Prop)
    (f : A * world → option error * (A * world)) (s : A * world) :
  (∀ s1, grows P s1.2 (f s1).2.2) →
  (∀ m, P (EvLog m)) → (∀ d, P (EvSleep d)) →
  grows P s.2 (runThrice f s).2.2.
Proof.
  intros Hf Hlog Hsleep. unfold runThrice.
  apply (runThrice_loop_preserves (λ s1 s2, grows P s1.2 s2.2)).
  - intros. apply grows_refl.
  - intros ???. apply grows_trans.
  - done.
  - intros m s1. cbn [logPrintf captured_runtime world_runtime snd]. by apply grows_emit.
  - intros d s1. cbn [timeSleep captured_runtime world_runtime snd]. by apply grows_emit.
Qed.

(** ** The goroutines *)

Lemma emit_emitAll e w : emit e w = emitAll [e] w.
Proof. done. Qed.

Lemma emitAll_emitAll evs1 evs2 w :
  emitAll evs2 (emitAll evs1 w) = emitAll (evs1 ++ evs2) w.
Proof. unfold emitAll. cbn [heap pool next trace]. by rewrite app_assoc. Qed.

Lemma heap_emitAll evs w : heap (emitAll evs w) = heap w.
Proof. done. Qed.

Lemma grows_emitAll (P : event → Prop) evs w : Forall P evs → grows P w (emitAll evs w).
Proof. intros Hall. by exists evs. Qed.

(** Bring nested [emit]s to one [emitAll]. *)
Ltac flatten_emits :=
  unfold backoff in *;
  cbn [fst snd timeSleep logPrintf captured_runtime world_runtime] in *;
  rewrite ?emit_emitAll in *;
  rewrite ?emitAll_emitAll, ?heap_emitAll in *;
  cbn [app] in *.

Section Replay.
Context {DB : Type} (ins : live → DB → DB) (upc upd : string → Z → DB → DB).

Lemma replay_app tr evs db :
  replay DB ins upc upd (tr ++ evs) db
  = replay DB ins upc upd evs (replay DB ins upc upd tr db).
Proof. apply fold_left_app. Qed.

(** Quiet events leave the store as it is. *)
Lemma replay_quiet evs db :
  Forall quiet evs → replay DB ins upc upd evs db = db.
Proof.
  revert db. induction evs as [|e evs IH]; intros db Hq; [done|].
  apply Forall_cons in Hq as [He Hq].
  unfold replay in *. cbn [fold_left]. rewrite IH by done.
  by destruct e.
Qed.

Lemma replay_grows w w' db :
  grows quiet w w' →
  replay DB ins upc upd (trace w') db = replay DB ins upc upd (trace w) db.
Proof. intros (evs & -> & Hq). by rewrite replay_app, replay_quiet. Qed.

End Replay.

Lemma fetchCutOp_world up u id s :
  (fetchCutOp up u id s).2.2 = emit (EvCutRequest u id) s.2.
Proof.
  unfold fetchCutOp. pose proof (fetchLiveCut_trace up u id s.2) as Ht.
  destruct (fetchLiveCut up u id s.2) as [[n e] w1]. done.
Qed.

Lemma getSummaryOp_world up l s :
  (getSummaryOp up l s).2.2 = emit (EvGetSummary (liveID (heap s.2 !!! l))) s.2.
Proof. unfold getSummaryOp. by destruct (GetSummary _ _ _). Qed.

Lemma threeFailures_quiet req e1 e2 e3 :
  quiet req → Forall quiet (threeFailures req e1 e2 e3).
Proof. intros Hq. unfold threeFailures. repeat constructor; done. Qed.



Lemma getSummaryOp_grows up l s : grows quiet s.2 (getSummaryOp up l s).2.2.
Proof. rewrite getSummaryOp_world. by apply grows_emit. Qed.

Lemma getSummaryOp_heap up l s : heap (getSummaryOp up l s).2.2 = heap s.2.
Proof. by rewrite getSummaryOp_world. Qed.

Lemma sameObjects_emit e w : sameObjects w (emit e w).
Proof. done. Qed.

Lemma runThrice_sameObjects {A} (f : A * world → option error * (A * world))
    (s : A * world) :
  (∀ s1, sameObjects s1.2 (f s1).2.2) →
  sameObjects s.2 (runThrice f s).2.2.
Proof.
  intros Hf. unfold runThrice.
  apply (runThrice_loop_preserves (λ s1 s2, sameObjects s1.2 s2.2)); try done.
  intros ??? (H1 & H2 & H3) (H4 & H5 & H6). unfold sameObjects.
  by rewrite H4, H5, H6.
Qed.

Lemma getSummaryOp_sameObjects up l s : sameObjects s.2 (getSummaryOp up l s).2.2.
Proof. rewrite getSummaryOp_world. apply sameObjects_emit. Qed.

(** The summary goroutine when the lookup succeeds. *)
Lemma summaryTask_found up l w sm w1 :
  runThrice (getSummaryOp up l) (None, timeSleep 10 w) = (None, (Some sm, w1)) →
  sameObjects w w1
  ∧ grows quiet w w1
  ∧ (∃ w0, w1 = emit (EvGetSummary (liveID (heap w !!! l))) w0)
  ∧ summaryTask up l w
    = poolPut l
        (if Duration sm =? 0
         then logPrintf (LogZeroDuration (name (heap w !!! l)) (uid (heap w !!! l))
                           (liveID (heap w !!! l))) w1
         else emit (EvUpdateLiveDuration (liveID (heap w !!! l)) (Duration sm))
                (emit (EvInsert (heap w !!! l)) w1)).
Proof.
  intros Hr.
  pose proof (runThrice_sameObjects (getSummaryOp up l) (None, timeSleep 10 w)
                (getSummaryOp_sameObjects up l)) as Hh.
  pose proof (runThrice_grows quiet (getSummaryOp up l) (None, timeSleep 10 w)
                (getSummaryOp_grows up l) ltac:(done) ltac:(done)) as Hg.
  rewrite Hr in Hh, Hg. cbn [fst snd] in Hh, Hg.
  destruct Hh as (Hh & Hpool & Hnext).
  change (heap (timeSleep 10 w)) with (heap w) in Hh.
  change (pool (timeSleep 10 w)) with (pool w) in Hpool.
  change (next (timeSleep 10 w)) with (next w) in Hnext.
  split; [done|]. split.
  { eapply grows_trans; [|exact Hg]. by apply (grows_emit quiet). }
  split.
  { apply runThrice_ok in Hr as [s0 Hs0].
    pose proof (getSummaryOp_world up l s0) as Hw0.
    pose proof (getSummaryOp_heap up l s0) as Hh0.
    rewrite Hs0 in Hw0, Hh0. cbn [fst snd] in Hw0, Hh0.
    exists s0.2. rewrite Hw0. by rewrite <- Hh0, Hh. }
  unfold summaryTask. rewrite Hr, Hh. done.
Qed.

(** C6. When the lookup of the summary succeeds and reports the duration 0,
    the goroutine logs the line about the duration right after the lookup
    that succeeded and ends: every event it adds is quiet (no [insert], no
    [updateLiveDuration], no goroutine), the session is not changed and
    goes back to the pool, and the store is as it was. *)
Theorem summaryTask_zero_duration up l w sm w1 :
  runThrice (getSummaryOp up l) (None, timeSleep 10 w) = (None, (Some sm, w1)) →
  Duration sm = 0 →
  let v := heap w !!! l in
  let w' := summaryTask up l w in
  (∃ w0, trace w' = trace w0 ++ [EvGetSummary (liveID v);
                                 EvLog (LogZeroDuration (name v) (uid v) (liveID v))])
  ∧ grows quiet w w'
  ∧ heap w' = heap w ∧ pool w' = l :: pool w
  ∧ ∀ DB ins upc upd (db : DB),
      replay DB ins upc upd (trace w') db = replay DB ins upc upd (trace w) db.
Proof.
  intros Hr Hd v w'.
  destruct (summaryTask_found up l w sm w1 Hr)
    as ((Hh & Hpool & _) & Hg & [w0 Hlast] & Heq).
  rewrite Hd in Heq. cbn [Z.eqb] in Heq. subst w'. rewrite Heq.
  assert (grows quiet w (poolPut l (logPrintf (LogZeroDuration (name v) (uid v) (liveID v)) w1)))
    as Hg'.
  { eapply grows_trans; [exact Hg|]. by apply (grows_emit quiet). }
  split.
  { exists w0. rewrite Hlast. cbn [poolPut logPrintf world_runtime emit trace].
    by rewrite <- app_assoc. }
  split; [done|]. split; [exact Hh|]. split; [by rewrite <- Hpool|].
  intros. by apply replay_grows.
Qed.

Lemma summaryTask_zero_duration_witness :
  let w := fetched2.2 in
  let w' := summaryTask (summaryPlatform 0) 0%nat w in
  (∃ w0, trace w' = trace w0 ++ [EvGetSummary "A"; EvLog (LogZeroDuration "js" 646973 "A")])
  ∧ heap w' = heap w.
Proof.
  intros w w'.
  destruct (summaryTask_zero_duration (summaryPlatform 0) 0%nat w (mkSummary 0)
              (emit (EvGetSummary "A") (timeSleep 10 w)))
    as (Ht & _ & Hh & _).
  - vm_compute. reflexivity.
  - reflexivity.
  - split; [|exact Hh]. exact Ht.
Defined.

(** ** One round of the polling loop *)

Lemma roomIds_cons room rooms :
  roomIds (room :: rooms) = {[liveID (roomLive room)]} ∪ roomIds rooms.
Proof. done. Qed.

Lemma roomIds_nil : roomIds [] = ∅.
Proof. done. Qed.

Lemma fold_addRoom_dom rooms m w :
  dom (fold_left addRoom rooms (m, w)).1 = dom m ∪ roomIds rooms.
Proof.
  revert m w. induction rooms as [|room rooms IH]; intros m w.
  - cbn [fold_left fst]. by rewrite roomIds_nil, union_empty_r_L.
  - cbn [fold_left]. rewrite addRoom_eq, IH, dom_insert_L, roomIds_cons.
    by rewrite (assoc_L (∪) (dom m)), (comm_L (∪) (dom m)).
Qed.

(** A successful [fetchLiveList] returns every session of the last answer,
    whoever owns it. *)
Lemma fetchLiveList_dom up w :
  (fetchLiveList up w).1.2 = None →
  ∃ k body v0,
    (1 ≤ k ≤ 5)%nat ∧ answer up w (k - 1) = Parsed body v0
    ∧ dom (fetchLiveList up w).1.1
      = roomIds (GetArray (Get (Some v0) ["channelListData"]) ["liveList"]).
Proof.
  unfold fetchLiveList, fetchLiveList_fuel, fetchLiveList_body.
  destruct (escalate_run up 5 None w) as (res & -> & k & Hk & _ & _ & Hres); [done|].
  destruct res as [[v|e] w1]; cbn [fst snd] in *; [|done].
  destruct Hres as (_ & body & v0 & Ha & ->).
  pose proof (fold_addRoom_dom
                (GetArray (Get (Some v0) ["channelListData"]) ["liveList"]) ∅ w1) as Hd.
  destruct (fold_left addRoom _ _) as [lst w2]. cbn [fst snd] in *. intros _.
  exists k, body, v0. split; [done|]. split; [done|].
  by rewrite Hd, dom_empty_L, union_empty_l_L.
Qed.

Lemma fetchListOp_eq up s :
  fetchListOp up s
  = ((fetchLiveList up s.2).1.2, ((fetchLiveList up s.2).1.1, (fetchLiveList up s.2).2)).
Proof. unfold fetchListOp. by destruct (fetchLiveList up s.2) as [[lst e] w1]. Qed.

Lemma fetchListOp_grows up s : grows quiet s.2 (fetchListOp up s).2.2.
Proof.
  rewrite fetchListOp_eq. cbn [fst snd].
  destruct (fetchLiveList_run up s.2) as (k & _ & Ht & _).
  exists (EvListRequest <$> take k pageSizes). split; [done|].
  apply Forall_fmap, Forall_forall. done.
Qed.

Lemma pollOnce_eq up oldList w :
  pollOnce up oldList w
  = match (runThrice (fetchListOp up) (∅, w)).1 with
    | Some _ =>
        (None, logPrintf LogListGivenUp (runThrice (fetchListOp up) (∅, w)).2.2)
    | None =>
        (Some (runThrice (fetchListOp up) (∅, w)).2.1,
         timeSleep 20
           (diffLoops oldList (runThrice (fetchListOp up) (∅, w)).2.1
              (runThrice (fetchListOp up) (∅, w)).2.2))
    end.
Proof.
  unfold pollOnce. by destruct (runThrice (fetchListOp up) (∅, w)) as [[e|] [lst w1]].
Qed.

Lemma diffLoops_trace oldList newList w :
  trace (diffLoops oldList newList w)
  = trace w ++ diffEvents (heap w) oldList newList.
Proof. by rewrite diffLoops_eq. Qed.

Lemma diffLoops_heap oldList newList w :
  heap (diffLoops oldList newList w) = heap w.
Proof. by rewrite diffLoops_eq. Qed.

(** Every event of the two loops is about a session of the watched owner. *)
Lemma diffEvents_owner h oldList newList e u :
  e ∈ diffEvents h oldList newList → eventOwner h e = Some u → u = watchedUID.
Proof.
  unfold diffEvents. rewrite elem_of_app. intros [He|He].
  - apply list_elem_of_In, in_flat_map in He as (l & Hl & He).
    apply filter_In in Hl as [_ Hw]. unfold watched in Hw. apply Z.eqb_eq in Hw.
    unfold startEvents in He. cbn [In] in He.
    destruct He as [<-|[<-|[<-|[]]]]; cbn [eventOwner]; congruence.
  - apply list_elem_of_fmap in He as (l & -> & Hl).
    apply list_elem_of_In, filter_In in Hl as [_ Hw].
    unfold watched in Hw. apply Z.eqb_eq in Hw. cbn [eventOwner]. congruence.
Qed.

Lemma quiet_owner h e : quiet e → eventOwner h e = None.
Proof. by destruct e as [| | | | | | | | |[]|]. Qed.

Lemma mainLoop_step rounds done i up oldList w :
  done i = false →
  mainLoop (Datatypes.S rounds) done i up oldList w
  = match pollOnce up oldList w with
    | (None, w1) => (Returned, w1)
    | (Some newList, w1) => mainLoop rounds done (Datatypes.S i) up newList w1
    end.
Proof. intros Hd. cbn [mainLoop]. by rewrite Hd. Qed.

(** C8. A round of the loop that gets its snapshot keeps all of it as the
    next [oldList]: the map is the one [fetchLiveList] returned, with every
    session of the answer, whoever owns it. Every event of the round that
    writes to the store or starts a goroutine is about a session of the
    owner 646973: for a session of another owner there is no [insert], no
    cut-number goroutine and no summary goroutine, be it new or ended. *)
Theorem pollOnce_unwatched up oldList w newList w' :
  pollOnce up oldList w = (Some newList, w') →
  (∃ w0 k body v0,
     (fetchLiveList up w0).1 = (newList, None)
     ∧ heap w' = heap (fetchLiveList up w0).2
     ∧ answer up w0 (k - 1) = Parsed body v0
     ∧ dom newList = roomIds (GetArray (Get (Some v0) ["channelListData"]) ["liveList"]))
  ∧ (∀ rounds done i, done i = false →
       mainLoop (Datatypes.S rounds) done i up oldList w
       = mainLoop rounds done (Datatypes.S i) up newList w')
  ∧ ∃ evs, trace w' = trace w ++ evs
      ∧ (∀ e u, e ∈ evs → eventOwner (heap w') e = Some u → u = watchedUID)
      ∧ (∀ l, uid (heap w' !!! l) ≠ watchedUID →
           (EvInsert (heap w' !!! l) ∉ evs)
           ∧ (EvGo (CutTask (uid (heap w' !!! l)) (liveID (heap w' !!! l))) ∉ evs)
           ∧ (EvGo (SummaryTask l) ∉ evs)).
Proof.
  intros Hp. pose proof Hp as Hp'. rewrite pollOnce_eq in Hp'.
  pose proof (runThrice_grows quiet (fetchListOp up) (∅, w)
                (fetchListOp_grows up) ltac:(done) ltac:(done)) as Hg.
  destruct (runThrice (fetchListOp up) (∅, w)) as [[e|] [lst w1]] eqn:Hr; [done|].
  cbn [fst snd] in *. injection Hp' as <- <-.
  apply runThrice_ok in Hr as [s0 Hs0]. rewrite fetchListOp_eq in Hs0.
  injection Hs0 as He Hl Hw.
  assert (heap (emit (EvSleep 20) (diffLoops oldList lst w1)) = heap w1) as Hh
    by apply diffLoops_heap.
  split.
  { destruct (fetchLiveList_dom up s0.2 He) as (k & body & v0 & _ & Ha & Hd).
    exists s0.2, k, body, v0. rewrite Hl in Hd. rewrite Hw, Hh.
    split; [|done]. destruct (fetchLiveList up s0.2) as [[? ?] ?].
    cbn [fst snd] in *. congruence. }
  split.
  { intros rounds done i Hd. by rewrite mainLoop_step, Hp. }
  destruct Hg as (fevs & Hft & Hfq).
  exists (fevs ++ diffEvents (heap w1) oldList lst ++ [EvSleep 20]).
  assert (∀ e u, e ∈ fevs ++ diffEvents (heap w1) oldList lst ++ [EvSleep 20] →
                 eventOwner (heap w1) e = Some u → u = watchedUID) as Hown.
  { intros e u. rewrite !elem_of_app. intros [Hin|[Hin|Hin]].
    - rewrite Forall_forall in Hfq. rewrite (quiet_owner _ e (Hfq e Hin)). done.
    - by apply (diffEvents_owner _ oldList lst).
    - apply list_elem_of_singleton in Hin as ->. done. }
  rewrite Hh. split; [|split; [exact Hown|]].
  - cbn [timeSleep world_runtime emit trace]. rewrite diffLoops_trace, Hft.
    by rewrite <- !app_assoc.
  - intros l Hl'. repeat split; intros Hin; apply Hl'; by eapply Hown.
Qed.

Lemma pollOnce_unwatched_witness :
  ∃ evs, trace (pollOnce (listPlatform snapshot2) fetched1.1.1 fetched1.2).2
         = trace fetched1.2 ++ evs
    ∧ EvInsert (roomLive (roomOf "X" 7 "other")) ∉ evs.
Proof.
  destruct (pollOnce_unwatched (listPlatform snapshot2) fetched1.1.1 fetched1.2
              fetched2.1.1
              (pollOnce (listPlatform snapshot2) fetched1.1.1 fetched1.2).2)
    as (_ & _ & evs & Ht & _ & Hun).
  { vm_compute. reflexivity. }
  exists evs. split; [exact Ht|].
  refine (proj1 (Hun 2%nat _)). vm_compute. discriminate.
Defined.

(** ** The pool across the rounds of the loop *)

(** A keyed map points to every session once. *)
Lemma NoDup_range_keyed h m : keyed h m → NoDup (range m).
Proof.
  intros Hk. unfold range. apply NoDup_fmap_2_strong; [|apply NoDup_map_to_list].
  intros [k1 l1] [k2 l2] H1%elem_of_map_to_list H2%elem_of_map_to_list Heq.
  cbn [snd] in Heq. subst l2. f_equal.
  by rewrite <- (Hk k1 l1 H1), <- (Hk k2 l1 H2).
Qed.

Lemma elem_of_rev {A} (x : A) (l : list A) : x ∈ rev l ↔ x ∈ l.
Proof. rewrite !list_elem_of_In. symmetry. apply in_rev. Qed.

Lemma recycles_refl w : recycles w w.
Proof. unfold recycles. auto. Qed.

Lemma recycles_trans w1 w2 w3 : recycles w1 w2 → recycles w2 w3 → recycles w1 w3.
Proof.
  intros (Hn1 & Hp1 & Hh1) (Hn2 & Hp2 & Hh2). split; [lia|]. split; [auto|].
  intros l Hl Hlt. rewrite Hh2, Hh1; [done..| |lia].
  intros Hin. by apply Hl, Hp1.
Qed.

Lemma sameObjects_recycles w w' : sameObjects w w' → recycles w w'.
Proof. intros (Hh & Hp & Hn). unfold recycles. rewrite Hh, Hp, Hn. auto. Qed.

Lemma addRoom_recycles m w room :
  poolOk w →
  recycles w (addRoom (m, w) room).2
  ∧ (∀ k l, (addRoom (m, w) room).1 !! k = Some l →
            m !! k = Some l ∨ l ∈ pool w ∨ (next w ≤ l)%nat).
Proof.
  intros Hok. rewrite addRoom_eq. cbn [fst snd].
  destruct (poolGet_spec w Hok) as (_ & _ & _ & Hnext & Hfrom & Hsub & Hheap).
  assert (∀ l, l ∉ pool w → (l < next w)%nat → l ≠ (poolGet w).1) as Hfresh.
  { intros l Hl Hlt Heq. subst l. destruct Hfrom as [Hin|Heq]; [done|lia]. }
  split.
  - split; [done|]. split; [done|].
    intros l Hl Hlt. pose proof (Hfresh l Hl Hlt) as Hne.
    rewrite heap_store, decide_False by done. by apply Hheap.
  - intros k l. rewrite lookup_insert. case_decide; [|by left].
    intros [= <-]. right. destruct Hfrom as [Hin|Heq]; [by left|right; lia].
Qed.

Lemma fold_addRoom_recycles rooms m w :
  poolOk w → inUse w m → keyed (heap w) m →
  recycles w (fold_left addRoom rooms (m, w)).2
  ∧ (∀ k l, (fold_left addRoom rooms (m, w)).1 !! k = Some l →
            m !! k = Some l ∨ l ∈ pool w ∨ (next w ≤ l)%nat).
Proof.
  revert m w. induction rooms as [|room rooms IH]; intros m w Hok Huse Hkey.
  - split; [apply recycles_refl|]. intros k l Hl. by left.
  - cbn [fold_left].
    destruct (addRoom_keyed m w room Hok Huse Hkey) as (Hok1 & Huse1 & Hkey1).
    destruct (addRoom_recycles m w room Hok) as (Hrec1 & Horig1).
    destruct (addRoom (m, w) room) as [m1 w1]. cbn [fst snd] in *.
    destruct (IH m1 w1 Hok1 Huse1 Hkey1) as (Hrec & Horig).
    split; [by eapply recycles_trans|].
    intros k l Hl. destruct (Horig k l Hl) as [H1|[H1|H1]].
    + by apply Horig1.
    + right. left. by apply Hrec1.
    + right. right. destruct Hrec1 as (Hn & _). lia.
Qed.

Lemma sameObjects_requestAll cs w : sameObjects w (requestAll cs w).
Proof.
  destruct (pool_requestAll cs w) as (Hp & Hn & Hh). by repeat split.
Qed.

(** A [fetchLiveList] that fails has touched no object. *)
Lemma fetchLiveList_failed up w :
  (fetchLiveList up w).1.2 ≠ None → sameObjects w (fetchLiveList up w).2.
Proof.
  unfold fetchLiveList, fetchLiveList_fuel, fetchLiveList_body.
  destruct (escalate_run up 5 None w) as (res & -> & k & _ & Hw & _); [done|].
  pose proof (sameObjects_requestAll (take k pageSizes) w) as Hsame.
  rewrite <- Hw in Hsame. destruct res as [[v|e] w1]; cbn [fst snd] in *; [|done].
  by destruct (fold_left addRoom _ _).
Qed.

(** [fetchLiveList] takes the objects of its map from the pool or
    allocates them, and leaves the others as they are. *)
Lemma fetchLiveList_recycles up w :
  poolOk w →
  recycles w (fetchLiveList up w).2
  ∧ (∀ k l, (fetchLiveList up w).1.1 !! k = Some l → l ∈ pool w ∨ (next w ≤ l)%nat).
Proof.
  intros Hok. unfold fetchLiveList, fetchLiveList_fuel, fetchLiveList_body.
  destruct (escalate_run up 5 None w) as (res & -> & k & _ & Hw & _); [done|].
  pose proof (sameObjects_requestAll (take k pageSizes) w) as Hsame.
  rewrite <- Hw in Hsame. destruct res as [[v|e] w1]; cbn [fst snd] in *.
  - assert (poolOk w1) as Hok1.
    { destruct Hsame as (Hh & Hp & Hn). unfold poolOk. by rewrite Hp, Hn. }
    destruct (fold_addRoom_recycles (GetArray v ["liveList"]) ∅ w1 Hok1)
      as (Hrec & Horig); [done|done|].
    destruct (fold_left addRoom _ _) as [lst w2]. cbn [fst snd] in *.
    split; [eapply recycles_trans; [by apply sameObjects_recycles|done]|].
    intros k' l Hl. destruct Hsame as (_ & Hp & Hn).
    destruct (Horig k' l Hl) as [H1|[H1|H1]].
    + by rewrite lookup_empty in H1.
    + left. by rewrite <- Hp.
    + right. by rewrite <- Hn.
  - split; [by apply sameObjects_recycles|].
    intros k' l Hl. by rewrite lookup_empty in Hl.
Qed.

(** [runThrice] succeeds from a state that the failed attempts, the logger
    and the clock lead to. *)
Lemma runThrice_ok_from {S : Type} `{Runtime S} (R : S → S → Prop)
    (f : S → option error * S) s s' :
  (∀ s1, R s1 s1) →
  (∀ s1 s2 s3, R s1 s2 → R s2 s3 → R s1 s3) →
  (∀ s1 e s2, f s1 = (Some e, s2) → R s1 s2) →
  (∀ m s1, R s1 (logPrintf m s1)) →
  (∀ d s1, R s1 (timeSleep d s1)) →
  runThrice f s = (None, s') →
  ∃ s0, R s s0 ∧ f s0 = (None, s').
Proof.
  intros Hrefl Htrans Hf Hlog Hsleep. unfold runThrice. cbn [runThrice_loop].
  assert (∀ s1 e s2, f s1 = (Some e, s2) →
                     R s1 (timeSleep 10 (logPrintf (LogError e) s2))) as Hstep.
  { intros s1 e s2 H1. eapply Htrans; [by eapply Hf|].
    eapply Htrans; [apply Hlog|apply Hsleep]. }
  destruct (f s) as [[e1|] s1] eqn:H1; [|intros [= <-]; eauto].
  destruct (f (timeSleep 10 (logPrintf (LogError e1) s1))) as [[e2|] s2] eqn:H2;
    [|intros [= <-]; eauto].
  destruct (f (timeSleep 10 (logPrintf (LogError e2) s2))) as [[e3|] s3] eqn:H3;
    [done|intros [= <-]].
  eexists. split; [|exact H3]. eapply Htrans; eauto.
Qed.

Lemma sameObjects_trans w1 w2 w3 :
  sameObjects w1 w2 → sameObjects w2 w3 → sameObjects w1 w3.
Proof.
  intros (H1 & H2 & H3) (H4 & H5 & H6). unfold sameObjects. by rewrite H4, H5, H6.
Qed.

Lemma roundInv_sameObjects w w' m : sameObjects w w' → roundInv w m → roundInv w' m.
Proof.
  intros (Hh & Hp & Hn). unfold roundInv, poolOk, inUse, keyed.
  by rewrite Hh, Hp, Hn.
Qed.

(** A round that gets its snapshot runs its two loops over two keyed
    maps, and leaves the world and the new map ready for the next round:
    the sessions kept from [oldList] go back to the pool, and none of them
    is a session of [newList]. *)
Lemma pollOnce_roundInv up oldList w newList w' :
  roundInv w oldList →
  pollOnce up oldList w = (Some newList, w') →
  keyed (heap w') oldList ∧ keyed (heap w') newList ∧ roundInv w' newList.
Proof.
  intros (Hok & Huse & Hkey) Hp. rewrite pollOnce_eq in Hp.
  destruct (runThrice (fetchListOp up) (∅, w)) as [[e|] [lst w1]] eqn:Hr; [done|].
  cbn [fst snd] in Hp. injection Hp as <- <-.
  apply (runThrice_ok_from (λ s1 s2, sameObjects s1.2 s2.2)) in Hr
    as (s0 & (Hh0 & Hp0 & Hn0) & Hs0); try done.
  2:{ intros ???. apply sameObjects_trans. }
  2:{ intros s1 e s2. rewrite fetchListOp_eq. intros [= He <-].
      apply fetchLiveList_failed. by rewrite He. }
  cbn [snd] in Hh0, Hp0, Hn0. rewrite fetchListOp_eq in Hs0.
  injection Hs0 as _ Hl Hw.
  assert (poolOk s0.2) as Hok0 by (unfold poolOk; by rewrite Hp0, Hn0).
  destruct (fetchLiveList_keyed up s0.2 Hok0) as (Hok1 & Huse1 & Hkey1).
  destruct (fetchLiveList_recycles up s0.2 Hok0) as ((Hnext & Hsub & Hheap) & Horig).
  rewrite Hl, Hw in *. rewrite Hp0, Hn0 in *. rewrite Hh0 in Hheap.
  assert (keyed (heap w1) oldList) as Hkey0.
  { intros k l Hkl. destruct (Huse k l Hkl) as [Hnp Hlt].
    rewrite Hheap by done. by apply Hkey. }
  assert (∀ l, l ∈ kept (heap w1) oldList lst → (l ∉ pool w) ∧ (l < next w)%nat) as Hkept.
  { intros l [Hl' _]%elem_of_filter_bool. apply elem_of_range in Hl' as [k Hk].
    by apply (Huse k l). }
  rewrite diffLoops_eq.
  split; [done|]. split; [done|]. split; [|split; [|done]].
  - split.
    + cbn [emit pool]. apply NoDup_app. split; [|split; [|by destruct Hok1]].
      * apply NoDup_ListNoDup, List.NoDup_rev, List.NoDup_filter, NoDup_ListNoDup.
        by eapply NoDup_range_keyed.
      * intros l Hl' Hin. apply (proj1 (elem_of_rev _ _)) in Hl'. destruct (Hkept l Hl') as [Hnp _].
        by apply Hnp, Hsub.
    + cbn [emit pool next]. apply Forall_app. split; [|by destruct Hok1].
      apply Forall_forall. intros l Hl'. apply (proj1 (elem_of_rev _ _)) in Hl'.
      destruct (Hkept l Hl') as [_ Hlt]. lia.
  - intros k l Hkl. cbn [emit pool next]. destruct (Huse1 k l Hkl) as [Hnp Hlt].
    split; [|done]. rewrite elem_of_app. intros [Hin|Hin]; [|done].
    apply (proj1 (elem_of_rev _ _)) in Hin.
    destruct (Hkept l Hin) as [Hnp' Hlt'].
    destruct (Horig k l Hkl) as [Hin'|Hge]; [done|lia].
Qed.

Lemma roundInv_start : roundInv emptyWorld ∅.
Proof.
  split; [split; [apply NoDup_nil_2|apply Forall_nil_2]|].
  split; apply map_Forall_empty.
Qed.

(** The invariant holds at the start of every round of the loop. *)
Lemma mainLoop_roundInv rounds done i up oldList w m w' :
  roundInv w oldList →
  mainLoop rounds done i up oldList w = (Polling m, w') →
  roundInv w' m.
Proof.
  revert i oldList w. induction rounds as [|rounds IH]; intros i oldList w Hinv.
  - cbn [mainLoop]. by intros [= <- <-].
  - cbn [mainLoop]. destruct (done i); [done|].
    destruct (pollOnce up oldList w) as [[newList|] w1] eqn:Hp; [|done].
    apply IH. by eapply pollOnce_roundInv.
Qed.

(** A round that gets its snapshot: the world after the fetch that
    succeeded, and what follows it. *)
Lemma pollOnce_success up oldList w newList w' :
  pollOnce up oldList w = (Some newList, w') →
  ∃ w0 fevs,
    (fetchLiveList up w0).1 = (newList, None)
    ∧ trace (fetchLiveList up w0).2 = trace w ++ fevs
    ∧ Forall quiet fevs
    ∧ w' = emit (EvSleep 20) (diffLoops oldList newList (fetchLiveList up w0).2).
Proof.
  intros Hp. rewrite pollOnce_eq in Hp.
  pose proof (runThrice_grows quiet (fetchListOp up) (∅, w)
                (fetchListOp_grows up) ltac:(done) ltac:(done)) as Hg.
  destruct (runThrice (fetchListOp up) (∅, w)) as [[e|] [lst w1]] eqn:Hr; [done|].
  cbn [fst snd] in *. injection Hp as <- <-.
  apply runThrice_ok in Hr as [s0 Hs0]. rewrite fetchListOp_eq in Hs0.
  injection Hs0 as He Hl Hw. destruct Hg as (fevs & Hft & Hfq).
  exists s0.2, fevs. rewrite Hw. split; [|done].
  destruct (fetchLiveList up s0.2) as [[? ?] ?]. cbn [fst snd] in *. congruence.
Qed.


(** ** Retries that run out *)




(** ** The playback lookup *)

Lemma nonEmpty_true s : nonEmpty s = true ↔ s ≠ EmptyString.
Proof.
  unfold nonEmpty. rewrite negb_true_iff. apply String.eqb_neq.
Qed.

Lemma nonEmpty_false s : nonEmpty s = false ↔ s = EmptyString.
Proof.
  unfold nonEmpty. rewrite negb_false_iff. apply String.eqb_eq.
Qed.

(** C7, as the spec states it, fails: when only one provider is found,
    [getPlayback] logs the warning and returns the recording as the lookup
    gave it; its URL field is not empty. *)
Lemma getPlayback_ambiguous_keeps_url :
  let r := getPlayback (playbackPlatform oneProvider primaryOnly) "A" emptyWorld in
  Distinguish (playbackPlatform oneProvider primaryOnly) oneProvider
  = ("https://alivod.example/rec.m3u8", "")
  ∧ r.1 = (Some oneProvider, None)
  ∧ trace r.2 = [EvGetPlayback "A"; EvLog (LogNoProviderURL "A")]
  ∧ ¬ (∀ pb, r.1.1 = Some pb → URL pb = EmptyString ∧ BackupURL pb = EmptyString).
Proof.
  vm_compute. split; [done|]. split; [done|]. split; [done|].
  intros H. destruct (H _ eq_refl) as [H1 _]. discriminate.
Qed.

(** C7, amended. After a successful lookup: when the recording has a URL
    and the classifier finds a URL of each provider, [getPlayback] returns
    the primary one as the URL and the secondary one as the backup URL;
    when it has a URL and the classifier misses a provider, [getPlayback]
    logs the warning and returns both fields as the lookup gave them; when
    it has no URL, [getPlayback] returns it as it is, without a warning. *)
Theorem getPlayback_assignment up id w pb w1 :
  runThrice (getPlaybackOp up id) (None, w) = (None, (Some pb, w1)) →
  let r := getPlayback up id w in
  let aliURL := (Distinguish up pb).1 in
  let txURL := (Distinguish up pb).2 in
  (URL pb ≠ EmptyString → aliURL ≠ EmptyString → txURL ≠ EmptyString →
   r = ((Some (mkPlayback aliURL txURL), None), w1))
  ∧ (URL pb ≠ EmptyString → aliURL = EmptyString ∨ txURL = EmptyString →
     r = ((Some pb, None), emit (EvLog (LogNoProviderURL id)) w1))
  ∧ (URL pb = EmptyString → r = ((Some pb, None), w1)).
Proof.
  intros Hr r aliURL txURL. subst r aliURL txURL. unfold getPlayback. rewrite Hr.
  destruct (Distinguish up pb) as [ali tx]. cbn [fst snd].
  split; [|split].
  - intros Hu Ha Ht. apply nonEmpty_true in Hu, Ha, Ht. by rewrite Hu, Ha, Ht.
  - intros Hu Hm. apply nonEmpty_true in Hu. rewrite Hu.
    destruct Hm as [Hm|Hm]; apply nonEmpty_false in Hm; rewrite Hm;
      [done|by rewrite andb_false_r].
  - intros Hu. apply nonEmpty_false in Hu. by rewrite Hu.
Qed.

Lemma getPlayback_assignment_witness :
  getPlayback (playbackPlatform twoProviders swapped) "A" emptyWorld
  = ((Some (mkPlayback "https://alivod.example/rec.m3u8"
                       "https://txvod.example/rec.m3u8"), None),
     emit (EvGetPlayback "A") emptyWorld)
  ∧ getPlayback (playbackPlatform oneProvider primaryOnly) "A" emptyWorld
    = ((Some oneProvider, None),
       emit (EvLog (LogNoProviderURL "A")) (emit (EvGetPlayback "A") emptyWorld))
  ∧ getPlayback (playbackPlatform noRecording primaryOnly) "A" emptyWorld
    = ((Some noRecording, None), emit (EvGetPlayback "A") emptyWorld).
Proof.
  split; [|split].
  - refine (proj1 (getPlayback_assignment (playbackPlatform twoProviders swapped)
                     "A" emptyWorld twoProviders (emit (EvGetPlayback "A") emptyWorld)
                     eq_refl) _ _ _); discriminate.
  - refine (proj1 (proj2 (getPlayback_assignment
                     (playbackPlatform oneProvider primaryOnly)
                     "A" emptyWorld oneProvider (emit (EvGetPlayback "A") emptyWorld)
                     eq_refl)) _ _); [discriminate|by right].
  - refine (proj2 (proj2 (getPlayback_assignment
                     (playbackPlatform noRecording primaryOnly)
                     "A" emptyWorld noRecording (emit (EvGetPlayback "A") emptyWorld)
                     eq_refl)) _). reflexivity.
Defined.

(** * More of the program *)

(** ** The snapshot a fetch returns *)

(** A successful [fetchLiveList] is the requests of the escalation and
    then the loop over the descriptors of the last answer. *)
Lemma fetchLiveList_ok_shape up w :
  (fetchLiveList up w).1.2 = None →
  ∃ k body v0,
    (1 ≤ k ≤ 5)%nat ∧ answer up w (k - 1) = Parsed body v0
    ∧ signalsEnd (answer up w (k - 1)) = true
    ∧ ((fetchLiveList up w).1.1, (fetchLiveList up w).2)
      = fold_left addRoom (roomsOf v0) (∅, requestAll (take k pageSizes) w).
Proof.
  unfold fetchLiveList, fetchLiveList_fuel, fetchLiveList_body.
  destruct (escalate_run up 5 None w) as (res & -> & k & Hk & Hw & _ & Hres); [done|].
  destruct res as [[v|e] w1]; cbn [fst snd] in *; [|done].
  destruct Hres as (Hend & body & v0 & Ha & ->). subst w1.
  unfold roomsOf.
  destruct (fold_left addRoom _ _) as [lst w2] eqn:Hf. cbn [fst snd]. intros _.
  by exists k, body, v0.
Qed.

Lemma addRoom_sessions m w room :
  poolOk w → inUse w m →
  sessions (heap (addRoom (m, w) room).2) (addRoom (m, w) room).1
  = <[liveID (roomLive room) := roomLive room]> (sessions (heap w) m).
Proof.
  intros Hok Huse. rewrite addRoom_eq. cbn [fst snd].
  destruct (poolGet_spec w Hok) as (_ & _ & _ & _ & Hfrom & _ & Hheap).
  set (l := (poolGet w).1) in *. set (w1 := (poolGet w).2) in *.
  unfold sessions. apply map_eq. intros k.
  rewrite lookup_fmap, !lookup_insert. case_decide as Hk.
  - cbn [fmap option_fmap option_map]. f_equal. rewrite heap_store. by rewrite decide_True.
  - rewrite lookup_fmap. destruct (m !! k) as [l'|] eqn:Hl'; [|done].
    cbn [fmap option_fmap option_map]. f_equal.
    assert (l' ≠ l) as Hne.
    { intros ->. destruct (Huse k l Hl') as [Hp Hn].
      destruct Hfrom as [Hin|Heq]; [done|lia]. }
    rewrite heap_store, decide_False by done. by apply Hheap.
Qed.

Lemma fold_addRoom_sessions rooms m w :
  poolOk w → inUse w m → keyed (heap w) m →
  sessions (heap (fold_left addRoom rooms (m, w)).2) (fold_left addRoom rooms (m, w)).1
  = fold_left (λ acc room, <[liveID (roomLive room) := roomLive room]> acc) rooms
      (sessions (heap w) m).
Proof.
  revert m w. induction rooms as [|room rooms IH]; intros m w Hok Huse Hkey; [done|].
  cbn [fold_left].
  destruct (addRoom_keyed m w room Hok Huse Hkey) as (Hok1 & Huse1 & Hkey1).
  pose proof (addRoom_sessions m w room Hok Huse) as Hs.
  destruct (addRoom (m, w) room) as [m1 w1]. cbn [fst snd] in *.
  rewrite IH by done. by rewrite Hs.
Qed.

(** A keyed map gives no object to two ids. *)
Lemma keyed_inj h m k1 k2 l :
  keyed h m → m !! k1 = Some l → m !! k2 = Some l → k1 = k2.
Proof. intros Hk H1 H2. by rewrite <- (Hk k1 l H1), <- (Hk k2 l H2). Qed.

(** X1. The snapshot a successful [fetchLiveList] returns holds, for every
    id of the last answer, the session its last descriptor with that id
    stands for, and nothing else; no two ids share an object. *)
Theorem fetchLiveList_snapshot up w :
  poolOk w →
  (fetchLiveList up w).1.2 = None →
  let list := (fetchLiveList up w).1.1 in
  let w' := (fetchLiveList up w).2 in
  (∃ k body v0,
     (1 ≤ k ≤ 5)%nat ∧ answer up w (k - 1) = Parsed body v0
     ∧ signalsEnd (answer up w (k - 1)) = true
     ∧ sessions (heap w') list = byId (roomsOf v0))
  ∧ (∀ k1 k2 l, list !! k1 = Some l → list !! k2 = Some l → k1 = k2)
  ∧ (∀ k l, list !! k = Some l → liveID (heap w' !!! l) = k ∧ unenriched (heap w' !!! l)).
Proof.
  intros Hok Hnone list w'.
  destruct (fetchLiveList_keyed up w Hok) as (_ & _ & Hkey).
  split; [|split].
  - destruct (fetchLiveList_ok_shape up w Hnone) as (k & body & v0 & Hk & Ha & He & Hf).
    exists k, body, v0. split; [done|]. split; [done|]. split; [done|].
    subst list w'.
    pose proof (fold_addRoom_sessions (roomsOf v0) ∅ (requestAll (take k pageSizes) w)) as Hs.
    rewrite <- Hf in Hs. cbn [fst snd] in Hs. rewrite Hs.
    + unfold byId, sessions. by rewrite fmap_empty.
    + destruct (pool_requestAll (take k pageSizes) w) as (Hp & Hn & _).
      unfold poolOk. by rewrite Hp, Hn.
    + intros ?? Hl. by rewrite lookup_empty in Hl.
    + intros ?? Hl. by rewrite lookup_empty in Hl.
  - intros k1 k2 l. by apply (keyed_inj (heap w')).
  - intros k l Hl. split; [by apply Hkey|]. by eapply fetchLiveList_unenriched.
Qed.

Lemma fetchLiveList_snapshot_witness :
  sessions (heap fetched1.2) fetched1.1.1 = byId snapshot1
  ∧ liveID (heap fetched1.2 !!! 0%nat) = "A".
Proof.
  destruct (fetchLiveList_snapshot (listPlatform snapshot1) emptyWorld)
    as ((k & body & v0 & Hk & Ha & _ & Hs) & _ & Hkey).
  - split; [apply NoDup_nil_2|apply Forall_nil_2].
  - vm_compute. reflexivity.
  - split.
    + unfold fetched1. rewrite Hs. f_equal. unfold answer, listPlatform in Ha.
      cbn [listEndpoint] in Ha. unfold listAnswer in Ha. by injection Ha as _ <-.
    + refine (proj1 (Hkey "A" 0%nat _)). vm_compute. reflexivity.
Defined.

(** ** What [fetchLiveList] takes from the pool *)





(** ** The accounting of [runThrice] *)

Section RunThriceAccounting.
Context {S : Type} `{Runtime S}.
Implicit Types (f : S -> option error * S) (s : S).

Lemma probed_run f p r s1 :
  f (inner p) = (r, s1) →
  probed f p = (r, mkProbe s1 (Datatypes.S (invocations p)) (slept p)).
Proof. intros Hf. rewrite probed_eq. by rewrite Hf. Qed.

(** X3. [runThrice] stops at the first success: with [n] failures before
    it, the operation has run [n + 1] times and [runThrice] has slept
    [10 * n] seconds; nothing is logged and nothing slept after a success,
    so a first attempt that succeeds leaves the state as the operation left
    it. An error is always the aggregate of three failures and names the
    last one. *)
Theorem runThrice_accounting f s :
  let r := runThrice (probed f) (probe0 s) in
  match r.1 with
  | None =>
      (1 ≤ invocations r.2 ≤ 3)%nat
      ∧ slept r.2 = 10 * (Z.of_nat (invocations r.2) - 1)
      ∧ (∃ s0, f s0 = (None, inner r.2))
      ∧ ((f s).1 = None → r.2 = mkProbe (f s).2 1%nat 0)
  | Some e =>
      invocations r.2 = 3%nat ∧ slept r.2 = 30
      ∧ (f s).1 ≠ None
      ∧ ∃ e3 s3, e = ErrThrice (Some e3) ∧ inner r.2 = backoff e3 s3
                 ∧ (∃ s0, f s0 = (Some e3, s3))
  end.
Proof.
  intros r. subst r. unfold runThrice.
  destruct (f s) as [[e1|] s1] eqn:H1.
  2:{ rewrite (runThrice_loop_ok _ _ _ _ (mkProbe s1 1%nat 0))
        by (apply probed_run; exact H1).
      cbn [fst snd invocations slept inner]. split; [lia|]. split; [lia|].
      split; [by exists s|]. done. }
  rewrite (runThrice_loop_fail _ _ _ _ e1 (mkProbe s1 1%nat 0))
    by (apply probed_run; exact H1).
  change (backoff e1 (mkProbe s1 1%nat 0)) with (mkProbe (backoff e1 s1) 1%nat (0 + 10)).
  destruct (f (backoff e1 s1)) as [[e2|] s2] eqn:H2.
  2:{ rewrite (runThrice_loop_ok _ _ _ _ (mkProbe s2 2%nat (0 + 10)))
        by (apply probed_run; exact H2).
      cbn [fst snd invocations slept inner]. split; [lia|]. split; [lia|].
      split; [by exists (backoff e1 s1)|]. done. }
  rewrite (runThrice_loop_fail _ _ _ _ e2 (mkProbe s2 2%nat (0 + 10)))
    by (apply probed_run; exact H2).
  change (backoff e2 (mkProbe s2 2%nat (0 + 10)))
    with (mkProbe (backoff e2 s2) 2%nat (0 + 10 + 10)).
  destruct (f (backoff e2 s2)) as [[e3|] s3] eqn:H3.
  2:{ rewrite (runThrice_loop_ok _ _ _ _ (mkProbe s3 3%nat (0 + 10 + 10)))
        by (apply probed_run; exact H3).
      cbn [fst snd invocations slept inner]. split; [lia|]. split; [lia|].
      split; [by exists (backoff e2 s2)|]. done. }
  rewrite (runThrice_loop_fail _ _ _ _ e3 (mkProbe s3 3%nat (0 + 10 + 10)))
    by (apply probed_run; exact H3).
  cbn [runThrice_loop fst snd].
  change (backoff e3 (mkProbe s3 3%nat (0 + 10 + 10)))
    with (mkProbe (backoff e3 s3) 3%nat (0 + 10 + 10 + 10)).
  cbn [invocations slept inner]. split; [done|]. split; [done|]. split; [done|].
  exists e3, s3. split; [done|]. split; [done|]. by exists (backoff e2 s2).
Qed.

(** How [runThrice] comes to succeed. *)
Lemma runThrice_success_cases f s s' :
  runThrice f s = (None, s') →
  f s = (None, s')
  ∨ (∃ e1 s1, f s = (Some e1, s1) ∧ f (backoff e1 s1) = (None, s'))
  ∨ (∃ e1 s1 e2 s2, f s = (Some e1, s1) ∧ f (backoff e1 s1) = (Some e2, s2)
                    ∧ f (backoff e2 s2) = (None, s')).
Proof.
  unfold runThrice, backoff. cbn [runThrice_loop].
  destruct (f s) as [[e1|] s1] eqn:H1; [|intros [= <-]; by left].
  destruct (f (timeSleep 10 (logPrintf (LogError e1) s1))) as [[e2|] s2] eqn:H2;
    [|intros [= <-]; right; left; by exists e1, s1].
  destruct (f (timeSleep 10 (logPrintf (LogError e2) s2))) as [[e3|] s3] eqn:H3;
    [done|intros [= <-]; right; right; by exists e1, s1, e2, s2].
Qed.

End RunThriceAccounting.

(** ** The goroutines when the lookup succeeds *)

Lemma fetchCutOp_eq up u id s :
  fetchCutOp up u id s
  = ((fetchLiveCut up u id s.2).1.2,
     ((fetchLiveCut up u id s.2).1.1, (fetchLiveCut up u id s.2).2)).
Proof. unfold fetchCutOp. by destruct (fetchLiveCut up u id s.2) as [[n e] w1]. Qed.

Lemma fetchCutOp_sameObjects up u id s : sameObjects s.2 (fetchCutOp up u id s).2.2.
Proof. rewrite fetchCutOp_world. apply sameObjects_emit. Qed.

Lemma fetchCutOp_grows up u id s : grows quiet s.2 (fetchCutOp up u id s).2.2.
Proof. rewrite fetchCutOp_world. by apply grows_emit. Qed.

Lemma fetchLiveCut_not_ready up u id w body v0 :
  cutInfo (cutEndpoint up (tick w) u id) body v0 →
  GetInt (Some v0) ["liveCutStatus"] ≠ 1 →
  fetchLiveCut up u id w = ((0, None), emit (EvCutRequest u id) w).
Proof.
  intros [Hr Hz] Hs. unfold fetchLiveCut, fetchLiveCut_body.
  rewrite Hr, Hz. apply Z.eqb_neq in Hs. by rewrite Hs.
Qed.

(** X4. The cut-number goroutine after a lookup that succeeded: the number
    it writes is the one the last call of [fetchLiveCut] returned, it
    writes it once, and that is all it does to the store; it touches no
    object. *)
Theorem cutTask_records up u id w n w1 :
  runThrice (fetchCutOp up u id) (0, w) = (None, (n, w1)) →
  (∃ w0, grows quiet w w0 ∧ fetchLiveCut up u id w0 = ((n, None), w1))
  ∧ cutTask up u id w = emit (EvUpdateLiveCutNum id n) w1
  ∧ sameObjects w (cutTask up u id w)
  ∧ ∀ DB ins upc upd (db : DB),
      replay DB ins upc upd (trace (cutTask up u id w)) db
      = upc id n (replay DB ins upc upd (trace w) db).
Proof.
  intros Hr.
  pose proof (runThrice_sameObjects (fetchCutOp up u id) (0, w)
                (fetchCutOp_sameObjects up u id)) as Hsame.
  pose proof (runThrice_grows quiet (fetchCutOp up u id) (0, w)
                (fetchCutOp_grows up u id) ltac:(done) ltac:(done)) as Hg.
  rewrite Hr in Hsame, Hg. cbn [fst snd] in Hsame, Hg.
  assert (cutTask up u id w = emit (EvUpdateLiveCutNum id n) w1) as Heq.
  { unfold cutTask. by rewrite Hr. }
  split.
  { destruct (runThrice_ok_from (λ s1 s2, grows quiet s1.2 s2.2)
                (fetchCutOp up u id) (0, w) (n, w1)) as (s0 & Hg0 & Hs0); try done.
    - intros. apply grows_refl.
    - intros ???. apply grows_trans.
    - intros s1 e s2 Hf. pose proof (fetchCutOp_grows up u id s1) as Hgr.
      by rewrite Hf in Hgr.
    - intros m s1. by apply (grows_emit quiet).
    - intros d s1. by apply (grows_emit quiet).
    - exists s0.2. split; [done|]. rewrite fetchCutOp_eq in Hs0.
      destruct (fetchLiveCut up u id s0.2) as [[n' e'] w']. cbn [fst snd] in Hs0.
      by injection Hs0 as -> -> ->. }
  split; [done|]. split.
  { rewrite Heq. destruct Hsame as (Hh & Hp & Hn). by repeat split. }
  intros. rewrite Heq. cbn [emit trace]. rewrite replay_app.
  by rewrite (replay_grows ins upc upd w w1).
Qed.

Lemma cutTask_records_witness :
  cutTask (cutPlatform 1 ".../foo/12345/bar") 646973 "A" emptyWorld
  = emit (EvUpdateLiveCutNum "A" 12345) (emit (EvCutRequest 646973 "A") emptyWorld).
Proof.
  refine (proj1 (proj2 (cutTask_records (cutPlatform 1 ".../foo/12345/bar") 646973 "A"
                          emptyWorld 12345 (emit (EvCutRequest 646973 "A") emptyWorld) _))).
  vm_compute. reflexivity.
Defined.

(** X5. A cut that is not ready is final for the goroutine: after one
    answer that passes the result check with a status other than 1, it
    writes the number 0 for the session and ends, without another
    lookup. *)
Theorem cutTask_not_ready up u id w body v0 :
  cutInfo (cutEndpoint up (tick w) u id) body v0 →
  GetInt (Some v0) ["liveCutStatus"] ≠ 1 →
  cutTask up u id w = emitAll [EvCutRequest u id; EvUpdateLiveCutNum id 0] w.
Proof.
  intros Hc Hs. unfold cutTask, runThrice.
  rewrite (runThrice_loop_ok _ _ _ _ (0, emit (EvCutRequest u id) w)).
  - by rewrite !emit_emitAll, emitAll_emitAll.
  - rewrite fetchCutOp_eq. cbn [snd]. by rewrite (fetchLiveCut_not_ready up u id w body v0).
Qed.

Lemma cutTask_not_ready_witness :
  cutTask (cutPlatform 0 ".../foo/12345/bar") 646973 "A" emptyWorld
  = emitAll [EvCutRequest 646973 "A"; EvUpdateLiveCutNum "A" 0] emptyWorld.
Proof.
  apply (cutTask_not_ready (cutPlatform 0 ".../foo/12345/bar") 646973 "A" emptyWorld
           "{...}" (JObj [("result", JNum 0); ("liveCutStatus", JNum 0);
                          ("liveCutUrl", JStr ".../foo/12345/bar")])).
  - split; vm_compute; reflexivity.
  - vm_compute. discriminate.
Defined.

(** The first attempt of [runThrice] is the first thing it does. *)
Lemma runThrice_first {A} (f : A * world → option error * (A * world)) (s : A * world) :
  (∀ s1, grows (λ _, True) s1.2 (f s1).2.2) →
  grows (λ _, True) (f s).2.2 (runThrice f s).2.2.
Proof.
  intros Hf. unfold runThrice.
  destruct (f s) as [[e|] s1] eqn:H1.
  - rewrite (runThrice_loop_fail _ _ _ _ e s1) by done. cbn [snd].
    eapply grows_trans with (backoff e s1).2.
    + unfold backoff. cbn [timeSleep logPrintf captured_runtime world_runtime snd].
      eapply grows_trans; by apply grows_emit.
    + apply (runThrice_loop_preserves (λ s1 s2, grows (λ _, True) s1.2 s2.2)).
      * intros. apply grows_refl.
      * intros ???. apply grows_trans.
      * done.
      * intros m s2. by apply grows_emit.
      * intros d s2. by apply grows_emit.
  - rewrite (runThrice_loop_ok _ _ _ _ s1) by done. apply grows_refl.
Qed.

(** X6. The summary goroutine on every way out: it sleeps ten seconds and
    asks for the summary of its session before anything else, it leaves
    every object as it is, and its session is in the pool when it ends,
    put there once. *)
Theorem summaryTask_returns_session up l w :
  let w' := summaryTask up l w in
  heap w' = heap w ∧ next w' = next w ∧ pool w' = l :: pool w
  ∧ ∃ evs, trace w' = trace w ++ EvSleep 10 :: EvGetSummary (liveID (heap w !!! l)) :: evs.
Proof.
  intros w'. subst w'.
  pose proof (runThrice_sameObjects (getSummaryOp up l) (None, timeSleep 10 w)
                (getSummaryOp_sameObjects up l)) as Hsame.
  pose proof (runThrice_first (getSummaryOp up l) (None, timeSleep 10 w)) as Hfirst.
  rewrite getSummaryOp_world in Hfirst.
  unfold summaryTask.
  destruct (runThrice (getSummaryOp up l) (None, timeSleep 10 w)) as [err [sm w1]].
  cbn [fst snd] in Hsame, Hfirst. destruct Hsame as (Hh & Hp & Hn).
  change (heap (timeSleep 10 w)) with (heap w) in *.
  change (pool (timeSleep 10 w)) with (pool w) in Hp.
  change (next (timeSleep 10 w)) with (next w) in Hn.
  destruct Hfirst as (evs & Ht & _).
  { intros s1. rewrite getSummaryOp_world. by apply grows_emit. }
  cbn [timeSleep world_runtime emit trace] in Ht. rewrite <- !app_assoc in Ht.
  cbn [app] in Ht.
  destruct err as [e|]; [|destruct sm as [sm|]; [destruct (Duration sm =? 0)|]];
    cbn [poolPut logPrintf world_runtime emit heap pool next trace];
    (split; [done|]); (split; [done|]); (split; [by rewrite Hp|]);
    rewrite Ht, <- ?app_assoc; cbn [app]; eauto.
Qed.

(** X7. The summary goroutine after a lookup that reports a duration other
    than 0: it inserts the session as it is and then writes the duration,
    right after the lookup that succeeded, and does nothing else to the
    store. *)
Theorem summaryTask_records_duration up l w sm w1 :
  runThrice (getSummaryOp up l) (None, timeSleep 10 w) = (None, (Some sm, w1)) →
  Duration sm ≠ 0 →
  let v := heap w !!! l in
  let w' := summaryTask up l w in
  (∃ w0, trace w' = trace w0 ++ [EvGetSummary (liveID v); EvInsert v;
                                 EvUpdateLiveDuration (liveID v) (Duration sm)])
  ∧ ∀ DB ins upc upd (db : DB),
      replay DB ins upc upd (trace w') db
      = upd (liveID v) (Duration sm) (ins v (replay DB ins upc upd (trace w) db)).
Proof.
  intros Hr Hd v w'.
  destruct (summaryTask_found up l w sm w1 Hr) as (_ & Hg & [w0 Hlast] & Heq).
  apply Z.eqb_neq in Hd. rewrite Hd in Heq. subst w'. rewrite Heq.
  cbn [poolPut emit trace]. split.
  - exists w0. rewrite Hlast. cbn [emit trace]. by rewrite <- !app_assoc.
  - intros. rewrite <- app_assoc, replay_app.
    by rewrite (replay_grows ins upc upd w w1).
Qed.

Lemma summaryTask_records_duration_witness :
  let w := fetched2.2 in
  ∃ w0, trace (summaryTask (summaryPlatform 3600000) 0%nat w)
        = trace w0 ++ [EvGetSummary "A"; EvInsert (roomLive (roomOf "A" 646973 "js"));
                       EvUpdateLiveDuration "A" 3600000].
Proof.
  intros w.
  destruct (summaryTask_records_duration (summaryPlatform 3600000) 0%nat w
              (mkSummary 3600000) (emit (EvGetSummary "A") (timeSleep 10 w)))
    as (Ht & _).
  - vm_compute. reflexivity.
  - vm_compute. discriminate.
  - exact Ht.
Defined.

(** ** The playback lookup, with its retries *)

Lemma tick_emitAll evs w :
  tick (emitAll evs w) = (tick w + length (List.filter isRequest evs))%nat.
Proof. unfold tick, emitAll. cbn [trace]. by rewrite List.filter_app, length_app. Qed.

Lemma getPlaybackOp_fails up id s e s1 :
  getPlaybackOp up id s = (Some e, s1) →
  GetPlayback up (tick s.2) id = inr e ∧ s1 = (None, emit (EvGetPlayback id) s.2).
Proof.
  unfold getPlaybackOp. destruct (GetPlayback up (tick s.2) id); [done|].
  by intros [= -> <-].
Qed.

Lemma getPlaybackOp_succeeds up id s s1 :
  getPlaybackOp up id s = (None, s1) →
  ∃ pb, GetPlayback up (tick s.2) id = inl pb
        ∧ s1 = (Some pb, emit (EvGetPlayback id) s.2).
Proof.
  unfold getPlaybackOp. destruct (GetPlayback up (tick s.2) id) as [pb|]; [|done].
  intros [= <-]. by exists pb.
Qed.

(** The lookups of [getPlayback]: [j] failures and then a recording, or
    three failures. *)
Lemma getPlayback_lookups up id w :
  match runThrice (getPlaybackOp up id) (None, w) with
  | (None, (pb, w1)) =>
      ∃ j pb0 errs,
        (j < 3)%nat ∧ length errs = j
        ∧ (∀ i e, errs !! i = Some e → GetPlayback up (i + tick w) id = inr e)
        ∧ GetPlayback up (j + tick w) id = inl pb0
        ∧ pb = Some pb0
        ∧ w1 = emitAll (flat_map (λ e, [EvGetPlayback id; EvLog (LogError e); EvSleep 10]) errs
                        ++ [EvGetPlayback id]) w
  | (Some e, (pb, w1)) =>
      ∃ e1 e2 e3,
        GetPlayback up (tick w) id = inr e1
        ∧ GetPlayback up (Datatypes.S (tick w)) id = inr e2
        ∧ GetPlayback up (Datatypes.S (Datatypes.S (tick w))) id = inr e3
        ∧ e = ErrThrice (Some e3)
        ∧ w1 = emitAll (threeFailures (EvGetPlayback id) e1 e2 e3) w
  end.
Proof.
  destruct (runThrice (getPlaybackOp up id) (None, w)) as [[e|] [pb w1]] eqn:Hr.
  - apply runThrice_error in Hr as (e1 & s1 & e2 & s2 & e3 & s3 & H1 & H2 & H3 & -> & Hs).
    apply getPlaybackOp_fails in H1 as [G1 ->].
    apply getPlaybackOp_fails in H2 as [G2 ->].
    apply getPlaybackOp_fails in H3 as [G3 ->].
    flatten_emits. rewrite !tick_emitAll in *. cbn [List.filter isRequest length] in *.
    replace (tick w + 1)%nat with (Datatypes.S (tick w)) in * by lia.
    replace (tick w + 2)%nat with (Datatypes.S (Datatypes.S (tick w))) in * by lia.
    injection Hs as _ ->.
    by exists e1, e2, e3.
  - apply runThrice_success_cases in Hr
      as [H1|[(e1 & s1 & H1 & H2)|(e1 & s1 & e2 & s2 & H1 & H2 & H3)]].
    + apply getPlaybackOp_succeeds in H1 as (pb0 & G1 & [= -> ->]).
      exists 0%nat, pb0, []. cbn [snd] in G1. repeat split; try done; try lia.
    + apply getPlaybackOp_fails in H1 as [G1 ->].
      apply getPlaybackOp_succeeds in H2 as (pb0 & G2 & [= -> ->]).
      flatten_emits. rewrite !tick_emitAll in *. cbn [List.filter isRequest length] in *.
      exists 1%nat, pb0, [e1].
      replace (tick w + 1)%nat with (1 + tick w)%nat in * by lia.
      repeat split; try done; try lia.
      intros [|i] e; [|done]. by intros [= <-].
    + apply getPlaybackOp_fails in H1 as [G1 ->].
      apply getPlaybackOp_fails in H2 as [G2 ->].
      apply getPlaybackOp_succeeds in H3 as (pb0 & G3 & [= -> ->]).
      flatten_emits. rewrite !tick_emitAll in *. cbn [List.filter isRequest length] in *.
      exists 2%nat, pb0, [e1; e2].
      replace (tick w + 1)%nat with (1 + tick w)%nat in * by lia.
      replace (tick w + 2)%nat with (2 + tick w)%nat in * by lia.
      repeat split; try done; try lia.
      intros [|[|i]] e; [| |done]; by intros [= <-].
Qed.

(** X8. What a call of [getPlayback] comes to. It asks for the recording
    until a lookup succeeds, three times at most, with the log line of the
    error and ten seconds of sleep after each failure. It returns a
    recording and no error when a lookup succeeded: the recording of that
    lookup, as it is or with the two URLs of the classifier. It returns no
    recording and the error that wraps the aggregate of [runThrice] when the
    three lookups failed, without a call of the classifier's warning. It
    writes nothing to the store, starts no goroutine and touches no object. *)
Theorem getPlayback_outcome up id w :
  let r := getPlayback up id w in
  sameObjects w r.2 ∧ grows quiet w r.2
  ∧ match r.1 with
    | (Some pb, None) =>
        ∃ j pb0 errs,
          (j < 3)%nat ∧ length errs = j
          ∧ (∀ i e, errs !! i = Some e → GetPlayback up (i + tick w) id = inr e)
          ∧ GetPlayback up (j + tick w) id = inl pb0
          ∧ (pb = pb0 ∨ pb = mkPlayback (Distinguish up pb0).1 (Distinguish up pb0).2)
          ∧ ∃ warn, r.2 = emitAll (flat_map (λ e, [EvGetPlayback id; EvLog (LogError e);
                                                    EvSleep 10]) errs
                                   ++ EvGetPlayback id :: warn) w
                    ∧ (warn = [] ∨ warn = [EvLog (LogNoProviderURL id)])
    | (None, Some e) =>
        ∃ e1 e2 e3,
          GetPlayback up (tick w) id = inr e1
          ∧ GetPlayback up (Datatypes.S (tick w)) id = inr e2
          ∧ GetPlayback up (Datatypes.S (Datatypes.S (tick w))) id = inr e3
          ∧ e = ErrPlayback id (ErrThrice (Some e3))
          ∧ r.2 = emitAll (threeFailures (EvGetPlayback id) e1 e2 e3) w
    | _ => False
    end.
Proof.
  intros r. subst r. unfold getPlayback.
  pose proof (getPlayback_lookups up id w) as Hl.
  destruct (runThrice (getPlaybackOp up id) (None, w)) as [[e|] [pb w1]].
  - destruct Hl as (e1 & e2 & e3 & G1 & G2 & G3 & -> & ->). cbn [fst snd].
    split; [done|]. split.
    { apply grows_emitAll. by apply threeFailures_quiet. }
    by exists e1, e2, e3.
  - destruct Hl as (j & pb0 & errs & Hj & Hlen & Herrs & Hok & -> & ->).
    assert (Forall quiet (flat_map (λ e, [EvGetPlayback id; EvLog (LogError e); EvSleep 10])
                            errs)) as Hq.
    { clear. induction errs as [|e errs IH]; [done|]. cbn [flat_map app].
      by repeat constructor. }
    destruct (nonEmpty (URL pb0)); [destruct (Distinguish up pb0) as [aliURL txURL] eqn:Hd;
      destruct (nonEmpty aliURL && nonEmpty txURL)|]; cbn [fst snd].
    + split; [done|]. split.
      { apply grows_emitAll, Forall_app. split; [done|]. by repeat constructor. }
      exists j, pb0, errs. do 4 (split; [done|]). split; [right; by rewrite Hd|].
      exists []. split; [done|by left].
    + split; [done|]. split.
      { cbn [logPrintf world_runtime]. rewrite emit_emitAll, emitAll_emitAll.
        apply grows_emitAll, Forall_app. split; [|by repeat constructor].
        apply Forall_app. split; [done|]. by repeat constructor. }
      exists j, pb0, errs. do 4 (split; [done|]). split; [by left|].
      exists [EvLog (LogNoProviderURL id)]. split; [|by right].
      cbn [logPrintf world_runtime]. rewrite emit_emitAll, emitAll_emitAll.
      by rewrite <- app_assoc.
    + split; [done|]. split.
      { apply grows_emitAll, Forall_app. split; [done|]. by repeat constructor. }
      exists j, pb0, errs. do 4 (split; [done|]). split; [by left|].
      exists []. split; [done|by left].
Qed.

(** ** The rounds of the loop, session by session *)

(** A round that gets its snapshot: the failed fetches before it touch no
    object and add quiet events, then come the fetch that succeeded, the
    two loops and twenty seconds of sleep. *)
Lemma pollOnce_anatomy up oldList w newList w' :
  pollOnce up oldList w = (Some newList, w') →
  ∃ w0 fevs,
    sameObjects w w0
    ∧ (fetchLiveList up w0).1 = (newList, None)
    ∧ trace (fetchLiveList up w0).2 = trace w ++ fevs
    ∧ Forall quiet fevs
    ∧ w' = emit (EvSleep 20) (diffLoops oldList newList (fetchLiveList up w0).2).
Proof.
  intros Hp. rewrite pollOnce_eq in Hp.
  pose proof (runThrice_grows quiet (fetchListOp up) (∅, w)
                (fetchListOp_grows up) ltac:(done) ltac:(done)) as Hg.
  destruct (runThrice (fetchListOp up) (∅, w)) as [[e|] [lst w1]] eqn:Hr; [done|].
  cbn [fst snd] in *. injection Hp as <- <-.
  apply (runThrice_ok_from (λ s1 s2, sameObjects s1.2 s2.2)) in Hr
    as (s0 & Hsame & Hs0); try done.
  2:{ intros ???. apply sameObjects_trans. }
  2:{ intros s1 e s2. rewrite fetchListOp_eq. intros [= He <-].
      apply fetchLiveList_failed. by rewrite He. }
  rewrite fetchListOp_eq in Hs0.
  injection Hs0 as He Hl Hw. destruct Hg as (fevs & Hft & Hfq).
  exists s0.2, fevs. rewrite Hw. split; [done|]. split; [|done].
  destruct (fetchLiveList up s0.2) as [[? ?] ?]. cbn [fst snd] in *. congruence.
Qed.

Lemma filter_bool_nil {A} (f : A → bool) (ls : list A) :
  (∀ x, x ∈ ls → f x = false) → List.filter f ls = [].
Proof.
  induction ls as [|x ls IH]; intros Hall; [done|]. cbn [List.filter].
  rewrite (Hall x) by apply list_elem_of_here. apply IH.
  intros y Hy. apply Hall. by apply list_elem_of_further.
Qed.

Lemma filter_bool_all {A} (f : A → bool) (ls : list A) :
  (∀ x, x ∈ ls → f x = true) → List.filter f ls = ls.
Proof.
  induction ls as [|x ls IH]; intros Hall; [done|]. cbn [List.filter].
  rewrite (Hall x) by apply list_elem_of_here. f_equal. apply IH.
  intros y Hy. apply Hall. by apply list_elem_of_further.
Qed.

Lemma absent_true h m l : absent h m l = true ↔ liveID (h !!! l) ∉ dom m.
Proof.
  unfold absent. rewrite not_elem_of_dom.
  destruct (m !! liveID (h !!! l)); split; done.
Qed.

(** The sessions of a round, one by one. *)
Lemma pollOnce_sessions up oldList w newList w' :
  roundInv w oldList →
  pollOnce up oldList w = (Some newList, w') →
  ∃ evs, trace w' = trace w ++ evs
    ∧ (∀ k l, newList !! k = Some l → k ∉ dom oldList →
         uid (heap w' !!! l) = watchedUID →
         let v := heap w' !!! l in
         liveID v = k ∧ unenriched v
         ∧ ∃ pre post,
             evs = pre ++ [EvLog (LogLive v); EvInsert v; EvGo (CutTask watchedUID k)]
                       ++ post)
    ∧ (∀ k l, oldList !! k = Some l → k ∉ dom newList →
         (l ∉ pool w')
         ∧ (uid (heap w' !!! l) = watchedUID → EvGo (SummaryTask l) ∈ evs))
    ∧ (∀ k l, oldList !! k = Some l → k ∈ dom newList → l ∈ pool w').
Proof.
  intros Hinv Hp.
  destruct (pollOnce_roundInv up oldList w newList w' Hinv Hp) as (Hkold & Hknew & Hinv').
  destruct Hinv as (Hok & Huse & Hkey).
  apply pollOnce_anatomy in Hp as (w0 & fevs & (Hh0 & Hp0 & Hn0) & Hfl & Ht & Hq & ->).
  set (w1 := (fetchLiveList up w0).2) in *.
  assert (heap (emit (EvSleep 20) (diffLoops oldList newList w1)) = heap w1) as Hheap.
  { cbn [emit heap]. apply diffLoops_heap. }
  rewrite Hheap in *. set (h := heap w1) in *.
  assert (poolOk w0) as Hok0 by (unfold poolOk; by rewrite Hp0, Hn0).
  destruct (fetchLiveList_recycles up w0 Hok0) as ((_ & Hsub & _) & _).
  fold w1 in Hsub.
  assert (pool (emit (EvSleep 20) (diffLoops oldList newList w1))
          = rev (kept h oldList newList) ++ pool w1) as Hpool.
  { cbn [emit pool]. by rewrite diffLoops_eq. }
  exists (fevs ++ diffEvents h oldList newList ++ [EvSleep 20]). split.
  { cbn [emit trace]. rewrite diffLoops_trace, Ht. by rewrite <- !app_assoc. }
  split; [|split].
  - intros k l Hl Hk Hu v. subst v.
    pose proof (Hknew k l Hl) as Hid. split; [done|]. split.
    { apply (fetchLiveList_unenriched up w0 k l). by rewrite Hfl. }
    assert (l ∈ List.filter (watched h) (started h oldList newList)) as Hin.
    { apply elem_of_filter_bool. split.
      - apply elem_of_filter_bool. split; [apply elem_of_range; by exists k|].
        apply absent_true. by rewrite Hid.
      - unfold watched. by apply Z.eqb_eq. }
    apply list_elem_of_split in Hin as (l1 & l2 & Hsplit).
    exists (fevs ++ flat_map (λ l, startEvents (h !!! l)) l1),
      (flat_map (λ l, startEvents (h !!! l)) l2
       ++ ((λ l, EvGo (SummaryTask l))
             <$> List.filter (watched h) (ended h oldList newList))
       ++ [EvSleep 20]).
    unfold diffEvents. rewrite Hsplit, flat_map_app. cbn [flat_map].
    unfold startEvents at 2. rewrite Hu, Hid. by rewrite <- !app_assoc.
  - intros k l Hl Hk. pose proof (Hkold k l Hl) as Hid.
    assert (absent h newList l = true) as Habs by (apply absent_true; by rewrite Hid).
    split.
    + rewrite Hpool, elem_of_app. intros [Hin|Hin].
      * apply (proj1 (elem_of_rev _ _)) in Hin.
        apply elem_of_filter_bool in Hin as [_ Hf]. by rewrite Habs in Hf.
      * destruct (Huse k l Hl) as [Hnp _]. apply Hnp. rewrite <- Hp0. by apply Hsub.
    + intros Hu. rewrite !elem_of_app. right. left. unfold diffEvents.
      rewrite elem_of_app. right. apply list_elem_of_fmap. exists l. split; [done|].
      apply elem_of_filter_bool. split; [|unfold watched; by apply Z.eqb_eq].
      apply elem_of_filter_bool. split; [apply elem_of_range; by exists k|done].
  - intros k l Hl Hk. pose proof (Hkold k l Hl) as Hid.
    rewrite Hpool, elem_of_app. left. apply elem_of_rev.
    apply elem_of_filter_bool. split; [apply elem_of_range; by exists k|].
    destruct (absent h newList l) eqn:Habs; [|done].
    apply absent_true in Habs. by rewrite Hid in Habs.
Qed.

(** X9. What a round of the loop does for the owner it watches. For every
    session of the new snapshot whose id the old one does not have, the
    round logs the session, inserts it and starts the cut-number goroutine
    for its id, in that order and with nothing in between; the session is
    inserted as the list gave it, with no enrichment. For every session of
    the old snapshot whose id the new one does not have, it starts the
    summary goroutine, and the object stays out of the pool. The object of
    every other old session is in the pool when the round ends. *)
Theorem pollOnce_watched up oldList w newList w' :
  roundInv w oldList →
  pollOnce up oldList w = (Some newList, w') →
  ∃ evs, trace w' = trace w ++ evs
    ∧ (∀ k l, newList !! k = Some l → k ∉ dom oldList →
         uid (heap w' !!! l) = watchedUID →
         let v := heap w' !!! l in
         liveID v = k ∧ unenriched v
         ∧ ∃ pre post,
             evs = pre ++ [EvLog (LogLive v); EvInsert v; EvGo (CutTask watchedUID k)]
                       ++ post)
    ∧ (∀ k l, oldList !! k = Some l → k ∉ dom newList →
         (l ∉ pool w')
         ∧ (uid (heap w' !!! l) = watchedUID → EvGo (SummaryTask l) ∈ evs))
    ∧ (∀ k l, oldList !! k = Some l → k ∈ dom newList → l ∈ pool w').
Proof. apply pollOnce_sessions. Qed.

Lemma pollOnce_watched_witness :
  ∃ evs, trace (pollOnce (listPlatform snapshot2) fetched1.1.1 fetched1.2).2
         = trace fetched1.2 ++ evs
    ∧ EvGo (SummaryTask 0%nat) ∈ evs
    ∧ ∃ pre post,
        evs = pre ++ [EvLog (LogLive (roomLive (roomOf "B" 646973 "js")));
                      EvInsert (roomLive (roomOf "B" 646973 "js"));
                      EvGo (CutTask watchedUID "B")] ++ post.
Proof.
  destruct (pollOnce_watched (listPlatform snapshot2) fetched1.1.1 fetched1.2
              fetched2.1.1
              (pollOnce (listPlatform snapshot2) fetched1.1.1 fetched1.2).2)
    as (evs & Ht & Hnew & Hend & _).
  { unfold roundInv, poolOk, inUse, keyed.
    split; [split|split]; apply (bool_decide_unpack _); vm_compute; exact I. }
  { vm_compute. reflexivity. }
  exists evs. split; [exact Ht|]. split.
  - refine (proj2 (Hend "A" 0%nat _ _) _).
    + vm_compute. reflexivity.
    + apply (bool_decide_unpack _). vm_compute. exact I.
    + vm_compute. reflexivity.
  - refine (proj2 (proj2 (Hnew "B" 3%nat _ _ _))).
    + vm_compute. reflexivity.
    + apply (bool_decide_unpack _). vm_compute. exact I.
    + vm_compute. reflexivity.
Defined.

(** X10. A round whose snapshot has the ids of the one before it: nothing is
    written to the store and no goroutine starts, whatever changed inside
    the sessions; every object of the old snapshot is in the pool when the
    round ends, and the round ends with the twenty seconds of sleep. *)
Theorem pollOnce_steady up oldList w newList w' :
  roundInv w oldList →
  pollOnce up oldList w = (Some newList, w') →
  dom newList = dom oldList →
  grows quiet w w'
  ∧ (∃ w1, w' = emit (EvSleep 20) w1)
  ∧ (∀ k l, oldList !! k = Some l → l ∈ pool w')
  ∧ ∀ DB ins upc upd (db : DB),
      replay DB ins upc upd (trace w') db = replay DB ins upc upd (trace w) db.
Proof.
  intros Hinv Hp Hdom.
  destruct (pollOnce_roundInv up oldList w newList w' Hinv Hp) as (Hkold & Hknew & _).
  apply pollOnce_anatomy in Hp as (w0 & fevs & _ & Hfl & Ht & Hq & ->).
  set (w1 := (fetchLiveList up w0).2) in *.
  assert (heap (emit (EvSleep 20) (diffLoops oldList newList w1)) = heap w1) as Hheap.
  { cbn [emit heap]. apply diffLoops_heap. }
  rewrite Hheap in *. set (h := heap w1) in *.
  assert (started h oldList newList = []) as Hs.
  { apply filter_bool_nil. intros l [k Hl]%elem_of_range.
    destruct (absent h oldList l) eqn:Habs; [|done].
    apply absent_true in Habs. rewrite (Hknew k l Hl), <- Hdom in Habs.
    destruct Habs. by apply elem_of_dom_2 in Hl. }
  assert (ended h oldList newList = []) as He.
  { apply filter_bool_nil. intros l [k Hl]%elem_of_range.
    destruct (absent h newList l) eqn:Habs; [|done].
    apply absent_true in Habs. rewrite (Hkold k l Hl), Hdom in Habs.
    destruct Habs. by apply elem_of_dom_2 in Hl. }
  assert (kept h oldList newList = range oldList) as Hk.
  { apply filter_bool_all. intros l [k Hl]%elem_of_range.
    destruct (absent h newList l) eqn:Habs; [|done].
    apply absent_true in Habs. rewrite (Hkold k l Hl), Hdom in Habs.
    destruct Habs. by apply elem_of_dom_2 in Hl. }
  assert (grows quiet w (emit (EvSleep 20) (diffLoops oldList newList w1))) as Hg.
  { exists (fevs ++ [EvSleep 20]). split.
    - cbn [emit trace]. rewrite diffLoops_trace, Ht. unfold diffEvents. fold h.
      rewrite Hs, He. cbn [List.filter flat_map fmap list_fmap app].
      by rewrite app_nil_r, <- app_assoc.
    - apply Forall_app. split; [done|]. by repeat constructor. }
  split; [done|]. split; [by eexists|]. split.
  - intros k l Hl. cbn [emit pool]. rewrite diffLoops_eq. cbn [pool]. fold h.
    rewrite Hk, elem_of_app. left. apply elem_of_rev, elem_of_range. by exists k.
  - intros. by apply replay_grows.
Qed.

Lemma pollOnce_steady_witness :
  grows quiet fetched1.2 (pollOnce (listPlatform snapshot1) fetched1.1.1 fetched1.2).2
  ∧ 0%nat ∈ pool (pollOnce (listPlatform snapshot1) fetched1.1.1 fetched1.2).2.
Proof.
  destruct (pollOnce_steady (listPlatform snapshot1) fetched1.1.1 fetched1.2
              (fetchLiveList (listPlatform snapshot1) fetched1.2).1.1
              (pollOnce (listPlatform snapshot1) fetched1.1.1 fetched1.2).2)
    as (Hg & _ & Hpool & _).
  { unfold roundInv, poolOk, inUse, keyed.
    split; [split|split]; apply (bool_decide_unpack _); vm_compute; exact I. }
  { vm_compute. reflexivity. }
  { vm_compute. reflexivity. }
  split; [exact Hg|]. apply (Hpool "A"). vm_compute. reflexivity.
Defined.

(** A round that gives up has touched no object. *)
Lemma pollOnce_none_sameObjects up oldList w w' :
  pollOnce up oldList w = (None, w') → sameObjects w w'.
Proof.
  rewrite pollOnce_eq.
  destruct (runThrice (fetchListOp up) (∅, w)) as [[e|] [lst w1]] eqn:Hr; [|done].
  cbn [fst snd]. intros [= <-].
  apply runThrice_error in Hr as (e1 & s1 & e2 & s2 & e3 & s3 & H1 & H2 & H3 & _ & Hs).
  assert (∀ s e0 s', fetchListOp up s = (Some e0, s') → sameObjects s.2 s'.2) as Hfail.
  { intros s e0 s'. rewrite fetchListOp_eq. intros [= He <-].
    apply fetchLiveList_failed. by rewrite He. }
  apply Hfail in H1, H2, H3.
  assert (∀ e0 (s : gmap string loc * world), sameObjects s.2 (backoff e0 s).2) as Hb by done.
  assert (sameObjects w w1) as Hsame.
  { assert (w1 = (backoff e3 s3).2) as -> by (by rewrite <- Hs).
    eapply sameObjects_trans; [exact H1|]. eapply sameObjects_trans; [apply (Hb e1)|].
    eapply sameObjects_trans; [exact H2|]. eapply sameObjects_trans; [apply (Hb e2)|].
    eapply sameObjects_trans; [exact H3|]. apply Hb. }
  destruct Hsame as (Hh & Hp & Hn). by repeat split.
Qed.

(** X11. The discipline of the pool holds for as long as the loop runs.
    Whenever a round starts, the pool holds every object once, and the
    sessions of the snapshot of the round before are objects outside the
    pool, one for each id, each under its own [liveID]; so a fetch never
    hands out an object that the loop still compares with. The pool is in
    order too when the loop has ended, by cancellation or by the return of
    [main]. *)
Theorem mainLoop_pool_discipline rounds done i up oldList w :
  roundInv w oldList →
  let r := mainLoop rounds done i up oldList w in
  poolOk r.2
  ∧ match r.1 with
    | Polling m =>
        inUse r.2 m ∧ keyed (heap r.2) m
        ∧ (∀ k1 k2 l, m !! k1 = Some l → m !! k2 = Some l → k1 = k2)
    | _ => True
    end.
Proof.
  revert i oldList w. induction rounds as [|rounds IH]; intros i oldList w Hinv r; subst r.
  - cbn [mainLoop fst snd]. destruct Hinv as (Hok & Huse & Hkey).
    split; [done|]. split; [done|]. split; [done|].
    intros k1 k2 l. by apply (keyed_inj (heap w)).
  - cbn [mainLoop]. destruct (done i); [by destruct Hinv|].
    destruct (pollOnce up oldList w) as [[newList|] w1] eqn:Hp.
    + apply IH. by eapply pollOnce_roundInv.
    + cbn [fst snd]. split; [|done].
      apply pollOnce_none_sameObjects in Hp as (Hh & Hp' & Hn).
      destruct Hinv as (Hok & _). unfold poolOk. by rewrite Hp', Hn.
Qed.

Lemma mainLoop_pool_discipline_witness :
  poolOk (mainLoop 3 (λ _, false) 0 (listPlatform snapshot1) ∅ emptyWorld).2.
Proof.
  refine (proj1 (mainLoop_pool_discipline 3 (λ _, false) 0 (listPlatform snapshot1)
                   ∅ emptyWorld _)).
  unfold roundInv, poolOk, inUse, keyed.
  split; [split|split]; apply (bool_decide_unpack _); vm_compute; exact I.
Defined.

(** ** The requests and the sleep of a round *)

Lemma elapsed_app tr1 tr2 : elapsed (tr1 ++ tr2) = elapsed tr1 + elapsed tr2.
Proof.
  induction tr1 as [|e tr1 IH]; [done|]. unfold elapsed in *. cbn [app fold_right].
  rewrite IH. destruct e; lia.
Qed.

Lemma costs_refl w : costs 0 0 w w.
Proof. exists []. by rewrite app_nil_r. Qed.

Lemma costs_trans n1 z1 n2 z2 w1 w2 w3 :
  costs n1 z1 w1 w2 → costs n2 z2 w2 w3 → costs (n1 + n2) (z1 + z2) w1 w3.
Proof.
  intros (evs1 & H1 & N1 & Z1) (evs2 & H2 & N2 & Z2). exists (evs1 ++ evs2).
  split; [by rewrite H2, H1, app_assoc|].
  rewrite List.filter_app, length_app, elapsed_app. lia.
Qed.

Lemma costs_emitAll evs w :
  costs (length (List.filter isRequest evs)) (elapsed evs) w (emitAll evs w).
Proof. by exists evs. Qed.

Lemma costs_tick n z w w' :
  costs n z w w' →
  tick w' = (tick w + n)%nat ∧ elapsed (trace w') = elapsed (trace w) + z.
Proof.
  intros (evs & Ht & Hn & Hz). unfold tick. rewrite Ht, List.filter_app, length_app.
  rewrite elapsed_app. lia.
Qed.

Lemma costs_requests cs w :
  costs (length cs) 0 w (emitAll (EvListRequest <$> cs) w).
Proof.
  exists (EvListRequest <$> cs). split; [done|].
  induction cs as [|c cs [IH1 IH2]]; [done|]. cbn [fmap list_fmap List.filter isRequest length].
  split; [by rewrite IH1|]. unfold elapsed in *. cbn [fold_right]. done.
Qed.

(** A call of [fetchLiveList] is one to five requests and no sleep. *)
Lemma fetchLiveList_costs up w :
  ∃ k, (1 ≤ k ≤ 5)%nat ∧ costs k 0 w (fetchLiveList up w).2.
Proof.
  destruct (fetchLiveList_run up w) as (k & Hk & Ht & _).
  exists k. split; [done|].
  destruct (costs_requests (take k pageSizes) w) as (evs & He & Hn & Hz).
  exists evs. cbn [emitAll trace] in He. apply app_inv_head in He. subst evs.
  split; [done|]. split; [|done]. rewrite Hn, length_take. cbn [pageSizes length]. lia.
Qed.

Lemma fetchListOp_costs up s :
  ∃ k, (1 ≤ k ≤ 5)%nat ∧ costs k 0 s.2 (fetchListOp up s).2.2.
Proof. rewrite fetchListOp_eq. apply fetchLiveList_costs. Qed.

Lemma backoff_costs {A} e (s : A * world) : costs 0 10 s.2 (backoff e s).2.
Proof.
  unfold backoff. cbn [timeSleep logPrintf captured_runtime world_runtime snd].
  rewrite !emit_emitAll, emitAll_emitAll. apply (costs_emitAll [EvLog (LogError e); EvSleep 10]).
Qed.

Lemma diffEvents_costs h oldList newList :
  length (List.filter isRequest (diffEvents h oldList newList)) = 0%nat
  ∧ elapsed (diffEvents h oldList newList) = 0.
Proof.
  unfold diffEvents. rewrite List.filter_app, length_app, elapsed_app.
  assert (∀ ls, length (List.filter isRequest (flat_map (λ l, startEvents (h !!! l)) ls)) = 0%nat
                ∧ elapsed (flat_map (λ l, startEvents (h !!! l)) ls) = 0) as H1.
  { induction ls as [|l ls [IH1 IH2]]; [done|]. cbn [flat_map].
    rewrite List.filter_app, length_app, elapsed_app, IH1, IH2. done. }
  assert (∀ ls : list loc,
            length (List.filter isRequest ((λ l, EvGo (SummaryTask l)) <$> ls)) = 0%nat
            ∧ elapsed ((λ l, EvGo (SummaryTask l)) <$> ls) = 0) as H2.
  { induction ls as [|l ls [IH1 IH2]]; [done|].
    cbn [fmap list_fmap List.filter isRequest]. split; [done|].
    unfold elapsed in *. cbn [fold_right]. done. }
  destruct (H1 (List.filter (watched h) (started h oldList newList))) as [-> ->].
  destruct (H2 (List.filter (watched h) (ended h oldList newList))) as [-> ->]. done.
Qed.

(** The requests and the sleep of one round. *)
Lemma pollOnce_cost up oldList w :
  let r := pollOnce up oldList w in
  let pause := elapsed (trace r.2) - elapsed (trace w) in
  let asked := (tick r.2 - tick w)%nat in
  (1 ≤ asked ≤ 15)%nat
  ∧ match r.1 with
    | Some _ => pause = 20 ∨ pause = 30 ∨ pause = 40
    | None => pause = 30 ∧ (3 ≤ asked)%nat
    end.
Proof.
  intros r pause asked. subst r pause asked. rewrite pollOnce_eq.
  destruct (fetchListOp_costs up ((∅ : gmap string loc), w)) as (k1 & Hk1 & C1).
  destruct (runThrice (fetchListOp up) (∅, w)) as [[e|] [lst w1]] eqn:Hr; cbn [fst snd].
  - apply runThrice_error in Hr as (e1 & s1 & e2 & s2 & e3 & s3 & H1 & H2 & H3 & _ & Hs).
    rewrite H1 in C1. cbn [snd] in C1.
    destruct (fetchListOp_costs up (backoff e1 s1)) as (k2 & Hk2 & C2).
    rewrite H2 in C2. cbn [snd] in C2.
    destruct (fetchListOp_costs up (backoff e2 s2)) as (k3 & Hk3 & C3).
    rewrite H3 in C3. cbn [snd] in C3.
    assert (w1 = (backoff e3 s3).2) as -> by (by rewrite <- Hs).
    pose proof (costs_trans _ _ _ _ _ _ _ C1 (backoff_costs e1 s1)) as D1.
    pose proof (costs_trans _ _ _ _ _ _ _ D1 C2) as D2.
    pose proof (costs_trans _ _ _ _ _ _ _ D2 (backoff_costs e2 s2)) as D3.
    pose proof (costs_trans _ _ _ _ _ _ _ D3 C3) as D4.
    pose proof (costs_trans _ _ _ _ _ _ _ D4 (backoff_costs e3 s3)) as D5.
    pose proof (costs_trans _ _ _ _ _ _ _ D5
                  (costs_emitAll [EvLog LogListGivenUp] (backoff e3 s3).2)) as D6.
    apply costs_tick in D6 as [Ht Hz]. cbn [List.filter isRequest length elapsed fold_right] in Ht, Hz.
    change (logPrintf LogListGivenUp (backoff e3 s3).2)
      with (emitAll [EvLog LogListGivenUp] (backoff e3 s3).2).
    rewrite Ht, Hz. lia.
  - assert (∀ w0, costs 0 20 w0 (timeSleep 20 (diffLoops oldList lst w0))) as Hend.
    { intros w0. exists (diffEvents (heap w0) oldList lst ++ [EvSleep 20]).
      cbn [timeSleep world_runtime emit trace]. rewrite diffLoops_trace.
      split; [by rewrite app_assoc|].
      destruct (diffEvents_costs (heap w0) oldList lst) as [Hn Hz].
      rewrite List.filter_app, length_app, elapsed_app, Hn, Hz. done. }
    apply runThrice_success_cases in Hr
      as [H1|[(e1 & s1 & H1 & H2)|(e1 & s1 & e2 & s2 & H1 & H2 & H3)]].
    + rewrite H1 in C1. cbn [snd] in C1.
      pose proof (costs_trans _ _ _ _ _ _ _ C1 (Hend w1)) as D1.
      apply costs_tick in D1 as [Ht Hz]. rewrite Ht, Hz. lia.
    + rewrite H1 in C1. cbn [snd] in C1.
      destruct (fetchListOp_costs up (backoff e1 s1)) as (k2 & Hk2 & C2).
      rewrite H2 in C2. cbn [snd] in C2.
      pose proof (costs_trans _ _ _ _ _ _ _ C1 (backoff_costs e1 s1)) as D1.
      pose proof (costs_trans _ _ _ _ _ _ _ D1 C2) as D2.
      pose proof (costs_trans _ _ _ _ _ _ _ D2 (Hend w1)) as D3.
      apply costs_tick in D3 as [Ht Hz]. rewrite Ht, Hz. lia.
    + rewrite H1 in C1. cbn [snd] in C1.
      destruct (fetchListOp_costs up (backoff e1 s1)) as (k2 & Hk2 & C2).
      rewrite H2 in C2. cbn [snd] in C2.
      destruct (fetchListOp_costs up (backoff e2 s2)) as (k3 & Hk3 & C3).
      rewrite H3 in C3. cbn [snd] in C3.
      pose proof (costs_trans _ _ _ _ _ _ _ C1 (backoff_costs e1 s1)) as D1.
      pose proof (costs_trans _ _ _ _ _ _ _ D1 C2) as D2.
      pose proof (costs_trans _ _ _ _ _ _ _ D2 (backoff_costs e2 s2)) as D3.
      pose proof (costs_trans _ _ _ _ _ _ _ D3 C3) as D4.
      pose proof (costs_trans _ _ _ _ _ _ _ D4 (Hend w1)) as D5.
      apply costs_tick in D5 as [Ht Hz]. rewrite Ht, Hz. lia.
Qed.

(** X12. What a round of the loop costs. It makes between one and fifteen
    requests for the list: one to five in each fetch, three fetches at
    most. When it gets its snapshot it sleeps twenty seconds after the two
    loops and ten for every fetch that failed before: twenty, thirty or
    forty seconds. When it gives up it has made three requests at least
    and slept thirty seconds. *)
Theorem pollOnce_budget up oldList w :
  let r := pollOnce up oldList w in
  let pause := elapsed (trace r.2) - elapsed (trace w) in
  let asked := (tick r.2 - tick w)%nat in
  (1 ≤ asked ≤ 15)%nat
  ∧ match r.1 with
    | Some _ => pause = 20 ∨ pause = 30 ∨ pause = 40
    | None => pause = 30 ∧ (3 ≤ asked)%nat
    end.
Proof. apply pollOnce_cost. Qed.

(** ** A session from its first round to its last *)

(** A round leaves the sessions of the snapshot it started with as they
    were. *)
Lemma pollOnce_keeps_sessions up oldList w newList w' :
  roundInv w oldList →
  pollOnce up oldList w = (Some newList, w') →
  ∀ k l, oldList !! k = Some l → heap w' !!! l = heap w !!! l.
Proof.
  intros (Hok & Huse & Hkey) Hp k l Hl.
  apply pollOnce_anatomy in Hp as (w0 & fevs & (Hh0 & Hp0 & Hn0) & _ & _ & _ & ->).
  cbn [emit heap]. rewrite diffLoops_heap.
  assert (poolOk w0) as Hok0 by (unfold poolOk; by rewrite Hp0, Hn0).
  destruct (fetchLiveList_recycles up w0 Hok0) as ((_ & _ & Hheap) & _).
  destruct (Huse k l Hl) as [Hnp Hlt].
  rewrite Hheap; [by rewrite Hh0|by rewrite Hp0|by rewrite Hn0].
Qed.

(** X13. The life of a session of the owner 646973 that one round finds
    new and the next round finds gone. The first round logs it, inserts it
    and starts the cut-number goroutine for its id; the second one starts
    the summary goroutine for the same object, later in the trace. When
    that goroutine starts the object still holds the session as it was
    inserted, and it is not in the pool: no fetch hands it out before the
    goroutine has put it back. *)
Theorem session_lifecycle up old w m1 w1 m2 w2 k l :
  roundInv w old →
  pollOnce up old w = (Some m1, w1) →
  pollOnce up m1 w1 = (Some m2, w2) →
  m1 !! k = Some l → k ∉ dom old → k ∉ dom m2 →
  uid (heap w1 !!! l) = watchedUID →
  let v := heap w1 !!! l in
  liveID v = k ∧ unenriched v ∧ heap w2 !!! l = v ∧ (l ∉ pool w2)
  ∧ ∃ pre mid post,
      trace w2
      = trace w ++ pre
          ++ [EvLog (LogLive v); EvInsert v; EvGo (CutTask watchedUID k)]
          ++ mid ++ [EvGo (SummaryTask l)] ++ post.
Proof.
  intros Hinv Hp1 Hp2 Hl Hnew Hgone Hu v.
  destruct (pollOnce_roundInv up old w m1 w1 Hinv Hp1) as (_ & _ & Hinv1).
  destruct (pollOnce_sessions up old w m1 w1 Hinv Hp1) as (evs1 & Ht1 & Hstart & _).
  destruct (Hstart k l Hl Hnew Hu) as (Hid & Hun & pre & post & Hevs1).
  destruct (pollOnce_sessions up m1 w1 m2 w2 Hinv1 Hp2) as (evs2 & Ht2 & _ & Hend & _).
  destruct (Hend k l Hl Hgone) as [Hnp Hgo].
  pose proof (pollOnce_keeps_sessions up m1 w1 m2 w2 Hinv1 Hp2 k l Hl) as Hsame.
  split; [done|]. split; [done|]. split; [done|]. split; [done|].
  rewrite Hsame in Hgo. specialize (Hgo Hu).
  apply list_elem_of_split in Hgo as (a & b & Hevs2).
  exists pre, (post ++ a), b. rewrite Ht2, Ht1, Hevs1, Hevs2.
  fold v. by rewrite <- !app_assoc.
Qed.

Lemma session_lifecycle_witness :
  let r1 := pollOnce twoSnapshots ∅ emptyWorld in
  let r2 := pollOnce twoSnapshots (default ∅ r1.1) r1.2 in
  heap r2.2 !!! 0%nat = roomLive (roomOf "A" 646973 "js") ∧ (0%nat ∉ pool r2.2).
Proof.
  intros r1 r2.
  destruct (session_lifecycle twoSnapshots ∅ emptyWorld (default ∅ r1.1) r1.2
              (default ∅ r2.1) r2.2 "A" 0%nat) as (_ & _ & Hh & Hp & _).
  - unfold roundInv, poolOk, inUse, keyed.
    split; [split|split]; apply (bool_decide_unpack _); vm_compute; exact I.
  - vm_compute. reflexivity.
  - vm_compute. reflexivity.
  - vm_compute. reflexivity.
  - apply (bool_decide_unpack _). vm_compute. exact I.
  - apply (bool_decide_unpack _). vm_compute. exact I.
  - vm_compute. reflexivity.
  - split; [|exact Hp]. etransitivity; [exact Hh|]. vm_compute. reflexivity.
Defined.

(** ** Every effect of a round has its session *)

Lemma startEvents_effects v :
  List.filter isEffect (startEvents v) = [EvInsert v; EvGo (CutTask (uid v) (liveID v))].
Proof. done. Qed.

Lemma NoDup_start_effects (h : gmap loc live) (ls : list loc) :
  NoDup ls →
  (∀ l1 l2, l1 ∈ ls → l2 ∈ ls → liveID (h !!! l1) = liveID (h !!! l2) → l1 = l2) →
  NoDup (flat_map (λ l, [EvInsert (h !!! l);
                         EvGo (CutTask (uid (h !!! l)) (liveID (h !!! l)))]) ls).
Proof.
  induction ls as [|l ls IH]; intros Hnd Hinj; [apply NoDup_nil_2|].
  apply NoDup_cons in Hnd as [Hl Hnd]. cbn [flat_map app].
  assert (∀ l', l' ∈ ls → liveID (h !!! l') ≠ liveID (h !!! l)) as Hne.
  { intros l' Hl' Heq. assert (l' = l) as ->; [|done].
    apply Hinj; [by apply list_elem_of_further|apply list_elem_of_here|done]. }
  apply NoDup_cons. split.
  { rewrite not_elem_of_cons. split; [done|].
    intros Hin. apply list_elem_of_In, in_flat_map in Hin as (l' & Hl' & Hin).
    apply list_elem_of_In in Hl'. cbn [In] in Hin.
    destruct Hin as [Hin|[Hin|[]]]; [|done].
    injection Hin as Hv. apply (Hne l' Hl'). by rewrite Hv. }
  apply NoDup_cons. split.
  { intros Hin. apply list_elem_of_In, in_flat_map in Hin as (l' & Hl' & Hin).
    apply list_elem_of_In in Hl'. cbn [In] in Hin.
    destruct Hin as [Hin|[Hin|[]]]; [done|].
    injection Hin as _ Hid. by apply (Hne l' Hl'). }
  apply IH; [done|]. intros l1 l2 H1 H2. apply Hinj; by apply list_elem_of_further.
Qed.

Lemma filter_effects_app evs1 evs2 :
  List.filter isEffect (evs1 ++ evs2) = List.filter isEffect evs1 ++ List.filter isEffect evs2.
Proof. apply List.filter_app. Qed.

Lemma filter_effects_quiet evs : Forall quiet evs → List.filter isEffect evs = [].
Proof.
  induction evs as [|e evs IH]; intros Hq; [done|].
  apply Forall_cons in Hq as [He Hq]. cbn [List.filter]. rewrite He. by apply IH.
Qed.

Lemma filter_effects_start (h : gmap loc live) (ls : list loc) :
  List.filter isEffect (flat_map (λ l, startEvents (h !!! l)) ls)
  = flat_map (λ l, [EvInsert (h !!! l);
                    EvGo (CutTask (uid (h !!! l)) (liveID (h !!! l)))]) ls.
Proof.
  induction ls as [|l ls IH]; [done|]. cbn [flat_map].
  by rewrite filter_effects_app, IH, startEvents_effects.
Qed.

Lemma filter_effects_go (ls : list loc) :
  List.filter isEffect ((λ l, EvGo (SummaryTask l)) <$> ls)
  = (λ l, EvGo (SummaryTask l)) <$> ls.
Proof.
  induction ls as [|l ls IH]; [done|]. cbn [fmap list_fmap List.filter isEffect].
  f_equal. exact IH.
Qed.

(** X14. Every effect of a round that gets its snapshot has its session,
    and has it once. An insert is of a session of the new snapshot, of the
    owner 646973, whose id the old snapshot does not have; a cut-number
    goroutine is for such an id; a summary goroutine is for a session of
    the old snapshot, of that owner, whose id the new one does not have.
    The round itself updates no cut number and no duration, and no effect
    occurs twice in it. *)
Theorem pollOnce_effects up oldList w newList w' :
  roundInv w oldList →
  pollOnce up oldList w = (Some newList, w') →
  ∃ evs, trace w' = trace w ++ evs
    ∧ (∀ v, EvInsert v ∈ evs →
         uid v = watchedUID ∧ (liveID v ∉ dom oldList)
         ∧ ∃ l, newList !! liveID v = Some l ∧ heap w' !!! l = v)
    ∧ (∀ u id, EvGo (CutTask u id) ∈ evs →
         u = watchedUID ∧ id ∈ dom newList ∧ id ∉ dom oldList)
    ∧ (∀ l, EvGo (SummaryTask l) ∈ evs →
         uid (heap w' !!! l) = watchedUID
         ∧ ∃ k, oldList !! k = Some l ∧ k ∉ dom newList)
    ∧ (∀ id n, EvUpdateLiveCutNum id n ∉ evs)
    ∧ (∀ id d, EvUpdateLiveDuration id d ∉ evs)
    ∧ NoDup (List.filter isEffect evs).
Proof.
  intros Hinv Hp.
  destruct (pollOnce_roundInv up oldList w newList w' Hinv Hp) as (Hkold & Hknew & _).
  apply pollOnce_anatomy in Hp as (w0 & fevs & _ & Hfl & Ht & Hq & ->).
  set (w1 := (fetchLiveList up w0).2) in *.
  assert (heap (emit (EvSleep 20) (diffLoops oldList newList w1)) = heap w1) as Hheap.
  { cbn [emit heap]. apply diffLoops_heap. }
  rewrite Hheap in *. set (h := heap w1) in *.
  exists (fevs ++ diffEvents h oldList newList ++ [EvSleep 20]). split.
  { cbn [emit trace]. rewrite diffLoops_trace, Ht. by rewrite <- !app_assoc. }
  assert (∀ e, isEffect e = true →
               e ∈ fevs ++ diffEvents h oldList newList ++ [EvSleep 20] →
               e ∈ diffEvents h oldList newList) as Honly.
  { intros e He. rewrite !elem_of_app. intros [Hin|[Hin|Hin]]; [|done|].
    - rewrite Forall_forall in Hq. specialize (Hq e Hin). unfold quiet in Hq. congruence.
    - apply list_elem_of_singleton in Hin. by subst e. }
  assert (∀ l, l ∈ List.filter (watched h) (started h oldList newList) →
               uid (h !!! l) = watchedUID ∧ (liveID (h !!! l) ∉ dom oldList)
               ∧ newList !! liveID (h !!! l) = Some l) as Hstarted.
  { intros l [[Hl Habs]%elem_of_filter_bool Hw]%elem_of_filter_bool.
    apply elem_of_range in Hl as [k Hk]. split; [by apply Z.eqb_eq|].
    split; [by apply absent_true|]. by rewrite (Hknew k l Hk). }
  assert (∀ l, l ∈ List.filter (watched h) (ended h oldList newList) →
               uid (h !!! l) = watchedUID ∧ ∃ k, oldList !! k = Some l ∧ k ∉ dom newList)
    as Hended.
  { intros l [[Hl Habs]%elem_of_filter_bool Hw]%elem_of_filter_bool.
    apply elem_of_range in Hl as [k Hk]. split; [by apply Z.eqb_eq|].
    exists k. split; [done|]. apply absent_true in Habs. by rewrite (Hkold k l Hk) in Habs. }
  assert (∀ e, e ∈ diffEvents h oldList newList →
               (∃ l, l ∈ List.filter (watched h) (started h oldList newList)
                     ∧ e ∈ startEvents (h !!! l))
               ∨ (∃ l, l ∈ List.filter (watched h) (ended h oldList newList)
                       ∧ e = EvGo (SummaryTask l))) as Hfrom.
  { intros e. unfold diffEvents. rewrite elem_of_app. intros [Hin|Hin].
    - left. apply list_elem_of_In, in_flat_map in Hin as (l & Hl & Hin).
      exists l. by rewrite !list_elem_of_In.
    - right. apply list_elem_of_fmap in Hin as (l & -> & Hl). by exists l. }
  split; [|split; [|split; [|split; [|split]]]].
  - intros v Hin. apply Honly, Hfrom in Hin as [(l & Hl & Hin)|(l & _ & Hin)]; [|done|done].
    destruct (Hstarted l Hl) as (Hu & Hn & Hk).
    unfold startEvents in Hin. apply list_elem_of_In in Hin. cbn [In] in Hin.
    destruct Hin as [Hin|[Hin|[Hin|[]]]]; try discriminate.
    injection Hin as <-. split; [done|]. split; [done|]. by exists l.
  - intros u id Hin. apply Honly, Hfrom in Hin as [(l & Hl & Hin)|(l & _ & Hin)]; [|done|done].
    destruct (Hstarted l Hl) as (Hu & Hn & Hk).
    unfold startEvents in Hin. apply list_elem_of_In in Hin. cbn [In] in Hin.
    destruct Hin as [Hin|[Hin|[Hin|[]]]]; try discriminate.
    injection Hin as <- <-. split; [done|]. split; [|done]. by apply elem_of_dom_2 in Hk.
  - intros l Hin. apply Honly, Hfrom in Hin as [(l' & Hl & Hin)|(l' & Hl & Hin)]; [| |done].
    + unfold startEvents in Hin. apply list_elem_of_In in Hin. cbn [In] in Hin.
      destruct Hin as [Hin|[Hin|[Hin|[]]]]; discriminate.
    + injection Hin as ->. by apply Hended.
  - intros id n Hin. apply Honly, Hfrom in Hin as [(l & _ & Hin)|(l & _ & Hin)]; [|done|done].
    unfold startEvents in Hin. apply list_elem_of_In in Hin. cbn [In] in Hin.
    destruct Hin as [Hin|[Hin|[Hin|[]]]]; discriminate.
  - intros id d Hin. apply Honly, Hfrom in Hin as [(l & _ & Hin)|(l & _ & Hin)]; [|done|done].
    unfold startEvents in Hin. apply list_elem_of_In in Hin. cbn [In] in Hin.
    destruct Hin as [Hin|[Hin|[Hin|[]]]]; discriminate.
  - rewrite !filter_effects_app, (filter_effects_quiet fevs Hq). cbn [List.filter isEffect app].
    rewrite app_nil_r. unfold diffEvents.
    rewrite filter_effects_app, filter_effects_start, filter_effects_go.
    apply NoDup_app. split; [|split].
    + apply NoDup_start_effects.
      * apply NoDup_ListNoDup, List.NoDup_filter, List.NoDup_filter, NoDup_ListNoDup.
        by eapply NoDup_range_keyed.
      * intros l1 l2 H1 H2 Heq.
        destruct (Hstarted l1 H1) as (_ & _ & K1). destruct (Hstarted l2 H2) as (_ & _ & K2).
        rewrite Heq in K1. congruence.
    + intros e Hin Hin'. apply list_elem_of_fmap in Hin' as (l & -> & _).
      apply list_elem_of_In, in_flat_map in Hin as (l' & _ & Hin). cbn [In] in Hin.
      destruct Hin as [Hin|[Hin|[]]]; discriminate.
    + apply NoDup_fmap_2; [by intros ?? [= ->]|].
      apply NoDup_ListNoDup, List.NoDup_filter, List.NoDup_filter, NoDup_ListNoDup.
      by eapply NoDup_range_keyed.
Qed.

Lemma pollOnce_effects_witness :
  ∃ evs, trace (pollOnce (listPlatform snapshot2) fetched1.1.1 fetched1.2).2
         = trace fetched1.2 ++ evs
    ∧ NoDup (List.filter isEffect evs).
Proof.
  destruct (pollOnce_effects (listPlatform snapshot2) fetched1.1.1 fetched1.2
              fetched2.1.1
              (pollOnce (listPlatform snapshot2) fetched1.1.1 fetched1.2).2)
    as (evs & Ht & _ & _ & _ & _ & _ & Hnd).
  { unfold roundInv, poolOk, inUse, keyed.
    split; [split|split]; apply (bool_decide_unpack _); vm_compute; exact I. }
  { vm_compute. reflexivity. }
  exists evs. split; assumption.
Defined.

(** ** The rate of the loop *)

(** X15. The rate of the polling loop. In [rounds] rounds it makes fifteen
    requests for the list at most in each of them, and it sleeps forty
    seconds at most in each of them; as long as it goes on, it has slept
    twenty seconds at least in each round. *)
Theorem mainLoop_rate rounds done i up oldList w :
  let r := mainLoop rounds done i up oldList w in
  (tick w ≤ tick r.2 ≤ tick w + 15 * rounds)%nat
  ∧ elapsed (trace w) ≤ elapsed (trace r.2) ≤ elapsed (trace w) + 40 * Z.of_nat rounds
  ∧ match r.1 with
    | Polling _ => elapsed (trace w) + 20 * Z.of_nat rounds ≤ elapsed (trace r.2)
    | _ => True
    end.
Proof.
  revert i oldList w. induction rounds as [|rounds IH]; intros i oldList w r; subst r.
  - cbn [mainLoop fst snd]. lia.
  - cbn [mainLoop]. destruct (done i); [cbn [fst snd]; lia|].
    pose proof (pollOnce_cost up oldList w) as Hc. cbv zeta in Hc.
    destruct (pollOnce up oldList w) as [[newList|] w1]; cbn [fst snd] in Hc.
    + specialize (IH (Datatypes.S i) newList w1). cbv zeta in IH.
      destruct (mainLoop rounds done (Datatypes.S i) up newList w1) as [st w2].
      cbn [fst snd] in *. destruct Hc as [Ha Hs], IH as (Ht & Hz & Hst).
      split; [lia|]. split; [lia|]. destruct st; [done|done|lia].
    + cbn [fst snd]. lia.
Qed.

(** ** [duration] *)

Lemma pad2_digits n :
  0 ≤ n < 100 →
  ∃ a b, Format.pad2 n = String a (String b EmptyString)
         ∧ isDigit a = true ∧ isDigit b = true ∧ 10 * digitVal a + digitVal b = n.
Proof.
  intros Hn.
  assert (forallb pad2_ok (seq 0 100) = true) as Hall by (vm_compute; reflexivity).
  rewrite forallb_forall in Hall.
  specialize (Hall (Z.to_nat n)). rewrite in_seq in Hall.
  specialize (Hall ltac:(lia)). unfold pad2_ok in Hall.
  rewrite Z2Nat.id in Hall by lia.
  destruct (Format.pad2 n) as [|a [|b [|]]]; try discriminate.
  apply andb_prop in Hall as [Hab Heq]. apply andb_prop in Hab as [Ha Hb].
  apply Z.eqb_eq in Heq. by exists a, b.
Qed.

Lemma clock_ranges sec :
  0 ≤ Format.Hour sec < 24 ∧ 0 ≤ Format.Minute sec < 60 ∧ 0 ≤ Format.Second sec < 60
  ∧ 3600 * Format.Hour sec + 60 * Format.Minute sec + Format.Second sec = sec mod 86400.
Proof.
  unfold Format.Hour, Format.Minute, Format.Second.
  pose proof (Z.mod_pos_bound sec 86400 ltac:(lia)) as Hd.
  assert (sec mod 3600 = (sec mod 86400) mod 3600) as E1.
  { symmetry. apply Z.mod_mod_divide. exists 24. lia. }
  assert (sec mod 60 = (sec mod 86400) mod 60) as E2.
  { symmetry. apply Z.mod_mod_divide. exists 1440. lia. }
  rewrite E1, E2. set (t := sec mod 86400) in *. clearbody t.
  pose proof (Z.div_mod t 3600 ltac:(lia)).
  pose proof (Z.mod_pos_bound t 3600 ltac:(lia)).
  pose proof (Z.div_mod (t mod 3600) 60 ltac:(lia)).
  pose proof (Z.mod_pos_bound (t mod 3600) 60 ltac:(lia)).
  assert (t mod 60 = (t mod 3600) mod 60) as E3.
  { symmetry. apply Z.mod_mod_divide. exists 60. lia. }
  rewrite E3.
  assert (0 ≤ t / 3600 < 24)
    by (split; [apply Z.div_pos; lia|apply Z.div_lt_upper_bound; lia]).
  assert (0 ≤ t mod 3600 / 60 < 60)
    by (split; [apply Z.div_pos; lia|apply Z.div_lt_upper_bound; lia]).
  lia.
Qed.

(** The clock of a second of the day. *)
Lemma clock_of_second sec sec' :
  sec mod 86400 = sec' mod 86400 →
  Format.Hour sec = Format.Hour sec' ∧ Format.Minute sec = Format.Minute sec'
  ∧ Format.Second sec = Format.Second sec'.
Proof.
  intros Heq. unfold Format.Hour, Format.Minute, Format.Second.
  assert (∀ x, x mod 3600 = (x mod 86400) mod 3600) as E1.
  { intros x. symmetry. apply Z.mod_mod_divide. exists 24. lia. }
  assert (∀ x, x mod 60 = (x mod 86400) mod 60) as E2.
  { intros x. symmetry. apply Z.mod_mod_divide. exists 1440. lia. }
  by rewrite (E1 sec), (E1 sec'), (E2 sec), (E2 sec'), Heq.
Qed.

Lemma readClock_duration dtime :
  String.length (Format.duration dtime) = 8%nat
  ∧ readClock (Format.duration dtime) = Some (secondOfDay dtime).
Proof.
  unfold Format.duration, secondOfDay. set (sec := Z.quot dtime 1000).
  destruct (clock_ranges sec) as (Hh & Hm & Hs & Hsum).
  destruct (pad2_digits (Format.Hour sec)) as (h1 & h2 & -> & Hh1 & Hh2 & Hhv); [lia|].
  destruct (pad2_digits (Format.Minute sec)) as (m1 & m2 & -> & Hm1 & Hm2 & Hmv); [lia|].
  destruct (pad2_digits (Format.Second sec)) as (s1 & s2 & -> & Hs1 & Hs2 & Hsv); [lia|].
  split; [done|].
  cbv [String.append readClock twoDigits].
  rewrite Hh1, Hh2, Hm1, Hm2, Hs1, Hs2. cbn [andb Ascii.eqb Bool.eqb].
  rewrite Hhv, Hmv, Hsv.
  destruct Hh as [_ Hh], Hm as [_ Hm], Hs as [_ Hs].
  apply Z.ltb_lt in Hh, Hm, Hs. rewrite Hh, Hm, Hs. cbn [andb]. by rewrite Hsum.
Qed.

(** X16. [duration] always gives eight bytes, "HH:MM:SS" with two digits
    each, hours below 24 and minutes and seconds below 60, and the time
    they spell is the second of the day of [dtime]: the whole seconds of
    [dtime], rounded towards zero, modulo a day. *)
Theorem duration_clock dtime :
  String.length (Format.duration dtime) = 8%nat
  ∧ readClock (Format.duration dtime) = Some (Z.quot dtime 1000 mod 86400)
  ∧ 0 ≤ Z.quot dtime 1000 mod 86400 < 86400.
Proof.
  destruct (readClock_duration dtime) as [Hl Hr]. split; [done|]. split; [done|].
  apply Z.mod_pos_bound. lia.
Qed.

(** X17. Two lengths are shown alike exactly when they have the same second
    of the day: [duration] tells no more and no less than that. *)
Theorem duration_same_iff a b :
  Format.duration a = Format.duration b ↔ secondOfDay a = secondOfDay b.
Proof.
  split.
  - intros Heq. pose proof (proj2 (readClock_duration a)) as Ha.
    pose proof (proj2 (readClock_duration b)) as Hb. rewrite Heq in Ha. congruence.
  - unfold secondOfDay, Format.duration. intros Heq.
    by destruct (clock_of_second _ _ Heq) as (-> & -> & ->).
Qed.

(** X18. What [duration] loses of a length that is not negative: the days
    and the milliseconds. A recording of 25 hours is shown as one of one
    hour. *)
Theorem duration_wraps dtime days ms :
  0 ≤ dtime → 0 ≤ days → 0 ≤ ms → dtime mod 1000 + ms < 1000 →
  Format.duration (dtime + ms + 86400000 * days) = Format.duration dtime.
Proof.
  intros Hd Hdays Hms Hlt. unfold Format.duration.
  assert (Z.quot (dtime + ms + 86400000 * days) 1000 mod 86400
          = Z.quot dtime 1000 mod 86400) as Heq.
  { rewrite !Z.quot_div_nonneg by lia.
    pose proof (Z.div_mod dtime 1000 ltac:(lia)) as Hdm.
    pose proof (Z.mod_pos_bound dtime 1000 ltac:(lia)) as Hb.
    assert ((dtime + ms + 86400000 * days) / 1000 = dtime / 1000 + 86400 * days) as ->.
    { symmetry. apply (Z.div_unique _ _ _ (dtime mod 1000 + ms)); lia. }
    rewrite Z.add_mod by lia. rewrite (Z.mul_comm 86400), Z.mod_mul by lia.
    rewrite Z.add_0_r. apply Z.mod_mod. lia. }
  by destruct (clock_of_second _ _ Heq) as (-> & -> & ->).
Qed.

Lemma duration_wraps_witness :
  Format.duration (3600000 + 999 + 86400000 * 1) = Format.duration 3600000.
Proof. apply duration_wraps; vm_compute; congruence. Defined.

(** A length of 25 hours and one of one hour; the last second before a
    negative length shows. *)
Example duration_examples :
  Format.duration 90000000 = "01:00:00"
  ∧ Format.duration 3600000 = "01:00:00"
  ∧ Format.duration 86399999 = "23:59:59"
  ∧ Format.duration (-999) = "00:00:00"
  ∧ Format.duration (-1000) = "23:59:59".
Proof. vm_compute. done. Qed.

(** ** The console: [handleQuery] and [prepare_table] *)

Lemma print_printAll o c : print o c = printAll [o] c.
Proof. done. Qed.

Lemma printAll_printAll os1 os2 c :
  printAll os2 (printAll os1 c) = printAll (os1 ++ os2) c.
Proof. unfold printAll. cbn [cworld printed]. by rewrite app_assoc. Qed.

Lemma printAll_nil c : printAll [] c = c.
Proof. destruct c as [w os]. unfold printAll. cbn [cworld printed]. by rewrite app_nil_r. Qed.

Lemma scanRows_eq rs hasUID c :
  scanRows rs hasUID c
  = (match scanError rs with
     | Some e => Panic e
     | None => Ret (hasUID || negb (bool_decide (rs = [])))
     end, printAll (printLive <$> scanned rs) c).
Proof.
  revert hasUID c. induction rs as [|[v|e] rs IH]; intros hasUID c; cbn [scanRows].
  - cbn [scanError scanned fmap list_fmap]. rewrite printAll_nil.
    rewrite bool_decide_true by done. by rewrite orb_false_r.
  - rewrite IH. cbn [scanError scanned fmap list_fmap].
    rewrite print_printAll, printAll_printAll. cbn [app].
    destruct (scanError rs); [done|]. cbn [orb].
    rewrite (bool_decide_false (inl v :: rs = [])) by done.
    by rewrite orb_true_r.
  - cbn [scanError scanned fmap list_fmap]. by rewrite printAll_nil.
Qed.

(** X19. [handleQuery] takes the read lock first and gives it back last, on
    every way out, a panic too; when the query gave rows it closes them
    before that, and when the query failed it has nothing to close. It
    prints the rows up to the first that cannot be scanned, in order. It
    logs that there is no record exactly when the query gave no row and no
    error. It panics with the first error among that of the query, that of
    a scan and that of the rows, and it leaves the world alone. *)
Theorem handleQuery_outcome db u count c :
  let r := handleQuery db u count c in
  cworld r.2 = cworld c
  ∧ match selectUIDStmt db (printed c ++ [OutRLock]) u count with
    | inr e =>
        r.1 = Panic e
        ∧ printed r.2 = printed c ++ [OutRLock; OutQuery u count; OutRUnlock]
    | inl rs =>
        r.1 = match scanError (scans rs), rowsErr rs with
              | Some e, _ => Panic e
              | None, Some e => Panic e
              | None, None => Ret tt
              end
        ∧ printed r.2
          = printed c ++ [OutRLock; OutQuery u count]
            ++ (printLive <$> scanned (scans rs))
            ++ (if bool_decide (scans rs = [] ∧ rowsErr rs = None)
                then [OutNoRecord u] else [])
            ++ [OutRowsClose; OutRUnlock]
    end.
Proof.
  intros r. subst r. unfold handleQuery.
  change (printed (print OutRLock c)) with (printed c ++ [OutRLock]).
  destruct (selectUIDStmt db (printed c ++ [OutRLock]) u count) as [rs|e].
  2:{ rewrite !print_printAll, !printAll_printAll. done. }
  rewrite scanRows_eq.
  destruct (scanError (scans rs)) as [e|] eqn:Hse.
  - rewrite !print_printAll, !printAll_printAll. cbn [fst snd printAll cworld printed].
    split; [done|]. split; [done|].
    rewrite bool_decide_false; [by rewrite <- ?app_assoc|].
    intros [Hnil _]. rewrite Hnil in Hse. done.
  - destruct (rowsErr rs) as [e|] eqn:Hre.
    + rewrite !print_printAll, !printAll_printAll. cbn [fst snd printAll cworld printed].
      split; [done|]. split; [done|].
      rewrite bool_decide_false by (by intros [_ ?]).
      by rewrite <- ?app_assoc.
    + cbn [orb]. destruct (scans rs) as [|s ss] eqn:Hs.
      * rewrite bool_decide_true by done. rewrite bool_decide_true by done.
        cbn [negb scanned fmap list_fmap].
        rewrite !print_printAll, !printAll_printAll.
        cbn [fst snd printAll cworld printed].
        split; [done|]. split; [done|]. by rewrite <- ?app_assoc.
      * rewrite bool_decide_false by done.
        rewrite bool_decide_false by (by intros [? _]).
        cbn [negb]. rewrite !print_printAll, !printAll_printAll.
        cbn [fst snd printAll cworld printed].
        split; [done|]. split; [done|]. by rewrite <- ?app_assoc.
Qed.

Ltac ddl_in H :=
  repeat (apply elem_of_cons in H as [H|H]; [try discriminate|]);
  try (by apply elem_of_nil in H).

(** X20. [prepare_table] asks first whether the table is there. It creates
    the table only when the answer is 0, and then asks nothing about the
    column; it adds the column only to a table that is there and whose
    column count is 0. When it returns, the two indexes were created last,
    in their order, after one of three runs of statements. When it panics,
    the error is that of the statement it ran last. No statement runs
    twice. *)
Theorem prepare_table_outcomes db :
  let r := prepare_table db [] in
  (∃ rest, r.2 = checkTable :: rest) ∧ NoDup r.2
  ∧ (r.1 = Ret tt →
     r.2 = [checkTable; createTable; createLiveIDIndex; createUIDIndex]
     ∨ r.2 = [checkTable; checkLiveCutNum; createLiveIDIndex; createUIDIndex]
     ∨ r.2 = [checkTable; checkLiveCutNum; insertLiveCutNum;
              createLiveIDIndex; createUIDIndex])
  ∧ (createTable ∈ r.2 →
     QueryRowScan db [] checkTable = inl 0
     ∧ (checkLiveCutNum ∉ r.2) ∧ (insertLiveCutNum ∉ r.2))
  ∧ (insertLiveCutNum ∈ r.2 →
     (∃ n, n ≠ 0 ∧ QueryRowScan db [] checkTable = inl n)
     ∧ QueryRowScan db [checkTable] checkLiveCutNum = inl 0)
  ∧ (∀ e, r.1 = Panic e →
     ∃ before q, r.2 = before ++ [q]
       ∧ (QueryRowScan db before q = inr e ∨ ExecContext db before q = Some e)).
Proof.
  intros r. subst r.
  unfold prepare_table, createIndexes, queryDDL, execDDL. cbn [app].
  destruct (QueryRowScan db [] checkTable) as [n|e0] eqn:Q1; cbn [checkErr].
  2:{ cbn [fst snd]. split; [by eexists|]. split; [apply (bool_decide_unpack _); by vm_compute|].
      split; [done|]. split; [intros H; ddl_in H|]. split; [intros H; ddl_in H|].
      intros e [= <-]. exists [], checkTable. split; [done|by left]. }
  destruct (n =? 0) eqn:Hn.
  - apply Z.eqb_eq in Hn. subst n.
    destruct (ExecContext db [checkTable] createTable) as [e1|] eqn:E1; cbn [checkErr app].
    { cbn [fst snd]. split; [by eexists|].
      split; [apply (bool_decide_unpack _); by vm_compute|].
      split; [done|]. split; [intros _; split; [done|]; split; intros H; ddl_in H|].
      split; [intros H; ddl_in H|].
      intros e [= <-]. exists [checkTable], createTable. split; [done|by right]. }
    destruct (ExecContext db [checkTable; createTable] createLiveIDIndex) as [e2|] eqn:E2;
      cbn [checkErr app].
    { cbn [fst snd]. split; [by eexists|].
      split; [apply (bool_decide_unpack _); by vm_compute|].
      split; [done|]. split; [intros _; split; [done|]; split; intros H; ddl_in H|].
      split; [intros H; ddl_in H|].
      intros e [= <-]. exists [checkTable; createTable], createLiveIDIndex.
      split; [done|by right]. }
    cbn [fst snd]. split; [by eexists|].
    split; [apply (bool_decide_unpack _); by vm_compute|].
    split; [intros _; by left|].
    split; [intros _; split; [done|]; split; intros H; ddl_in H|].
    split; [intros H; ddl_in H|].
    intros e He. exists [checkTable; createTable; createLiveIDIndex], createUIDIndex.
    split; [done|right].
    destruct (ExecContext db [checkTable; createTable; createLiveIDIndex] createUIDIndex);
      cbn [checkErr] in He; congruence.
  - apply Z.eqb_neq in Hn.
    destruct (QueryRowScan db [checkTable] checkLiveCutNum) as [n2|e1] eqn:Q2.
    2:{ cbn [fst snd]. split; [by eexists|].
        split; [apply (bool_decide_unpack _); by vm_compute|].
        split; [done|]. split; [intros H; ddl_in H|]. split; [intros H; ddl_in H|].
        intros e [= <-]. exists [checkTable], checkLiveCutNum. split; [done|by left]. }
    destruct (n2 =? 0) eqn:Hn2.
    + apply Z.eqb_eq in Hn2. subst n2.
      destruct (ExecContext db [checkTable; checkLiveCutNum] insertLiveCutNum) as [e2|] eqn:E2;
        cbn [checkErr app].
      { cbn [fst snd]. split; [by eexists|].
        split; [apply (bool_decide_unpack _); by vm_compute|].
        split; [done|]. split; [intros H; ddl_in H|].
        split; [intros _; split; [by exists n|done]|].
        intros e [= <-]. exists [checkTable; checkLiveCutNum], insertLiveCutNum.
        split; [done|by right]. }
      destruct (ExecContext db [checkTable; checkLiveCutNum; insertLiveCutNum]
                  createLiveIDIndex) as [e3|] eqn:E3; cbn [checkErr app].
      { cbn [fst snd]. split; [by eexists|].
        split; [apply (bool_decide_unpack _); by vm_compute|].
        split; [done|]. split; [intros H; ddl_in H|].
        split; [intros _; split; [by exists n|done]|].
        intros e [= <-].
        exists [checkTable; checkLiveCutNum; insertLiveCutNum], createLiveIDIndex.
        split; [done|by right]. }
      cbn [fst snd]. split; [by eexists|].
      split; [apply (bool_decide_unpack _); by vm_compute|].
      split; [intros _; right; by right|]. split; [intros H; ddl_in H|].
      split; [intros _; split; [by exists n|done]|].
      intros e He.
      exists [checkTable; checkLiveCutNum; insertLiveCutNum; createLiveIDIndex],
        createUIDIndex.
      split; [done|right].
      destruct (ExecContext db [checkTable; checkLiveCutNum; insertLiveCutNum;
                                createLiveIDIndex] createUIDIndex);
        cbn [checkErr] in He; congruence.
    + destruct (ExecContext db [checkTable; checkLiveCutNum] createLiveIDIndex) as [e3|] eqn:E3;
        cbn [checkErr app].
      { cbn [fst snd]. split; [by eexists|].
        split; [apply (bool_decide_unpack _); by vm_compute|].
        split; [done|]. split; [intros H; ddl_in H|]. split; [intros H; ddl_in H|].
        intros e [= <-]. exists [checkTable; checkLiveCutNum], createLiveIDIndex.
        split; [done|by right]. }
      cbn [fst snd]. split; [by eexists|].
      split; [apply (bool_decide_unpack _); by vm_compute|].
      split; [intros _; right; by left|]. split; [intros H; ddl_in H|].
      split; [intros H; ddl_in H|].
      intros e He. exists [checkTable; checkLiveCutNum; createLiveIDIndex], createUIDIndex.
      split; [done|right].
      destruct (ExecContext db [checkTable; checkLiveCutNum; createLiveIDIndex]
                  createUIDIndex); cbn [checkErr] in He; congruence.
Qed.

(** ** The console: [getplayback] *)

Lemma requests_of_failures id errs :
  length (List.filter isRequest
            (flat_map (λ e, [EvGetPlayback id; EvLog (LogError e); EvSleep 10]) errs))
  = length errs.
Proof.
  induction errs as [|e errs IH]; [done|]. cbn [flat_map app List.filter isRequest length].
  by rewrite IH.
Qed.

Lemma failures_quiet id errs :
  Forall quiet (flat_map (λ e, [EvGetPlayback id; EvLog (LogError e); EvSleep 10]) errs).
Proof.
  induction errs as [|e errs IH]; [done|]. cbn [flat_map app]. by repeat constructor.
Qed.

(** One call of [getPlayback]: one to three lookups, a recording or the
    error of three failures, and no object touched. *)
Lemma getPlayback_step up id w :
  let r := getPlayback up id w in
  sameObjects w r.2 ∧ grows quiet w r.2
  ∧ (tick w < tick r.2 ≤ tick w + 3)%nat
  ∧ match r.1 with
    | (Some pb, None) => True
    | (None, Some e) => ∃ c, e = ErrPlayback id (ErrThrice (Some c))
    | _ => False
    end.
Proof.
  intros r. subst r. unfold getPlayback.
  pose proof (getPlayback_lookups up id w) as Hl.
  destruct (runThrice (getPlaybackOp up id) (None, w)) as [[e|] [pb w1]].
  - destruct Hl as (e1 & e2 & e3 & _ & _ & _ & -> & ->). cbn [fst snd].
    split; [done|]. split; [apply grows_emitAll; by apply threeFailures_quiet|].
    split; [|by eexists]. rewrite tick_emitAll. cbn [threeFailures List.filter isRequest length].
    lia.
  - destruct Hl as (j & pb0 & errs & Hj & Hlen & _ & _ & -> & ->).
    pose proof (failures_quiet id errs) as Hq.
    pose proof (requests_of_failures id errs) as Hn.
    assert (tick (emitAll (flat_map (λ e, [EvGetPlayback id; EvLog (LogError e); EvSleep 10])
                             errs ++ [EvGetPlayback id]) w)
            = (tick w + Datatypes.S j)%nat) as Ht.
    { rewrite tick_emitAll, List.filter_app, length_app, Hn. cbn [List.filter isRequest length].
      lia. }
    destruct (nonEmpty (URL pb0)); [destruct (Distinguish up pb0) as [aliURL txURL];
      destruct (nonEmpty aliURL && nonEmpty txURL)|]; cbn [fst snd].
    + split; [done|]. split.
      { apply grows_emitAll, Forall_app. split; [done|]. by repeat constructor. }
      split; [lia|done].
    + cbn [logPrintf world_runtime]. rewrite emit_emitAll, emitAll_emitAll.
      split; [done|]. split.
      { apply grows_emitAll, Forall_app. split; [|by repeat constructor].
        apply Forall_app. split; [done|]. by repeat constructor. }
      split; [|done]. rewrite tick_emitAll, !List.filter_app, !length_app, Hn.
      cbn [List.filter isRequest length]. lia.
    + split; [done|]. split.
      { apply grows_emitAll, Forall_app. split; [done|]. by repeat constructor. }
      split; [lia|done].
Qed.

Lemma playbackStep_spec up c id :
  let c' := playbackStep up c id in
  (∃ o, printed c' = printed c ++ [o] ∧ playbackLine id o)
  ∧ sameObjects (cworld c) (cworld c') ∧ grows quiet (cworld c) (cworld c')
  ∧ (tick (cworld c) < tick (cworld c') ≤ tick (cworld c) + 3)%nat.
Proof.
  intros c'. subst c'. unfold playbackStep.
  pose proof (getPlayback_step up id (cworld c)) as Hs. cbv zeta in Hs.
  destruct (getPlayback up id (cworld c)) as [[pb err] w1]. cbn [fst snd] in Hs.
  destruct Hs as (Hsame & Hg & Ht & Hr).
  destruct err as [e|]; [destruct pb as [pb|]; [done|]|destruct pb as [pb|]; [|done]].
  - destruct Hr as [e3 ->]. cbn [print inWorld printed cworld].
    split; [|done]. eexists. split; [done|]. right. by eexists.
  - cbn [print inWorld printed cworld].
    split; [|done]. eexists. split; [done|]. left. by do 2 eexists.
Qed.

Lemma fold_playbackStep up ids c :
  let c' := fold_left (playbackStep up) ids c in
  (∃ os, printed c' = printed c ++ os ∧ Forall2 playbackLine ids os)
  ∧ sameObjects (cworld c) (cworld c') ∧ grows quiet (cworld c) (cworld c')
  ∧ (tick (cworld c) + length ids ≤ tick (cworld c')
     ≤ tick (cworld c) + 3 * length ids)%nat.
Proof.
  revert c. induction ids as [|id ids IH]; intros c c'; subst c'.
  - cbn [fold_left length]. split; [exists []; by rewrite app_nil_r|].
    split; [done|]. split; [apply grows_refl|lia].
  - cbn [fold_left length].
    destruct (playbackStep_spec up c id) as ((o & Ho & Hline) & Hsame & Hg & Ht).
    destruct (IH (playbackStep up c id)) as ((os & Hos & Hlines) & Hsame' & Hg' & Ht').
    split.
    { exists (o :: os). split; [|by constructor]. rewrite Hos, Ho.
      by rewrite <- app_assoc. }
    split; [by eapply sameObjects_trans|]. split; [by eapply grows_trans|]. lia.
Qed.

Lemma getplaybackCmd_lines_aux up ids c :
  sameObjects (cworld c) (cworld (getplaybackCmd up ids c))
  ∧ grows quiet (cworld c) (cworld (getplaybackCmd up ids c)).
Proof.
  unfold getplaybackCmd.
  by destruct (fold_playbackStep up ids (print OutPlaybackWait c)) as (_ & Hsame & Hg & _).
Qed.

(** X21. The command [getplayback] with the ids [ids]: after its first
    line the console prints one line for every id, in the order of the
    ids: the recording, or the error of [getPlayback], which names the id
    and the last of three failures. It makes between one and three lookups
    for every id, writes nothing to the store, starts no goroutine and
    touches no object. *)
Theorem getplaybackCmd_lines up ids c :
  let c' := getplaybackCmd up ids c in
  (∃ os, printed c' = printed c ++ OutPlaybackWait :: os
         ∧ Forall2 playbackLine ids os)
  ∧ sameObjects (cworld c) (cworld c') ∧ grows quiet (cworld c) (cworld c')
  ∧ (tick (cworld c) + length ids ≤ tick (cworld c')
     ≤ tick (cworld c) + 3 * length ids)%nat.
Proof.
  intros c'. subst c'. unfold getplaybackCmd.
  destruct (fold_playbackStep up ids (print OutPlaybackWait c))
    as ((os & Hos & Hlines) & Hsame & Hg & Ht).
  split; [|done]. exists os. split; [|done]. rewrite Hos. cbn [print printed].
  by rewrite <- app_assoc.
Qed.

(** ** The console: what it does to the world *)

Lemma harmless_refl w : harmless w w.
Proof. split; [apply grows_refl|]. intros Hok. split; [done|apply recycles_refl]. Qed.

Lemma harmless_trans w1 w2 w3 : harmless w1 w2 → harmless w2 w3 → harmless w1 w3.
Proof.
  intros [Hg1 H1] [Hg2 H2]. split; [by eapply grows_trans|].
  intros Hok. destruct (H1 Hok) as [Hok2 Hr1]. destruct (H2 Hok2) as [Hok3 Hr2].
  split; [done|]. by eapply recycles_trans.
Qed.

Lemma sameObjects_harmless w w' : sameObjects w w' → grows quiet w w' → harmless w w'.
Proof.
  intros Hsame Hg. split; [done|]. intros Hok. split; [|by apply sameObjects_recycles].
  destruct Hsame as (Hh & Hp & Hn). unfold poolOk. by rewrite Hp, Hn.
Qed.

Lemma fetchLiveList_harmless up w : harmless w (fetchLiveList up w).2.
Proof.
  split.
  - pose proof (fetchListOp_grows up ((∅ : gmap string loc), w)) as Hg.
    by rewrite fetchListOp_eq in Hg.
  - intros Hok. split; [by apply fetchLiveList_keyed|by apply fetchLiveList_recycles].
Qed.

(** A world that only took objects from the pool keeps the invariant of
    the loop, and the sessions of its snapshot. *)
Lemma roundInv_recycles w w' m :
  poolOk w' → recycles w w' → roundInv w m →
  roundInv w' m ∧ ∀ k l, m !! k = Some l → heap w' !!! l = heap w !!! l.
Proof.
  intros Hok' (Hn & Hp & Hh) (Hok & Huse & Hkey).
  assert (∀ k l, m !! k = Some l → heap w' !!! l = heap w !!! l) as Hsame.
  { intros k l Hl. destruct (Huse k l Hl) as [Hnp Hlt]. by apply Hh. }
  split; [|done]. split; [done|]. split.
  - intros k l Hl. destruct (Huse k l Hl) as [Hnp Hlt]. split; [|lia].
    intros Hin. by apply Hnp, Hp.
  - intros k l Hl. rewrite (Hsame k l Hl). by apply Hkey.
Qed.

Lemma fold_print {A} (f : A → output) (ls : list A) c :
  fold_left (λ c l, print (f l) c) ls c = printAll (f <$> ls) c.
Proof.
  revert c. induction ls as [|l ls IH]; intros c; cbn [fold_left fmap list_fmap].
  - by rewrite printAll_nil.
  - by rewrite IH, print_printAll, printAll_printAll.
Qed.

Lemma fold_print_if {A} (p : A → bool) (f : A → output) (ls : list A) c :
  fold_left (λ c l, if p l then print (f l) c else c) ls c
  = printAll (f <$> List.filter p ls) c.
Proof.
  revert c. induction ls as [|l ls IH]; intros c; cbn [fold_left List.filter].
  - by rewrite printAll_nil.
  - rewrite IH. destruct (p l); [|done]. cbn [fmap list_fmap].
    by rewrite print_printAll, printAll_printAll.
Qed.

Lemma cworld_printAll os c : cworld (printAll os c) = cworld c.
Proof. done. Qed.

Lemma handleQuery_cworld db u count c : cworld (handleQuery db u count c).2 = cworld c.
Proof.
  unfold handleQuery. destruct (selectUIDStmt db _ u count) as [rs|e]; [|done].
  rewrite scanRows_eq.
  destruct (scanError (scans rs)); [done|]. destruct (rowsErr rs); [done|].
  by destruct (_ || _).
Qed.

Lemma acmon_fetchCmd_eq up c :
  Acmon.fetchCmd up c
  = let r := fetchLiveList up (cworld c) in
    mkConsole r.2
      (printed c ++ OutFetch ::
         match r.1.2 with
         | Some e => [OutError e]
         | None => (λ l, printLive (heap r.2 !!! l)) <$> range r.1.1
         end).
Proof.
  unfold Acmon.fetchCmd. cbv zeta. rewrite print_printAll, cworld_printAll.
  destruct (fetchLiveList up (cworld c)) as [[newList [e|]] w1]; cbn [fst snd].
  - unfold print, printAll, inWorld. cbn [cworld printed]. by rewrite <- app_assoc.
  - rewrite fold_print. unfold printAll, inWorld. cbn [cworld printed].
    by rewrite <- app_assoc.
Qed.

Lemma acmon_fetchJCmd_eq up c :
  Acmon.fetchJCmd up c
  = let r := fetchLiveList up (cworld c) in
    mkConsole r.2
      (printed c ++ OutFetchJ ::
         match r.1.2 with
         | Some e => [OutError e]
         | None => (λ l, printLive (heap r.2 !!! l))
                     <$> ownedBy (heap r.2) watchedUID (range r.1.1)
         end).
Proof.
  unfold Acmon.fetchJCmd. cbv zeta. rewrite print_printAll, cworld_printAll.
  destruct (fetchLiveList up (cworld c)) as [[newList [e|]] w1]; cbn [fst snd].
  - unfold print, printAll, inWorld. cbn [cworld printed]. by rewrite <- app_assoc.
  - rewrite (fold_print_if (λ l, uid (heap w1 !!! l) =? watchedUID)
               (λ l, printLive (heap w1 !!! l))).
    unfold printAll, inWorld, ownedBy. cbn [cworld printed].
    by rewrite <- app_assoc.
Qed.

Lemma acmon_handleLine_harmless up db cmd c :
  harmless (cworld c) (cworld (Acmon.handleLine up db cmd c).2).
Proof.
  unfold Acmon.handleLine. destruct cmd as [|c0 args]; [apply harmless_refl|].
  destruct (_ && _); [apply harmless_refl|].
  destruct (String.eqb c0 "list_j").
  { pose proof (handleQuery_cworld db watchedUID (-1) c) as Hq.
    destruct (handleQuery db watchedUID (-1) c) as [[u|e] c1]; cbn [snd] in *;
      rewrite Hq; apply harmless_refl. }
  destruct (String.eqb c0 "getplayback").
  { cbn [snd]. destruct (getplaybackCmd_lines_aux up args c) as (Hs & Hg).
    by apply sameObjects_harmless. }
  destruct (String.eqb c0 "fetch").
  { cbn [snd]. rewrite acmon_fetchCmd_eq. cbn [cworld]. apply fetchLiveList_harmless. }
  destruct (String.eqb c0 "fetch_j").
  { cbn [snd]. rewrite acmon_fetchJCmd_eq. cbn [cworld]. apply fetchLiveList_harmless. }
  apply harmless_refl.
Qed.

Lemma acmon_handleLines_harmless up db lines c :
  harmless (cworld c) (cworld (Acmon.handleLines up db lines c).2).
Proof.
  revert c. induction lines as [|cmd lines IH]; intros c; cbn [Acmon.handleLines].
  - apply harmless_refl.
  - pose proof (acmon_handleLine_harmless up db cmd c) as Hl.
    destruct (Acmon.handleLine up db cmd c) as [[| |s] c1]; cbn [snd] in *; [|done..].
    eapply harmless_trans; [exact Hl|apply IH].
Qed.

(** X22. The console of the program that polls and the loop. Whatever the
    lines of the input are, [handleInput] writes nothing to the store and
    starts no goroutine. When it runs between two rounds of the loop, the
    invariant of the loop still holds after it, and the sessions of the
    snapshot the loop holds are what they were: [fetch] and [fetch_j]
    take their objects from the pool or allocate them. *)
Theorem acmon_console_harmless up db lines scanErr c :
  let c' := (Acmon.handleInput up db lines scanErr c).2 in
  grows quiet (cworld c) (cworld c')
  ∧ (∀ DB ins upc upd (db0 : DB),
       replay DB ins upc upd (trace (cworld c')) db0
       = replay DB ins upc upd (trace (cworld c)) db0)
  ∧ (∀ m, roundInv (cworld c) m →
          roundInv (cworld c') m
          ∧ ∀ k l, m !! k = Some l → heap (cworld c') !!! l = heap (cworld c) !!! l).
Proof.
  intros c'.
  assert (harmless (cworld c) (cworld c')) as [Hg Hpool].
  { subst c'. unfold Acmon.handleInput.
    pose proof (acmon_handleLines_harmless up db lines (print OutHelp c)) as Hh.
    by destruct (Acmon.handleLines up db lines (print OutHelp c)) as [[| |s] c1]. }
  split; [done|]. split; [intros; by apply replay_grows|].
  intros m Hinv. destruct (Hpool (proj1 Hinv)) as [Hok' Hrec].
  by apply roundInv_recycles.
Qed.

Lemma acmon_handleLines_app up db pre rest c :
  Acmon.handleLines up db (pre ++ rest) c
  = match Acmon.handleLines up db pre c with
    | (Continue, c1) => Acmon.handleLines up db rest c1
    | r => r
    end.
Proof.
  revert c. induction pre as [|cmd pre IH]; intros c; cbn [app Acmon.handleLines]; [done|].
  destruct (Acmon.handleLine up db cmd c) as [[| |s] c1]; [apply IH|done..].
Qed.

(** X23. The loop of [handleInput] ends at the first line that is [quit]
    and nothing else: the console sends on the channel, what follows in
    the input is not read, and the function returns whatever the scanner
    would have met later. With more fields, as in [quit now], the line is
    no [quit]: it is answered like an empty line, by the help line. *)
Theorem acmon_quit up db pre post scanErr c c1 :
  Acmon.handleLines up db pre (print OutHelp c) = (Continue, c1) →
  Acmon.handleInput up db (pre ++ ["quit"] :: post) scanErr c = (None, print OutQuit c1)
  ∧ ∀ x xs,
      Acmon.handleInput up db (pre ++ ("quit" :: x :: xs) :: post) scanErr c
      = Acmon.handleInput up db (pre ++ [] :: post) scanErr c.
Proof.
  intros Hpre. split.
  - unfold Acmon.handleInput. rewrite acmon_handleLines_app, Hpre. done.
  - intros x xs. unfold Acmon.handleInput. rewrite !acmon_handleLines_app, Hpre. done.
Qed.

Lemma acmon_quit_witness :
  Acmon.handleInput (listPlatform snapshot1)
    noRecords
    ([["help"]; ["quit"]; ["fetch"]]) (Some (ErrCollaborator "read error"))
    newConsole
  = (None, mkConsole emptyWorld [OutHelp; OutHelp; OutQuit]).
Proof.
  refine (proj1 (acmon_quit (listPlatform snapshot1)
                   noRecords
                   [["help"]] [["fetch"]] (Some (ErrCollaborator "read error"))
                   newConsole (mkConsole emptyWorld [OutHelp; OutHelp]) _)).
  vm_compute. reflexivity.
Defined.

Lemma fmap_ext_in {A B} (f g : A → B) (ls : list A) :
  (∀ x, x ∈ ls → f x = g x) → f <$> ls = g <$> ls.
Proof.
  induction ls as [|x ls IH]; intros Hall; [done|]. cbn [fmap list_fmap].
  rewrite (Hall x) by apply list_elem_of_here. f_equal. apply IH.
  intros y Hy. apply Hall. by apply list_elem_of_further.
Qed.

Lemma printLive_unenriched v : unenriched v → printLive v = freshLine v.
Proof. intros (Hd & Hc & _). unfold printLive, freshLine. by rewrite Hd, Hc. Qed.

(** X24. What [fetch] and [fetch_j] of the program that polls show. After
    a fetch that fails: the error. After one that succeeds: one line for
    every session of the list, and for [fetch_j] one for every session of
    the owner 646973; since the sessions are the ones [fetchLiveList] has
    just built, every line shows the duration 00:00:00 and the cut number
    0, whatever the store holds for the session. *)
Theorem acmon_fetch_lines up c :
  let r := fetchLiveList up (cworld c) in
  cworld (Acmon.fetchCmd up c) = r.2 ∧ cworld (Acmon.fetchJCmd up c) = r.2
  ∧ match r.1.2 with
    | Some e =>
        printed (Acmon.fetchCmd up c) = printed c ++ [OutFetch; OutError e]
        ∧ printed (Acmon.fetchJCmd up c) = printed c ++ [OutFetchJ; OutError e]
    | None =>
        printed (Acmon.fetchCmd up c)
        = printed c ++ OutFetch :: ((λ l, freshLine (heap r.2 !!! l)) <$> range r.1.1)
        ∧ printed (Acmon.fetchJCmd up c)
          = printed c ++ OutFetchJ ::
              ((λ l, freshLine (heap r.2 !!! l))
                 <$> ownedBy (heap r.2) watchedUID (range r.1.1))
    end.
Proof.
  intros r. rewrite acmon_fetchCmd_eq, acmon_fetchJCmd_eq. cbv zeta. fold r.
  cbn [cworld printed]. split; [done|]. split; [done|].
  destruct (r.1.2) as [e|] eqn:He; [done|].
  assert (∀ l, l ∈ range r.1.1 → printLive (heap r.2 !!! l) = freshLine (heap r.2 !!! l))
    as Hfresh.
  { intros l [k Hl]%elem_of_range. apply printLive_unenriched.
    by apply (fetchLiveList_unenriched up (cworld c) k l). }
  split; do 2 f_equal; apply fmap_ext_in; [done|].
  intros l Hl. apply Hfresh. unfold ownedBy in Hl.
  by apply elem_of_filter_bool in Hl as [Hl _].
Qed.

(** ** The console of the program that only reads commands *)

Lemma saveLiveId_prints d v c :
  cworld (saveLiveId d v c) = cworld c
  ∧ ∃ mid,
      printed (saveLiveId d v c)
      = printed c ++ [OutSaveLiveId (name v); OutOpen (name v +:+ ".txt")]
          ++ mid ++ [OutSaveSuccess]
      ∧ saveAttempt (name v +:+ ".txt") v mid.
Proof.
  unfold saveLiveId. cbv zeta.
  destruct (OpenFile d _ _) as [e|].
  - split; [done|]. exists [OutError e; OutWriteFailed ErrInvalid].
    split; [|right; right; by eexists].
    rewrite !print_printAll, !printAll_printAll. done.
  - destruct (WriteString d _ _ v) as [e|].
    + split; [done|]. exists [OutWriteFailed e]. split; [|right; left; by eexists].
      rewrite !print_printAll, !printAll_printAll. done.
    + split; [done|]. exists [OutAppend (name v +:+ ".txt") v]. split; [|by left].
      rewrite !print_printAll, !printAll_printAll. done.
Qed.

Lemma saveWatched_eq d h ls c :
  Acfunlivedb.saveWatched d h ls c
  = match ownedBy h watchedUID ls with
    | [] => (false, c)
    | l :: _ => (true, saveLiveId d (h !!! l) c)
    end.
Proof.
  induction ls as [|l ls IH]; [done|].
  cbn [Acfunlivedb.saveWatched]. unfold ownedBy in *. cbn [List.filter].
  by destruct (uid (h !!! l) =? watchedUID).
Qed.

Lemma saveFirst_number d h arg u ls c :
  Atoi arg = (u, None) →
  Acfunlivedb.saveFirst d h arg ls c
  = match ownedBy h u ls with
    | [] => c
    | l :: _ => saveLiveId d (h !!! l) c
    end.
Proof.
  intros Ha. induction ls as [|l ls IH]; [done|].
  cbn [Acfunlivedb.saveFirst]. rewrite Ha. unfold ownedBy in *. cbn [List.filter].
  by destruct (uid (h !!! l) =? u).
Qed.

Lemma saveFirst_error d h arg u e ls c :
  Atoi arg = (u, Some e) →
  Acfunlivedb.saveFirst d h arg ls c = printAll (replicate (length ls) (OutError e)) c.
Proof.
  intros Ha. revert c. induction ls as [|l ls IH]; intros c.
  - cbn [Acfunlivedb.saveFirst length replicate]. by rewrite printAll_nil.
  - cbn [Acfunlivedb.saveFirst length replicate]. rewrite Ha, IH.
    by rewrite print_printAll, printAll_printAll.
Qed.

Lemma ownedBy_head h u ls l rest :
  ownedBy h u ls = l :: rest → l ∈ ls ∧ uid (h !!! l) = u.
Proof.
  intros Ho. assert (l ∈ ownedBy h u ls) as Hin by (rewrite Ho; apply list_elem_of_here).
  unfold ownedBy in Hin. apply elem_of_filter_bool in Hin as [Hin Hu].
  split; [done|]. by apply Z.eqb_eq.
Qed.

Lemma acfunlivedb_handleLines_app up d pre rest c :
  Acfunlivedb.handleLines up d (pre ++ rest) c
  = match Acfunlivedb.handleLines up d pre c with
    | (Continue, c1) => Acfunlivedb.handleLines up d rest c1
    | r => r
    end.
Proof.
  revert c. induction pre as [|cmd pre IH]; intros c;
    cbn [app Acfunlivedb.handleLines]; [done|].
  destruct (Acfunlivedb.handleLine up d cmd c) as [[| |s] c1]; [apply IH|done..].
Qed.

(** X25. [fetch] without an argument, in the program that only reads
    commands: when the list can be fetched, the command ends the process
    by an index out of range, after the requests of the fetch and before
    it prints or saves anything; the lines after it are not read. *)
Theorem acfunlivedb_fetch_no_argument up d pre post scanErr c c1 :
  Acfunlivedb.handleLines up d pre (print OutHelp c) = (Continue, c1) →
  (fetchLiveList up (cworld c1)).1.2 = None →
  Acfunlivedb.handleInput up d (pre ++ ["fetch"] :: post) scanErr c
  = (Some (StopIndex 1 1),
     mkConsole (fetchLiveList up (cworld c1)).2 (printed c1 ++ [OutFetch])).
Proof.
  intros Hpre Hok. unfold Acfunlivedb.handleInput.
  rewrite acfunlivedb_handleLines_app, Hpre.
  cbn [Acfunlivedb.handleLines Acfunlivedb.handleLine length Nat.eqb andb String.eqb
       Ascii.eqb Bool.eqb].
  unfold Acfunlivedb.fetchCmd. cbv zeta. rewrite print_printAll, cworld_printAll.
  destruct (fetchLiveList up (cworld c1)) as [[newList err] w1]. cbn [fst snd] in *.
  subst err. done.
Qed.

Lemma acfunlivedb_fetch_no_argument_witness :
  (Acfunlivedb.handleInput (listPlatform snapshot1)
     goodDisk
     [["fetch"]; ["quit"]] None newConsole).1
  = Some (StopIndex 1 1).
Proof.
  pose proof (acfunlivedb_fetch_no_argument (listPlatform snapshot1)
                goodDisk [] [["quit"]] None
                newConsole (mkConsole emptyWorld [OutHelp])) as Hstop.
  cbn [app] in Hstop. rewrite Hstop.
  - reflexivity.
  - vm_compute. reflexivity.
  - vm_compute. reflexivity.
Defined.

(** X26. [fetch] with an argument other than [all], after a fetch that
    succeeded. An argument that is no number in the range of an [int]
    saves nothing: the error of [strconv.Atoi] is logged once for every
    session of the list. A number saves one session of that owner at most,
    the first the loop comes to, and none of another owner. The last line
    of a save tells of success whether the record was written or not. *)
Theorem acfunlivedb_fetch_owner up d arg rest c :
  arg ≠ "all" →
  (fetchLiveList up (cworld c)).1.2 = None →
  let r := fetchLiveList up (cworld c) in
  let res := Acfunlivedb.handleLine up d ("fetch" :: arg :: rest) c in
  res.1 = Continue ∧ cworld res.2 = r.2
  ∧ match Atoi arg with
    | (_, Some e) =>
        printed res.2
        = printed c ++ OutFetch :: replicate (length (range r.1.1)) (OutError e)
    | (u, None) =>
        match ownedBy (heap r.2) u (range r.1.1) with
        | [] => printed res.2 = printed c ++ [OutFetch]
        | l :: _ =>
            let v := heap r.2 !!! l in
            uid v = u ∧ l ∈ range r.1.1
            ∧ ∃ mid,
                printed res.2
                = printed c ++ [OutFetch; OutSaveLiveId (name v);
                                OutOpen (name v +:+ ".txt")]
                    ++ mid ++ [OutSaveSuccess]
                ∧ saveAttempt (name v +:+ ".txt") v mid
        end
    end.
Proof.
  intros Hall Hok r res. subst res.
  assert (String.eqb arg "all" = false) as Hne by (by apply String.eqb_neq).
  cbn [Acfunlivedb.handleLine length Nat.eqb andb String.eqb Ascii.eqb Bool.eqb].
  unfold Acfunlivedb.fetchCmd. cbv zeta. rewrite print_printAll, cworld_printAll.
  subst r. destruct (fetchLiveList up (cworld c)) as [[newList err] w1].
  cbn [fst snd] in *. subst err. rewrite Hne. cbn [fst snd].
  destruct (Atoi arg) as [u [e|]] eqn:Ha.
  - rewrite (saveFirst_error d (heap w1) arg u e) by done.
    split; [done|]. split; [done|].
    unfold printAll, inWorld. cbn [cworld printed]. by rewrite <- app_assoc.
  - rewrite (saveFirst_number d (heap w1) arg u) by done.
    destruct (ownedBy (heap w1) u (range newList)) as [|l ls] eqn:Ho.
    + split; [done|]. split; [done|]. done.
    + destruct (ownedBy_head _ _ _ _ _ Ho) as [Hin Hu].
      destruct (saveLiveId_prints d (heap w1 !!! l) (inWorld w1 (printAll [OutFetch] c)))
        as (Hw & mid & Hp & Hmid).
      split; [done|]. split; [by rewrite Hw|]. split; [done|]. split; [done|].
      exists mid. split; [|done]. rewrite Hp.
      unfold printAll, inWorld. cbn [cworld printed]. by rewrite <- !app_assoc.
Qed.

Lemma acfunlivedb_fetch_owner_witness :
  printed (Acfunlivedb.handleLine (listPlatform snapshot1)
             goodDisk ["fetch"; "x7"]
             newConsole).2
  = [OutFetch; OutError (ErrAtoi "x7"); OutError (ErrAtoi "x7")].
Proof.
  refine (proj2 (proj2 (acfunlivedb_fetch_owner (listPlatform snapshot1)
                          goodDisk "x7" []
                          newConsole _ _))).
  - discriminate.
  - vm_compute. reflexivity.
Defined.

(** X27. [fetch_j] of the program that only reads commands: after a fetch
    that fails, the error; after one that succeeds, the save of one session
    of the owner 646973, the first the loop comes to, as the list gave it,
    or the line that there is none. A save ends with the line of success
    also when the file could not be opened or written. *)
Theorem acfunlivedb_fetch_j up d c :
  let r := fetchLiveList up (cworld c) in
  let c' := Acfunlivedb.fetchJCmd up d c in
  cworld c' = r.2
  ∧ match r.1.2 with
    | Some e => printed c' = printed c ++ [OutFetchJ; OutError e]
    | None =>
        match ownedBy (heap r.2) watchedUID (range r.1.1) with
        | [] => printed c' = printed c ++ [OutFetchJ; OutNotFind watchedUID]
        | l :: _ =>
            let v := heap r.2 !!! l in
            uid v = watchedUID ∧ unenriched v
            ∧ ∃ mid,
                printed c'
                = printed c ++ [OutFetchJ; OutSaveLiveId (name v);
                                OutOpen (name v +:+ ".txt")]
                    ++ mid ++ [OutSaveSuccess]
                ∧ saveAttempt (name v +:+ ".txt") v mid
        end
    end.
Proof.
  intros r c'. subst c'. unfold Acfunlivedb.fetchJCmd. cbv zeta.
  rewrite print_printAll, cworld_printAll.
  pose proof (fetchLiveList_unenriched up (cworld c)) as Hun. fold r in Hun.
  subst r. destruct (fetchLiveList up (cworld c)) as [[newList err] w1].
  cbn [fst snd] in *. destruct err as [e|].
  - split; [done|]. unfold print, printAll, inWorld. cbn [cworld printed].
    by rewrite <- app_assoc.
  - rewrite saveWatched_eq.
    destruct (ownedBy (heap w1) watchedUID (range newList)) as [|l ls] eqn:Ho.
    + split; [done|]. unfold print, printAll, inWorld. cbn [cworld printed].
      by rewrite <- app_assoc.
    + destruct (ownedBy_head _ _ _ _ _ Ho) as [Hin Hu].
      destruct (saveLiveId_prints d (heap w1 !!! l) (inWorld w1 (printAll [OutFetchJ] c)))
        as (Hw & mid & Hp & Hmid).
      split; [by rewrite Hw|]. split; [done|]. split.
      { apply elem_of_range in Hin as [k Hk]. by apply (Hun k l). }
      exists mid. split; [|done]. rewrite Hp.
      unfold printAll, inWorld. cbn [cworld printed]. by rewrite <- !app_assoc.
Qed.

(** ** The loop together with its goroutines and the console *)

Lemma cutTask_sameObjects up u id w : sameObjects w (cutTask up u id w).
Proof.
  unfold cutTask.
  pose proof (runThrice_sameObjects (fetchCutOp up u id) (0, w)
                (fetchCutOp_sameObjects up u id)) as Hsame.
  destruct (runThrice (fetchCutOp up u id) (0, w)) as [[e|] [n w1]]; exact Hsame.
Qed.

Lemma summaryTask_objects up l w :
  heap (summaryTask up l w) = heap w ∧ next (summaryTask up l w) = next w
  ∧ pool (summaryTask up l w) = l :: pool w.
Proof.
  pose proof (runThrice_sameObjects (getSummaryOp up l) (None, timeSleep 10 w)
                (getSummaryOp_sameObjects up l)) as Hsame.
  unfold summaryTask.
  destruct (runThrice (getSummaryOp up l) (None, timeSleep 10 w)) as [err [sm w1]].
  cbn [fst snd] in Hsame. destruct Hsame as (Hh & Hp & Hn).
  change (heap (timeSleep 10 w)) with (heap w) in Hh.
  change (pool (timeSleep 10 w)) with (pool w) in Hp.
  change (next (timeSleep 10 w)) with (next w) in Hn.
  destruct err as [e|]; [|destruct sm as [sm|]; [destruct (Duration sm =? 0)|]];
    cbn [poolPut logPrintf world_runtime emit heap pool next];
    by rewrite Hp.
Qed.

(** A world that took objects from the pool at most keeps every object
    that is neither in the pool nor in the snapshot out of both. *)
Lemma sysInv_recycles s w' :
  sysInv s → poolOk w' → recycles (sworld s) w' →
  sysInv (mkSystem w' (held s) (pending s)).
Proof.
  intros (Hinv & Hnd & Hpend) Hok' Hrec.
  destruct (roundInv_recycles _ _ _ Hok' Hrec Hinv) as [Hinv' _].
  destruct Hrec as (Hn & Hp & Hh).
  split; [done|]. split; [done|]. cbn [sworld held pending].
  intros l v Hl. destruct (Hpend l v Hl) as (Hnp & Hlt & Hnh & Hv & Hu).
  split; [intros Hin; by apply Hnp, Hp|]. split; [lia|]. split; [done|].
  split; [by rewrite Hh|done].
Qed.

Lemma sysStep_inv up db s s' : sysInv s → sysStep up db s s' → sysInv s'.
Proof.
  intros Hs Hstep. destruct Hstep as [s newList w' Hp|s l v before after Hpend|s u id|s cmd os].
  - destruct Hs as (Hinv & Hnd & Hpend).
    destruct (pollOnce_roundInv up _ _ _ _ Hinv Hp) as (Hkold & Hknew & Hinv').
    destruct (pollOnce_sessions up _ _ _ _ Hinv Hp) as (evs & _ & _ & Hend & _).
    pose proof (pollOnce_keeps_sessions up _ _ _ _ Hinv Hp) as Hkeep.
    pose proof Hinv as (Hok & Huse & Hkey).
    pose proof Hp as Hp'.
    apply pollOnce_anatomy in Hp' as (w0 & fevs & (Hh0 & Hp0 & Hn0) & Hfl & _ & _ & Hw').
    assert (poolOk w0) as Hok0 by (unfold poolOk; by rewrite Hp0, Hn0).
    destruct (fetchLiveList_recycles up w0 Hok0) as ((Hnext & Hsub & Hheap) & Horig).
    rewrite Hfl in Horig. cbn [fst] in Horig.
    set (w1 := (fetchLiveList up w0).2) in *.
    assert (heap w' = heap w1) as Hheap'.
    { rewrite Hw'. cbn [emit heap]. apply diffLoops_heap. }
    assert (pool w' = rev (kept (heap w1) (held s) newList) ++ pool w1) as Hpool'.
    { rewrite Hw'. cbn [emit pool]. by rewrite diffLoops_eq. }
    assert (next w' = next w1) as Hnext'.
    { rewrite Hw'. cbn [emit next]. by rewrite diffLoops_eq. }
    (* an object that is neither in the pool nor in the old snapshot *)
    assert (∀ l, l ∉ pool (sworld s) → (l < next (sworld s))%nat →
                 (∀ k, held s !! k ≠ Some l) →
                 (l ∉ pool w') ∧ (l < next w')%nat ∧ (∀ k, newList !! k ≠ Some l)
                 ∧ heap w' !!! l = heap (sworld s) !!! l) as Hdet.
    { intros l Hnp Hlt Hnh. split; [|split; [|split]].
      - rewrite Hpool', elem_of_app. intros [Hin|Hin].
        + apply (proj1 (elem_of_rev _ _)) in Hin.
          apply elem_of_filter_bool in Hin as [Hin _].
          apply elem_of_range in Hin as [k Hk]. by apply (Hnh k).
        + apply Hnp. rewrite <- Hp0. by apply Hsub.
      - rewrite Hnext'. lia.
      - intros k Hk. destruct (Horig k l Hk) as [Hin|Hge]; [|lia].
        apply Hnp. by rewrite <- Hp0.
      - rewrite Hheap', Hheap; [by rewrite Hh0|by rewrite Hp0|lia]. }
    (* an object of the old snapshot whose id is gone *)
    assert (∀ l, l ∈ List.filter (watched (heap w')) (ended (heap w') (held s) newList) →
                 (∃ k, held s !! k = Some l) ∧ (l ∉ pool w') ∧ (l < next w')%nat
                 ∧ (∀ k, newList !! k ≠ Some l) ∧ uid (heap w' !!! l) = watchedUID) as Hgone.
    { intros l [[Hl Habs]%elem_of_filter_bool Hw]%elem_of_filter_bool.
      apply elem_of_range in Hl as [k Hk].
      destruct (Huse k l Hk) as [Hnp Hlt].
      split; [by exists k|]. split.
      { refine (proj1 (Hend k l Hk _)). apply absent_true in Habs.
        by rewrite (Hkold k l Hk) in Habs. }
      split; [rewrite Hnext'; lia|]. split; [|by apply Z.eqb_eq].
      intros k' Hk'. destruct (Horig k' l Hk') as [Hin|Hge]; [|lia].
      apply Hnp. by rewrite <- Hp0. }
    split; [done|]. cbn [sworld held pending]. split.
    + rewrite fmap_app. apply NoDup_app. split; [done|]. split.
      * intros l Hin Hin'. apply list_elem_of_fmap in Hin as ([l0 v0] & -> & Hin).
        destruct (Hpend l0 v0 Hin) as (_ & _ & Hnh & _).
        unfold enders in Hin'. rewrite <- list_fmap_compose in Hin'.
        apply list_elem_of_fmap in Hin' as (l1 & Heq & Hin'). cbn in Heq. subst l1.
        destruct (Hgone l0 Hin') as ([k Hk] & _). by apply (Hnh k).
      * unfold enders. rewrite <- list_fmap_compose.
        rewrite (fmap_ext_in _ id); [|done]. rewrite list_fmap_id.
        apply NoDup_ListNoDup, List.NoDup_filter, List.NoDup_filter, NoDup_ListNoDup.
        by eapply NoDup_range_keyed.
    + intros l v. rewrite elem_of_app. intros [Hin|Hin].
      * destruct (Hpend l v Hin) as (Hnp & Hlt & Hnh & Hv & Hu).
        destruct (Hdet l Hnp Hlt Hnh) as (H1 & H2 & H3 & H4).
        split; [done|]. split; [done|]. split; [done|]. split; [by rewrite H4|done].
      * unfold enders in Hin. apply list_elem_of_fmap in Hin as (l0 & [= -> ->] & Hin).
        destruct (Hgone l0 Hin) as (_ & H1 & H2 & H3 & H4). done.
  - destruct Hs as (Hinv & Hnd & Hall). rewrite Hpend in *.
    destruct (summaryTask_objects up l (sworld s)) as (Hh & Hn & Hp).
    destruct (Hall l v) as (Hnp & Hlt & Hnh & Hv & Hu).
    { rewrite elem_of_app. right. apply list_elem_of_here. }
    rewrite fmap_app, fmap_cons in Hnd. cbn [fst] in Hnd.
    apply NoDup_app in Hnd as (Hnd1 & Hdis & Hnd2).
    apply NoDup_cons in Hnd2 as [Hl2 Hnd2].
    destruct Hinv as ((Hpnd & Hplt) & Huse & Hkey).
    split; [|split]; cbn [sworld held pending].
    + split; [split|split].
      * rewrite Hp. by apply NoDup_cons.
      * rewrite Hp, Hn. by apply Forall_cons.
      * intros k l' Hk. destruct (Huse k l' Hk) as [Hnp' Hlt'].
        rewrite Hp, Hn. split; [|done]. rewrite not_elem_of_cons. split; [|done].
        intros ->. by apply (Hnh k).
      * unfold keyed. by rewrite Hh.
    + rewrite fmap_app. apply NoDup_app. split; [done|]. split; [|done].
      intros l' Hin Hin'. apply (Hdis l' Hin). by apply list_elem_of_further.
    + intros l' v' Hin.
      assert ((l', v') ∈ before ++ (l, v) :: after) as Hin'.
      { rewrite elem_of_app in Hin. rewrite elem_of_app, elem_of_cons. tauto. }
      destruct (Hall l' v' Hin') as (Hnp' & Hlt' & Hnh' & Hv' & Hu').
      rewrite Hp, Hn, Hh. split; [|done]. rewrite not_elem_of_cons. split; [|done].
      intros ->. rewrite elem_of_app in Hin. destruct Hin as [Hin|Hin].
      * apply (Hdis l); [|apply list_elem_of_here].
        apply list_elem_of_fmap. by exists (l, v').
      * apply Hl2. apply list_elem_of_fmap. by exists (l, v').
  - pose proof (cutTask_sameObjects up u id (sworld s)) as Hsame.
    apply sysInv_recycles; [done| |by apply sameObjects_recycles].
    destruct Hsame as (_ & Hp & Hn). destruct Hs as (((Hnd & Hlt) & _) & _).
    unfold poolOk. by rewrite Hp, Hn.
  - destruct (acmon_handleLine_harmless up db cmd (mkConsole (sworld s) os)) as [_ Hh].
    cbn [cworld] in Hh. destruct Hs as (Hinv & Hrest).
    destruct (Hh (proj1 Hinv)) as [Hok' Hrec].
    by apply sysInv_recycles.
Qed.

(** X28. The objects of the pool are safe under every interleaving of the
    rounds of the loop, the runs of the summary goroutines the rounds have
    started, the runs of cut-number goroutines and the commands of the
    console. However they follow one another: the pool holds every object
    once; the sessions of the snapshot the loop holds are objects outside
    the pool, one for each id; and the object of every summary goroutine
    that has not ended is outside the pool and outside the snapshot, is the
    object of no other goroutine, and still holds the session of the owner
    646973 that it held when the goroutine started. So a goroutine that
    sleeps while the loop goes on reads its own session when it wakes up,
    and its [livePool.Put] puts back an object that is not in the pool. *)
Theorem system_pool_safety up db s s' :
  sysInv s → rtc (sysStep up db) s s' → sysInv s'.
Proof.
  intros Hs Hsteps. induction Hsteps as [s|s1 s2 s3 Hstep _ IH]; [done|].
  apply IH. by eapply sysStep_inv.
Qed.



Lemma system_pool_safety_witness :
  sysInv system2 ∧ pending system2 = [(0%nat, roomLive (roomOf "A" 646973 "js"))].
Proof.
  split; [|vm_compute; reflexivity].
  apply (system_pool_safety twoSnapshots noRecords system0 system2).
  - split; [|split].
    + unfold roundInv, poolOk, inUse, keyed.
      split; [split|split]; apply (bool_decide_unpack _); vm_compute; exact I.
    + apply NoDup_nil_2.
    + intros l v Hin. by apply elem_of_nil in Hin.
  - apply (rtc_l _ system0 system1 system2).
    { unfold system1, afterRound.
      apply (StepRound twoSnapshots noRecords system0).
      vm_compute. reflexivity. }
    apply (rtc_l _ system1 system2 system2); [|apply rtc_refl].
    unfold system2, afterRound.
    apply (StepRound twoSnapshots noRecords system1).
    vm_compute. reflexivity.
Defined.

(** ** What reaches the store, under every interleaving *)



Lemma insertsWatched_refl w : insertsWatched w w.
Proof. exists []. split; [by rewrite app_nil_r|]. intros v Hin. by apply elem_of_nil in Hin. Qed.

Lemma insertsWatched_trans w1 w2 w3 :
  insertsWatched w1 w2 → insertsWatched w2 w3 → insertsWatched w1 w3.
Proof.
  intros (evs1 & H1 & F1) (evs2 & H2 & F2). exists (evs1 ++ evs2).
  split; [by rewrite H2, H1, app_assoc|].
  intros v. rewrite elem_of_app. intros [Hin|Hin]; auto.
Qed.

Lemma grows_quiet_insertsWatched w w' : grows quiet w w' → insertsWatched w w'.
Proof.
  intros (evs & Ht & Hq). exists evs. split; [done|]. intros v Hin.
  rewrite Forall_forall in Hq. by specialize (Hq _ Hin).
Qed.

Lemma cutTask_insertsWatched up u id w : insertsWatched w (cutTask up u id w).
Proof.
  unfold cutTask.
  pose proof (runThrice_grows quiet (fetchCutOp up u id) (0, w)
                (fetchCutOp_grows up u id) ltac:(done) ltac:(done)) as Hg.
  destruct (runThrice (fetchCutOp up u id) (0, w)) as [[e|] [n w1]]; cbn [fst snd] in Hg.
  - apply grows_quiet_insertsWatched. eapply grows_trans; [exact Hg|].
    by apply (grows_emit quiet).
  - eapply insertsWatched_trans; [by apply grows_quiet_insertsWatched|].
    exists [EvUpdateLiveCutNum id n]. split; [done|].
    intros v Hin. apply list_elem_of_singleton in Hin. discriminate.
Qed.

Lemma grows_poolPut (P : event → Prop) l w w' :
  grows P w w' → grows P w (poolPut l w').
Proof. intros (evs & Ht & Hq). by exists evs. Qed.

Lemma insertsWatched_poolPut l w w' :
  insertsWatched w w' → insertsWatched w (poolPut l w').
Proof. intros (evs & Ht & Hq). by exists evs. Qed.

Lemma summaryTask_insertsWatched up l w :
  uid (heap w !!! l) = watchedUID → insertsWatched w (summaryTask up l w).
Proof.
  intros Hu.
  pose proof (runThrice_grows quiet (getSummaryOp up l) (None, timeSleep 10 w)
                (getSummaryOp_grows up l) ltac:(done) ltac:(done)) as Hg.
  pose proof (runThrice_sameObjects (getSummaryOp up l) (None, timeSleep 10 w)
                (getSummaryOp_sameObjects up l)) as (Hh & _ & _).
  unfold summaryTask.
  destruct (runThrice (getSummaryOp up l) (None, timeSleep 10 w)) as [err [sm w1]].
  cbn [fst snd] in Hg, Hh. change (heap (timeSleep 10 w)) with (heap w) in Hh.
  rewrite Hh.
  assert (grows quiet w w1) as Hg1.
  { eapply grows_trans; [|exact Hg]. by apply (grows_emit quiet). }
  apply insertsWatched_poolPut.
  destruct err as [e|]; [|destruct sm as [sm|]; [destruct (Duration sm =? 0)|]].
  - apply grows_quiet_insertsWatched. eapply grows_trans; [exact Hg1|].
    by apply (grows_emit quiet).
  - apply grows_quiet_insertsWatched. eapply grows_trans; [exact Hg1|].
    by apply (grows_emit quiet).
  - eapply insertsWatched_trans; [by apply grows_quiet_insertsWatched|].
    exists [EvInsert (heap w !!! l);
            EvUpdateLiveDuration (liveID (heap w !!! l)) (Duration sm)].
    cbn [emit trace]. split; [by rewrite <- app_assoc|].
    intros v Hin. apply elem_of_cons in Hin as [Hin|Hin]; [by injection Hin as ->|].
    apply list_elem_of_singleton in Hin. discriminate.
  - apply grows_quiet_insertsWatched. eapply grows_trans; [exact Hg1|].
    by apply (grows_emit quiet).
Qed.

Lemma pollOnce_insertsWatched up oldList w newList w' :
  pollOnce up oldList w = (Some newList, w') → insertsWatched w w'.
Proof.
  intros (w0 & fevs & Hfl & Ht & Hq & ->)%pollOnce_success.
  exists (fevs ++ diffEvents (heap (fetchLiveList up w0).2) oldList newList ++ [EvSleep 20]).
  split.
  { cbn [emit trace]. rewrite diffLoops_trace, Ht. by rewrite <- !app_assoc. }
  intros v. rewrite !elem_of_app. intros [Hin|[Hin|Hin]].
  - rewrite Forall_forall in Hq. by specialize (Hq _ Hin).
  - by apply (diffEvents_owner _ _ _ _ _ Hin).
  - apply list_elem_of_singleton in Hin. discriminate.
Qed.

Lemma sysStep_insertsWatched up db s s' :
  sysInv s → sysStep up db s s' → insertsWatched (sworld s) (sworld s').
Proof.
  intros Hs Hstep. destruct Hstep as [s newList w' Hp|s l v before after Hpend|s u id|s cmd os];
    cbn [sworld].
  - by eapply pollOnce_insertsWatched.
  - apply summaryTask_insertsWatched. destruct Hs as (_ & _ & Hall).
    destruct (Hall l v) as (_ & _ & _ & Hv & Hu).
    { rewrite Hpend, elem_of_app. right. apply list_elem_of_here. }
    rewrite <- Hv in Hu. exact Hu.
  - apply cutTask_insertsWatched.
  - apply grows_quiet_insertsWatched.
    by destruct (acmon_handleLine_harmless up db cmd (mkConsole (sworld s) os)) as [Hg _].
Qed.

(** X29. Only sessions of the owner 646973 reach the store, under every
    interleaving of the rounds of the loop, the summary goroutines the
    rounds have started, cut-number goroutines and the commands of the
    console: every insert made on the way is of a session of that owner,
    the ones the summary goroutines make after their sleep too. *)
Theorem system_inserts_watched up db s s' :
  sysInv s → rtc (sysStep up db) s s' →
  ∃ evs, trace (sworld s') = trace (sworld s) ++ evs
         ∧ ∀ v, EvInsert v ∈ evs → uid v = watchedUID.
Proof.
  intros Hs Hsteps. induction Hsteps as [s|s1 s2 s3 Hstep _ IH].
  - apply insertsWatched_refl.
  - eapply insertsWatched_trans; [by eapply sysStep_insertsWatched|].
    apply IH. by eapply sysStep_inv.
Qed.

Lemma system_inserts_watched_witness :
  ∃ evs, trace (sworld system2) = trace (sworld system0) ++ evs
         ∧ ∀ v, EvInsert v ∈ evs → uid v = watchedUID.
Proof.
  apply (system_inserts_watched twoSnapshots noRecords system0 system2).
  - split; [|split].
    + unfold roundInv, poolOk, inUse, keyed.
      split; [split|split]; apply (bool_decide_unpack _); vm_compute; exact I.
    + apply NoDup_nil_2.
    + intros l v Hin. by apply elem_of_nil in Hin.
  - apply (rtc_l _ system0 system1 system2).
    { unfold system1, afterRound.
      apply (StepRound twoSnapshots noRecords system0).
      vm_compute. reflexivity. }
    apply (rtc_l _ system1 system2 system2); [|apply rtc_refl].
    unfold system2, afterRound.
    apply (StepRound twoSnapshots noRecords system1).
    vm_compute. reflexivity.
Defined.
